(** * personaplex-voice-bot: the audio and protocol bridge, embedded in Rocq

    A shallow embedding of the TypeScript sources of the bridge
    (mu-law codec, frame buffer, resampler, engine client, telephony
    handler, session orchestrator) together with the properties its
    specification states about them.

    Conventions of the embedding:
    - JavaScript integers that stay inside the int32 range are [Z]; the
      bit operators [&], [|], [~], [<<], [>>] are [Z.land], [Z.lor],
      [Z.lnot], [Z.shiftl], [Z.shiftr];
    - the numbers that samples, sample rates and reconnect delays are
      (and the phase of the streaming resampler) are IEEE 754 doubles,
      Rocq's primitive floats;
    - typed arrays are lists, a [null]able field is an [option];
    - an [EventEmitter] is a log of emitted events, newest last;
    - a method that mutates [this] and may throw returns the mutated
      object together with the outcome of the call. *)

From Stdlib Require Import String Ascii DecimalString ZArith Floats Uint63.
From Stdlib Require Import Bool Lia List.
Import ListNotations.

Local Open Scope Z_scope.

(** ** Outcomes of calls that may throw *)

Inductive outcome (A : Type) : Type :=
| Returned (a : A)
| Thrown (message : string).
Arguments Returned {A} a.
Arguments Thrown {A} message.

(** ** JavaScript numbers

    A [number] is an IEEE 754 binary64 value: Rocq's primitive [float],
    with the same arithmetic.  [Math.ceil] and [Math.floor] are read off
    the exact value [(-1)^s * m * 2^e] of a finite double. *)

Module JS.

Definition ofZ (z : Z) : float :=
  if z <? 0 then PrimFloat.opp (PrimFloat.of_uint63 (Uint63.of_Z (- z)))
  else PrimFloat.of_uint63 (Uint63.of_Z z).

(** An integer-valued double, or what is left of one. *)
Inductive integral : Type :=
| Finite (z : Z)
| NotANumber
| Infinite (negative : bool).

Definition Math_ceil (x : float) : integral :=
  match Prim2SF x with
  | S754_zero _ => Finite 0
  | S754_finite s m e =>
      let v := if s then Z.neg m else Z.pos m in
      Finite (if 0 <=? e then v * 2 ^ e else - ((- v) / 2 ^ (- e)))
  | S754_infinity s => Infinite s
  | S754_nan => NotANumber
  end.

Definition Math_floor (x : float) : integral :=
  match Prim2SF x with
  | S754_zero _ => Finite 0
  | S754_finite s m e =>
      let v := if s then Z.neg m else Z.pos m in
      Finite (if 0 <=? e then v * 2 ^ e else v / 2 ^ (- e))
  | S754_infinity s => Infinite s
  | S754_nan => NotANumber
  end.

(** [Math.round]: the integer nearest to the exact value, a tie going up. *)
Definition Math_round (x : float) : integral :=
  match Prim2SF x with
  | S754_zero _ => Finite 0
  | S754_finite s m e =>
      let v := if s then Z.neg m else Z.pos m in
      Finite (if 0 <=? e then v * 2 ^ e
              else (2 * v + 2 ^ (- e)) / 2 ^ (- e + 1))
  | S754_infinity s => Infinite s
  | S754_nan => NotANumber
  end.

(** [Math.min] and [Math.max] of two numbers: [NaN] if either is. *)
Definition Math_min (x y : float) : float :=
  if PrimFloat.is_nan x || PrimFloat.is_nan y then PrimFloat.nan
  else if PrimFloat.ltb x y then x else y.

Definition Math_max (x y : float) : float :=
  if PrimFloat.is_nan x || PrimFloat.is_nan y then PrimFloat.nan
  else if PrimFloat.ltb x y then y else x.

(** The double an integral stands for; those beyond 2^53 are doubles
    that are their own floor and ceiling, given by [x]. *)
Definition toNumber (x : float) (i : integral) : float :=
  match i with
  | Finite z => if Z.abs z <? 2 ^ 53 then ofZ z else x
  | _ => x
  end.

(** [Math.fround]: the nearest binary32 value, ties to even. *)
Definition fround (x : float) : float :=
  match Prim2SF x with
  | S754_finite s m e =>
      SF2Prim (binary_normalize 24 128 (if s then Z.neg m else Z.pos m) e s)
  | _ => x
  end.

(** [Math.pow(base, n)] for an integer [n].  ECMAScript leaves the value
    of a power to the implementation, to be approximated; the engines
    compute it to within less than one unit in the last place, so that a
    power that is a double comes back as it is (every power of 2 in
    range, and 1.5 ^ n up to n = 33).  Here it is the double nearest to
    the exact power. *)
Definition Math_pow (base : float) (n : Z) : float :=
  if n =? 0 then 1%float
  else
    match Prim2SF base with
    | S754_nan => PrimFloat.nan
    | S754_infinity s =>
        if n <? 0 then (if s && Z.odd n then PrimFloat.opp 0 else 0)%float
        else if s && Z.odd n then PrimFloat.neg_infinity else PrimFloat.infinity
    | S754_zero s =>
        if n <? 0
        then (if s && Z.odd n then PrimFloat.neg_infinity else PrimFloat.infinity)
        else (if s && Z.odd n then PrimFloat.opp 0 else 0)%float
    | S754_finite s m e =>
        let negative := s && Z.odd n in
        if 0 <? n then
          SF2Prim (binary_normalize 53 1024
                     ((if negative then -1 else 1) * Z.pos m ^ n) (e * n) negative)
        else
          SF2Prim (SFdiv 53 1024 (S754_finite false 1 0)
                     (S754_finite negative (Z.to_pos (Z.pos m ^ (- n))) (e * (- n))))
    end.

(** [new Float32Array(length)], as far as the length goes: [ToIndex].
    The message of the [RangeError] is cut before the length the engine
    appends to it, and the only bound is that of [ToIndex], 2^53 - 1: an
    engine refuses lengths far below it, for lack of memory. *)
Definition typedArrayLength (l : integral) : outcome Z :=
  match l with
  | NotANumber => Returned 0
  | Infinite _ => Thrown "RangeError: Invalid typed array length"
  | Finite z =>
      if (z <? 0) || (2 ^ 53 - 1 <? z)
      then Thrown "RangeError: Invalid typed array length"
      else Returned z
  end.

(** [a[i] ?? fallback] on a [Float32Array]. *)
Definition index (a : list float) (i : integral) (fallback : float) : float :=
  match i with
  | Finite z => if (0 <=? z) && (z <? Z.of_nat (length a))
                then nth (Z.to_nat z) a fallback else fallback
  | _ => fallback
  end.

(** [Math.min(i + 1, n)] for an integral [i] and an integer [n]. *)
Definition minSucc (i : integral) (n : Z) : integral :=
  match i with
  | Finite z => Finite (Z.min (z + 1) n)
  | NotANumber => NotANumber
  | Infinite true => Infinite true
  | Infinite false => Finite n
  end.

End JS.

(** ** src/audio/converter.ts: the mu-law codec *)

Module Mulaw.

Definition MULAW_BIAS : Z := 0x84.
Definition MULAW_MAX : Z := 32635.

Definition MULAW_DECODE_TABLE : list Z :=
  [ -32124; -31100; -30076; -29052; -28028; -27004; -25980; -24956;
    -23932; -22908; -21884; -20860; -19836; -18812; -17788; -16764;
    -15996; -15484; -14972; -14460; -13948; -13436; -12924; -12412;
    -11900; -11388; -10876; -10364;  -9852;  -9340;  -8828;  -8316;
     -7932;  -7676;  -7420;  -7164;  -6908;  -6652;  -6396;  -6140;
     -5884;  -5628;  -5372;  -5116;  -4860;  -4604;  -4348;  -4092;
     -3900;  -3772;  -3644;  -3516;  -3388;  -3260;  -3132;  -3004;
     -2876;  -2748;  -2620;  -2492;  -2364;  -2236;  -2108;  -1980;
     -1884;  -1820;  -1756;  -1692;  -1628;  -1564;  -1500;  -1436;
     -1372;  -1308;  -1244;  -1180;  -1116;  -1052;   -988;   -924;
      -876;   -844;   -812;   -780;   -748;   -716;   -684;   -652;
      -620;   -588;   -556;   -524;   -492;   -460;   -428;   -396;
      -372;   -356;   -340;   -324;   -308;   -292;   -276;   -260;
      -244;   -228;   -212;   -196;   -180;   -164;   -148;   -132;
      -120;   -112;   -104;    -96;    -88;    -80;    -72;    -64;
       -56;    -48;    -40;    -32;    -24;    -16;     -8;      0;
     32124;  31100;  30076;  29052;  28028;  27004;  25980;  24956;
     23932;  22908;  21884;  20860;  19836;  18812;  17788;  16764;
     15996;  15484;  14972;  14460;  13948;  13436;  12924;  12412;
     11900;  11388;  10876;  10364;   9852;   9340;   8828;   8316;
      7932;   7676;   7420;   7164;   6908;   6652;   6396;   6140;
      5884;   5628;   5372;   5116;   4860;   4604;   4348;   4092;
      3900;   3772;   3644;   3516;   3388;   3260;   3132;   3004;
      2876;   2748;   2620;   2492;   2364;   2236;   2108;   1980;
      1884;   1820;   1756;   1692;   1628;   1564;   1500;   1436;
      1372;   1308;   1244;   1180;   1116;   1052;    988;    924;
       876;    844;    812;    780;    748;    716;    684;    652;
       620;    588;    556;    524;    492;    460;    428;    396;
       372;    356;    340;    324;    308;    292;    276;    260;
       244;    228;    212;    196;    180;    164;    148;    132;
       120;    112;    104;     96;     88;     80;     72;     64;
        56;     48;     40;     32;     24;     16;      8;      0 ].

(** [MULAW_DECODE_TABLE[byte]]: the linear PCM value that [mulawToPcm]
    looks up before it normalises by [/ 32768]. *)
Definition decodeMulawByte (byte : Z) : Z :=
  nth (Z.to_nat byte) MULAW_DECODE_TABLE 0.

(** The segment search of [encodeMulawSample]:
    [while ((pcm & mask) === 0 && exponent > 0) { exponent--; mask >>= 1; }].
    The counter [exponent] decreases at each turn, so [exponent + 1] units
    of fuel let the loop reach its exit test. *)
Fixpoint segmentLoop (fuel : nat) (pcm exponent mask : Z) : Z * Z :=
  match fuel with
  | O => (exponent, mask)
  | S fuel' =>
      if (Z.land pcm mask =? 0) && (0 <? exponent)
      then segmentLoop fuel' pcm (exponent - 1) (Z.shiftr mask 1)
      else (exponent, mask)
  end.

(** The biased and clamped magnitude: [pcm = Math.min(|pcm| + MULAW_BIAS, MULAW_MAX)]. *)
Definition biasedMagnitude (pcm : Z) : Z :=
  let pcm := if pcm <? 0 then - pcm else pcm in
  Z.min (pcm + MULAW_BIAS) MULAW_MAX.

(** The exponent (segment number) that the encoder finds for [pcm]. *)
Definition segmentOf (pcm : Z) : Z :=
  fst (segmentLoop 8 (biasedMagnitude pcm) 7 0x4000).

(** [encodeMulawSample] from the point where [pcm] holds the rounded
    16-bit value ([let pcm = Math.round(clamped * 32767)]) to the end. *)
Definition encodeMulawPcm (pcm : Z) : Z :=
  let sign := if pcm <? 0 then 0x80 else 0x00 in
  let pcm := if pcm <? 0 then - pcm else pcm in
  let pcm := Z.min (pcm + MULAW_BIAS) MULAW_MAX in
  let '(exponent, _) := segmentLoop 8 pcm 7 0x4000 in
  let mantissa := Z.land (Z.shiftr pcm (exponent + 3)) 0x0F in
  Z.land (Z.lnot (Z.lor (Z.lor sign (Z.shiftl exponent 4)) mantissa)) 0xFF.

(** [encodeMulawSample(sample)].  A [NaN] sample stays [NaN] through
    the clamp, the rounding and the bias; the bit operators read it as 0,
    the loop runs down to exponent 0, and the byte is 0xFF. *)
Definition encodeMulawSample (sample : float) : Z :=
  let clamped := JS.Math_max (JS.ofZ (-1)) (JS.Math_min (JS.ofZ 1) sample) in
  match JS.Math_round (clamped * JS.ofZ 32767)%float with
  | JS.Finite pcm => encodeMulawPcm pcm
  | _ => 0xFF
  end.

(** [pcmToMulaw(pcm)] *)
Definition pcmToMulaw (pcm : list float) : list Z := map encodeMulawSample pcm.

(** [mulawToPcm(mulaw)]: the table value over 32768, stored as a float32. *)
Definition mulawToPcm (mulaw : list Z) : list float :=
  map (fun byte => JS.fround (JS.ofZ (decodeMulawByte byte) / JS.ofZ 32768)%float) mulaw.

(** The width of one quantisation step in segment [e]: the mantissa is
    cut [e + 3] bits above the least significant one. *)
Definition stepWidth (e : Z) : Z := 2 ^ (e + 3).

(** One round trip at the PCM level, as a checkable predicate. *)
Definition roundTripWithinStep (x : Z) : bool :=
  Z.abs (decodeMulawByte (encodeMulawPcm x) - x) <=? stepWidth (segmentOf x).

(** What a PCM value comes back as: the table value of its code. *)
Definition roundTrip (x : Z) : Z := decodeMulawByte (encodeMulawPcm x).

(** A store into an [Int16Array]: [ToInt16], wrapping modulo 2^16. *)
Definition toInt16 (x : Z) : Z := (x + 32768) mod 65536 - 32768.

(** [int16ToFloat32(int16)] *)
Definition int16ToFloat32 (int16 : list Z) : list float :=
  map (fun x => JS.fround (JS.ofZ x / JS.ofZ 32768)%float) int16.

(** One element of [float32ToInt16(float32)]: clamp, scale by 32767,
    [Math.round], store; a [NaN] is stored as 0. *)
Definition float32ToInt16Sample (sample : float) : Z :=
  let sample := JS.Math_max (JS.ofZ (-1)) (JS.Math_min (JS.ofZ 1) sample) in
  match JS.Math_round (sample * JS.ofZ 32767)%float with
  | JS.Finite z => toInt16 z
  | _ => 0
  end.

Definition float32ToInt16 (float32 : list float) : list Z :=
  map float32ToInt16Sample float32.

(** One element of [mulawToPcm(mulaw)]. *)
Definition decodeSample (byte : Z) : float :=
  JS.fround (JS.ofZ (decodeMulawByte byte) / JS.ofZ 32768)%float.

(** The byte a byte comes back as through [mulawToPcm] and [pcmToMulaw]:
    itself, but for 0x7F, the second code of silence. *)
Definition canonicalByte (byte : Z) : Z := if byte =? 0x7F then 0xFF else byte.

(** The facts about the codec that are checked value by value. *)
Definition monotoneAt (x : Z) : bool := roundTrip x <=? roundTrip (x + 1).

Definition oddAt (x : Z) : bool :=
  (roundTrip (- x) =? - roundTrip x) && (Z.abs (roundTrip x) <=? 32124).

Definition magnitudeBelowOne (byte : Z) : bool :=
  ((JS.ofZ (-1) <? decodeSample byte) && (decodeSample byte <? JS.ofZ 1))%float.

End Mulaw.

(** ** examples/web-client/mulaw.js: the codec of the browser client *)

Module WebClientMulaw.

Definition BIAS : Z := 0x84.
Definition CLIP : Z := 32635.

(** One turn of [initTables]: the entry [muLawDecodeTable[i]], stored
    into an [Int16Array]. *)
Definition decodeTableEntry (i : Z) : Z :=
  let mu := 255 - i in
  let t := Z.shiftl (Z.land mu 0xf) 3 + BIAS in
  let t := Z.shiftl t (Z.shiftr (Z.land mu 0x70) 4) in
  Mulaw.toInt16 (if Z.land i 0x80 =? 0 then t - BIAS else BIAS - t).

Definition muLawDecodeTable : list Z :=
  map (fun i => decodeTableEntry (Z.of_nat i)) (seq 0 256).

(** [encodeMuLaw(sample)]; the [for] loop over [expMask] is the segment
    search of the server's encoder.  The result is the complemented
    number, which the caller stores into a [Uint8Array]. *)
Definition encodeMuLaw (sample : Z) : Z :=
  let sign := if sample <? 0 then 0x80 else 0 in
  let sample := if sample <? 0 then - sample else sample in
  let sample := Z.min sample CLIP in
  let sample := sample + BIAS in
  let '(exponent, _) := Mulaw.segmentLoop 8 sample 7 0x4000 in
  let mantissa := Z.land (Z.shiftr sample (exponent + 3)) 0x0f in
  Z.lnot (Z.lor (Z.lor sign (Z.shiftl exponent 4)) mantissa).

(** A store into a [Uint8Array]: the low eight bits. *)
Definition toUint8 (x : Z) : Z := Z.land x 0xFF.

(** [decodeMuLaw(muLawByte)] *)
Definition decodeMuLaw (muLawByte : Z) : Z :=
  nth (Z.to_nat muLawByte) muLawDecodeTable 0.

(** The facts about the two codecs that are checked value by value. *)
Definition sameCode (x : Z) : bool :=
  toUint8 (encodeMuLaw x) =? Mulaw.encodeMulawPcm x.

Definition oppositeTable (byte : Z) : bool :=
  decodeMuLaw byte =? - Mulaw.decodeMulawByte byte.

End WebClientMulaw.

(** ** Typed arrays

    The three [%TypedArray%.prototype] methods the frame buffer uses,
    after ECMAScript: relative indices are clamped into [0, length], a
    negative one counting from the end; [set] throws a [RangeError] when
    the offset is negative or the source does not fit. *)

Module TypedArray.
Section Ops.
Context {A : Type}.

Definition len (a : list A) : Z := Z.of_nat (List.length a).

(** A relative index clamped into [0, len]. *)
Definition clampIndex (l i : Z) : Z :=
  if i <? 0 then Z.max (l + i) 0 else Z.min i l.

(** [a.copyWithin(target, start)]: the elements from [start] to the end
    are copied to [target] (as many as fit); the array keeps its length. *)
Definition copyWithin (a : list A) (target start : Z) : list A :=
  let l := len a in
  let to := clampIndex l target in
  let from := clampIndex l start in
  let count := Z.min (l - from) (l - to) in
  if 0 <? count
  then firstn (Z.to_nat to) a
         ++ firstn (Z.to_nat count) (skipn (Z.to_nat from) a)
         ++ skipn (Z.to_nat (to + count)) a
  else a.

(** [a.slice(start, end)]: a fresh copy of the elements in between. *)
Definition slice (a : list A) (start end_ : Z) : list A :=
  let l := len a in
  let from := clampIndex l start in
  let final := clampIndex l end_ in
  let count := Z.max (final - from) 0 in
  firstn (Z.to_nat count) (skipn (Z.to_nat from) a).

(** [a.set(source, offset)]. *)
Definition set (a source : list A) (offset : Z) : outcome (list A) :=
  if offset <? 0 then Thrown "RangeError: offset is out of bounds"
  else if len a <? len source + offset
       then Thrown "RangeError: offset is out of bounds"
       else Returned (firstn (Z.to_nat offset) a
                        ++ source
                        ++ skipn (Z.to_nat (offset + len source)) a).

End Ops.
End TypedArray.

(** ** src/audio/buffer.ts: the frame-accumulation buffer *)

Module AudioBuffer.
Section WithSamples.
(** The samples are 32-bit floats; the buffer only moves them around.
    [zero] is the value a fresh [Float32Array] is filled with. *)
Context {A : Type} (zero : A).

Record t : Type := mk {
  buffer : list A;
  writePosition : Z;
  frameSize : Z
}.

(** [new AudioBuffer(frameSize, maxFrames)]; [new Float32Array(n)] throws
    for a negative [n]. *)
Definition constructor (frameSize maxFrames : Z) : outcome t :=
  if frameSize * maxFrames <? 0 then Thrown "RangeError: Invalid typed array length"
  else Returned (mk (repeat zero (Z.to_nat (frameSize * maxFrames))) 0 frameSize).

Definition capacity (b : t) : Z := TypedArray.len (buffer b).

(** [push(samples)].  The assignments to [this.buffer] and
    [this.writePosition] made before [this.buffer.set] throws stay. *)
Definition push (b : t) (samples : list A) : t * outcome unit :=
  let n := TypedArray.len samples in
  let b1 :=
    if capacity b <? writePosition b + n then
      let overflow := writePosition b + n - capacity b in
      mk (TypedArray.copyWithin (buffer b) 0 overflow)
         (writePosition b - overflow) (frameSize b)
    else b in
  match TypedArray.set (buffer b1) samples (writePosition b1) with
  | Thrown e => (b1, Thrown e)
  | Returned buf =>
      (mk buf (writePosition b1 + n) (frameSize b1), Returned tt)
  end.

Definition hasFrame (b : t) : bool := frameSize b <=? writePosition b.

(** [Math.floor(this.writePosition / this.frameSize)].  For integers of
    array-index size the floor of the double quotient is the floor of the
    exact one; a zero [frameSize] gives [Infinity] or [NaN], here [None]. *)
Definition frameCount (b : t) : option Z :=
  if frameSize b =? 0 then None else Some (writePosition b / frameSize b).

Definition sampleCount (b : t) : Z := writePosition b.

(** [readFrame()]: [None] is the [null] result. *)
Definition readFrame (b : t) : t * option (list A) :=
  if negb (hasFrame b) then (b, None)
  else
    let frame := TypedArray.slice (buffer b) 0 (frameSize b) in
    (mk (TypedArray.copyWithin (buffer b) 0 (frameSize b))
        (writePosition b - frameSize b) (frameSize b),
     Some frame).

Definition clear (b : t) : t := mk (buffer b) 0 (frameSize b).

(** [peek(count)]; [None] is a call without the argument. *)
Definition peek (b : t) (count : option Z) : list A :=
  let length := match count with Some c => c | None => writePosition b end in
  TypedArray.slice (buffer b) 0 (Z.min length (writePosition b)).

(** [readAllFrames()]: [let frame = this.readFrame(); while (frame !==
    null) { frames.push(frame); frame = this.readFrame(); }].  Each turn
    of the loop costs one unit of fuel; [None] means that it ran out. *)
Fixpoint readAllFramesLoop (fuel : nat) (b : t) (frames : list (list A))
  : option (t * list (list A)) :=
  match readFrame b with
  | (b', Some frame) =>
      match fuel with
      | O => None
      | S fuel' => readAllFramesLoop fuel' b' (frames ++ [frame])
      end
  | (b', None) => Some (b', frames)
  end.

Definition readAllFrames (fuel : nat) (b : t) : option (t * list (list A)) :=
  readAllFramesLoop fuel b [].

(** A caller that pushes one chunk after the other and stops at the first
    push that throws. *)
Fixpoint pushAll (b : t) (chunks : list (list A)) : t * outcome unit :=
  match chunks with
  | [] => (b, Returned tt)
  | c :: rest =>
      match push b c with
      | (b', Returned _) => pushAll b' rest
      | (b', Thrown e) => (b', Thrown e)
      end
  end.

(** [n] calls of [readFrame] in a row, with their results in order. *)
Fixpoint readFrames (n : nat) (b : t) : t * list (option (list A)) :=
  match n with
  | O => (b, [])
  | S n' =>
      let '(b1, r) := readFrame b in
      let '(b2, rs) := readFrames n' b1 in
      (b2, r :: rs)
  end.

(** The samples the buffer holds: the first [writePosition] slots. *)
Definition contents (b : t) : list A :=
  firstn (Z.to_nat (writePosition b)) (buffer b).

(** The write position stays inside the backing array. *)
Definition wf (b : t) : Prop := 0 <= writePosition b <= capacity b.

(** How many of the oldest samples a push of [n] samples has to drop. *)
Definition excess (b : t) (n : Z) : Z :=
  Z.max 0 (writePosition b + n - capacity b).

(** The state a push of more samples than the capacity leaves behind. *)
Definition wedged (b : t) : Prop := writePosition b < 0 /\ 0 <= frameSize b.

End WithSamples.

Arguments t A : clear implicits.
Arguments mk {A} buffer writePosition frameSize.

End AudioBuffer.

(** ** src/audio/resampler.ts: linear-interpolation resampling *)

Module Resampler.
Import JS.

Local Open Scope float_scope.

(** The length the output array is allocated with:
    [Math.ceil(length / ratio)], [ratio = fromRate / toRate]. *)
Definition outputLength (length : Z) (fromRate toRate : float) : integral :=
  let ratio := fromRate / toRate in
  Math_ceil (ofZ length / ratio).

(** One output sample of [resample]. *)
Definition interpolateAt (audio : list float) (ratio : float) (i : nat) : float :=
  let srcPosition := ofZ (Z.of_nat i) * ratio in
  let srcIndex := Math_floor srcPosition in
  let fraction := srcPosition - toNumber srcPosition srcIndex in
  let sample1 := index audio srcIndex 0 in
  let sample2 := index audio (minSucc srcIndex (Z.of_nat (length audio) - 1)) sample1 in
  fround (sample1 + (sample2 - sample1) * fraction).

(** [resample(audio, fromRate, toRate)] *)
Definition resample (audio : list float) (fromRate toRate : float) : outcome (list float) :=
  if fromRate =? toRate then Returned audio
  else
    let ratio := fromRate / toRate in
    match typedArrayLength (outputLength (Z.of_nat (length audio)) fromRate toRate) with
    | Thrown e => Thrown e
    | Returned n => Returned (map (interpolateAt audio ratio) (seq 0 (Z.to_nat n)))
    end.

Definition resampleToPersonaPlex (audio : list float) : outcome (list float) :=
  resample audio (ofZ 8000) (ofZ 24000).

Definition resampleToTwilio (audio : list float) : outcome (list float) :=
  resample audio (ofZ 24000) (ofZ 8000).

(** [class LinearResampler] *)
Record LinearResampler : Type := mkResampler {
  fromRate : float;
  toRate : float;
  ratio : float;
  fractionalPosition : float
}.

Definition createResampler (fromRate toRate : float) : LinearResampler :=
  mkResampler fromRate toRate (fromRate / toRate) 0.

Definition reset (r : LinearResampler) : LinearResampler :=
  mkResampler (fromRate r) (toRate r) (ratio r) 0.

(** [while (this.fractionalPosition >= 1) { this.fractionalPosition -= 1;
    inputIndex++; }].  Nothing bounds the number of turns (a position
    of 2^53 or more is not changed by [-= 1]), hence the fuel; [None]
    means that it ran out. *)
Fixpoint advance (fuel : nat) (position : float) (inputIndex : Z) : option (float * Z) :=
  if 1 <=? position then
    match fuel with
    | O => None
    | S fuel' => advance fuel' (position - 1) (inputIndex + 1)%Z
    end
  else Some (position, inputIndex).

(** The outer loop of [process], by the number of output slots left:
    [while (outputIndex < outputLength && inputIndex < input.length)].
    [output] is the part of the array filled so far. *)
Fixpoint fill (slots fuel : nat) (input : list float) (ratio position : float)
    (inputIndex : Z) (output : list float) : option (float * list float) :=
  match slots with
  | O => Some (position, output)
  | S slots' =>
      if (inputIndex <? Z.of_nat (length input))%Z then
        let currentSample := index input (Finite inputIndex) 0 in
        let nextSample :=
          index input (Finite (Z.min (inputIndex + 1) (Z.of_nat (length input) - 1)))
            currentSample in
        let sample := fround (currentSample + (nextSample - currentSample) * position) in
        match advance fuel (position + ratio) inputIndex with
        | None => None
        | Some (position', inputIndex') =>
            fill slots' fuel input ratio position' inputIndex' (output ++ [sample])
        end
      else Some (position, output)
  end.

(** [process(input)]: the resampler after the call and what the call
    returned; [None] when the inner loop ran out of [fuel]. *)
Definition process (fuel : nat) (r : LinearResampler) (input : list float)
  : option (LinearResampler * outcome (list float)) :=
  if fromRate r =? toRate r then Some (r, Returned input)
  else
    match typedArrayLength (Math_ceil (ofZ (Z.of_nat (length input)) / ratio r)) with
    | Thrown e => Some (r, Thrown e)
    | Returned n =>
        match fill (Z.to_nat n) fuel input (ratio r) (fractionalPosition r) 0%Z [] with
        | None => None
        | Some (position, output) =>
            Some (mkResampler (fromRate r) (toRate r) (ratio r) position, Returned output)
        end
    end.

(** The length [resample] gives an input of [length] samples, without
    the samples. *)
Definition resampleLength (length : Z) (fromRate toRate : float) : outcome Z :=
  if fromRate =? toRate then Returned length
  else typedArrayLength (outputLength length fromRate toRate).

(** The length the specification names: the exact [ceil(length * to / from)]. *)
Definition exactLength (length from to : Z) : Z := - ((- (length * to)) / from).

Definition lengthIsExact (from to : Z) (length : Z) : bool :=
  match resampleLength length (ofZ from) (ofZ to) with
  | Returned n => (n =? exactLength length from to)%Z
  | Thrown _ => false
  end.

(** The length [resample] gives is the exact one, or one off. *)
Definition lengthWithinOne (from to : Z) (length : Z) : bool :=
  match resampleLength length (ofZ from) (ofZ to) with
  | Returned n => (Z.abs (n - exactLength length from to) <=? 1)%Z
  | Thrown _ => false
  end.

End Resampler.

(** ** Small helpers shared by the event-driven components *)

(** [l[i] = x] on a list; out of range nothing changes. *)
Fixpoint replaceNth {A : Type} (i : nat) (x : A) (l : list A) : list A :=
  match l, i with
  | [], _ => []
  | _ :: rest, O => x :: rest
  | y :: rest, S i' => y :: replaceNth i' x rest
  end.

(** [l] without its [i]-th element. *)
Fixpoint removeNth {A : Type} (i : nat) (l : list A) : list A :=
  match l, i with
  | [], _ => []
  | _ :: rest, O => rest
  | y :: rest, S i' => y :: removeNth i' rest
  end.

(** A number inside a template literal. *)
Definition string_of_Z (z : Z) : string := NilZero.string_of_int (Z.to_int z).

(** A JavaScript string is kept as its UTF-8 bytes.  [toString('utf8')]
    puts U+FFFD in the place of bytes that are not UTF-8; here they stay
    as they are, so the strings to trust are those of well-formed
    payloads. *)
Definition bytesToString (bytes : list Z) : string :=
  fold_right (fun b s => String (ascii_of_N (Z.to_N b)) s) EmptyString bytes.

(** ** src/personaplex/protocol.ts: the engine wire protocol *)

Module Protocol.

Definition HANDSHAKE : Z := 0x00.
Definition AUDIO : Z := 0x01.
Definition TEXT : Z := 0x02.
Definition CONTROL : Z := 0x03.
Definition METADATA : Z := 0x04.
Definition ERROR : Z := 0x05.
Definition PING : Z := 0x06.

(** Buffers are lists of bytes.  The metadata payload is kept as it came:
    what [JSON.parse] makes of it is not looked at by any caller. *)
Inductive PersonaPlexMessage : Type :=
| Handshake
| Audio (data : list Z)
| Text (data : string)
| Control (action : string)
| Metadata (payload : list Z)
| Error (data : string)
| Ping
| Unknown (rawType : Z).

Definition encodeAudioMessage (opusData : list Z) : list Z := AUDIO :: opusData.

Definition decodeControlAction (code : option Z) : string :=
  match code with
  | Some 0 => "start"
  | Some 1 => "endTurn"
  | Some 2 => "pause"
  | Some 3 => "restart"
  | _ => "unknown"
  end.

Definition decodeMessage (data : list Z) : PersonaPlexMessage :=
  match data with
  | [] => Unknown (-1)
  | messageType :: payload =>
      if messageType =? HANDSHAKE then Handshake
      else if messageType =? AUDIO then Audio payload
      else if messageType =? TEXT then Text (bytesToString payload)
      else if messageType =? CONTROL then Control (decodeControlAction (hd_error payload))
      else if messageType =? METADATA then Metadata payload
      else if messageType =? ERROR then Error (bytesToString payload)
      else if messageType =? PING then Ping
      else Unknown messageType
  end.

Definition isHandshake (data : list Z) : bool :=
  match decodeMessage data with
  | Handshake => true
  | _ => false
  end.

(** [Buffer.from(text, 'utf-8')]: the bytes a string is kept as. *)
Definition stringToBytes (s : string) : list Z :=
  map (fun c => Z.of_N (N_of_ascii c)) (list_ascii_of_string s).

(** [encodeTextMessage(text)] *)
Definition encodeTextMessage (text : string) : list Z := TEXT :: stringToBytes text.

(** A byte of a [Buffer]. *)
Definition isByte (b : Z) : Prop := 0 <= b <= 255.

End Protocol.

(** ** src/personaplex/client.ts: the engine connection

    The client lives in an event loop.  Its fields are the first block of
    [Client]; the second block is what the event loop holds for it: the
    sockets it created (a socket is named by its position), the timers it
    armed, the promises [connect()] handed out and the events it emitted.
    A retry chains the new [connectInternal()] promise to the pending one
    ([.then(resolve).catch(reject)]), so all attempts of one [connect()]
    settle one promise, its [flow]. *)

Module Client.
Import Protocol.

Inductive ReadyState : Type := CONNECTING | OPEN | CLOSING | CLOSED.

Definition isOpen (r : ReadyState) : bool :=
  match r with OPEN => true | _ => false end.

Record Socket : Type := mkSocket {
  readyState : ReadyState;
  sent : list (list Z);        (* frames given to [ws.send], oldest first *)
  received : list (list Z);    (* frames delivered by 'message', oldest first *)
  flow : nat;                  (* the promise the handlers of this socket settle *)
  closeWaiters : nat           (* [once('close')] listeners left by [close()] *)
}.

Inductive Timer : Type :=
| RetryTimer (delay : float) (flow : nat)   (* [setTimeout] in the 'close' handler *)
| ReconnectTimer (delay : float).           (* the [await] in [attemptReconnect] *)

Inductive Promise : Type := Pending | Resolved | Rejected (message : string).

Inductive ClientEvent : Type :=
| EvConnected
| EvDisconnected (reason : string)
| EvError (message : string)
| EvAudio (data : list Z)
| EvText (text : string)
| EvReady
| EvMessage (message : PersonaPlexMessage).

(** The constructor options, defaults applied.  [validUrl] tells whether
    [new URL(config.url)] and [new WebSocket(...)] return. *)
Record Options : Type := mkOptions {
  validUrl : bool;
  autoReconnect : bool;
  maxReconnectAttempts : Z;
  reconnectDelay : float
}.

Record Client : Type := mkClient {
  options : Options;
  ws : option nat;
  reconnectAttempts : Z;
  isConnecting : bool;
  isReady : bool;
  shouldReconnect : bool;
  sockets : list Socket;
  timers : list Timer;
  promises : list Promise;
  emitted : list ClientEvent
}.

Definition constructor (o : Options) : Client :=
  mkClient o None 0 false false true [] [] [] [].

(** Assignments to one field.  They take the record apart, so that an
    update of an evaluated client is evaluated at once. *)
Definition set_ws (v : option nat) (c : Client) : Client :=
  let '(mkClient o _ n ic ir sr sk tm pr em) := c in
  mkClient o v n ic ir sr sk tm pr em.
Definition set_reconnectAttempts (v : Z) (c : Client) : Client :=
  let '(mkClient o w _ ic ir sr sk tm pr em) := c in
  mkClient o w v ic ir sr sk tm pr em.
Definition set_isConnecting (v : bool) (c : Client) : Client :=
  let '(mkClient o w n _ ir sr sk tm pr em) := c in
  mkClient o w n v ir sr sk tm pr em.
Definition set_isReady (v : bool) (c : Client) : Client :=
  let '(mkClient o w n ic _ sr sk tm pr em) := c in
  mkClient o w n ic v sr sk tm pr em.
Definition set_shouldReconnect (v : bool) (c : Client) : Client :=
  let '(mkClient o w n ic ir _ sk tm pr em) := c in
  mkClient o w n ic ir v sk tm pr em.
Definition set_sockets (v : list Socket) (c : Client) : Client :=
  let '(mkClient o w n ic ir sr _ tm pr em) := c in
  mkClient o w n ic ir sr v tm pr em.
Definition set_timers (v : list Timer) (c : Client) : Client :=
  let '(mkClient o w n ic ir sr sk _ pr em) := c in
  mkClient o w n ic ir sr sk v pr em.
Definition set_promises (v : list Promise) (c : Client) : Client :=
  let '(mkClient o w n ic ir sr sk tm _ em) := c in
  mkClient o w n ic ir sr sk tm v em.
Definition emit (e : ClientEvent) (c : Client) : Client :=
  let '(mkClient o w n ic ir sr sk tm pr em) := c in
  mkClient o w n ic ir sr sk tm pr (em ++ [e]).

Definition setTimeout (t : Timer) (c : Client) : Client :=
  set_timers (timers c ++ [t]) c.

(** [resolve()] and [reject(e)]: only a pending promise changes. *)
Definition settle (i : nat) (p : Promise) (c : Client) : Client :=
  match nth_error (promises c) i with
  | Some Pending => set_promises (replaceNth i p (promises c)) c
  | _ => c
  end.

Definition socketState (c : Client) (s : nat) : option ReadyState :=
  option_map readyState (nth_error (sockets c) s).

(** [this.ws?.readyState === WebSocket.OPEN] *)
Definition wsIsOpen (c : Client) : bool :=
  match ws c with
  | Some s =>
      match socketState c s with
      | Some r => isOpen r
      | None => false
      end
  | None => false
  end.

(** [connectInternal()], for the promise [fl]: the body of the executor
    up to the registration of the listeners, or its [catch]. *)
Definition connectInternal (fl : nat) (c : Client) : Client :=
  if validUrl (options c) then
    set_ws (Some (length (sockets c)))
      (set_sockets (sockets c ++ [mkSocket CONNECTING [] [] fl 0]) c)
  else
    settle fl (Rejected "TypeError: Invalid URL") (set_isConnecting false c).

(** What [connect()] returns: a promise that is already resolved (the
    two early [return]s) or the promise of a fresh connection flow. *)
Inductive PromiseRef : Type := AlreadyResolved | Flow (i : nat).

Definition connect (c : Client) : Client * PromiseRef :=
  if wsIsOpen c then (c, AlreadyResolved)
  else if isConnecting c then (c, AlreadyResolved)
  else
    let fl := length (promises c) in
    let c := set_isConnecting true c in
    let c := set_shouldReconnect true c in
    let c := set_reconnectAttempts 0 c in
    let c := set_promises (promises c ++ [Pending]) c in
    (connectInternal fl c, Flow fl).

(** The 'open' listener. *)
Definition onOpen (c : Client) : Client :=
  emit EvConnected (set_reconnectAttempts 0 c).

(** [handleMessage(data, resolve)] *)
Definition handleMessage (data : list Z) (fl : nat) (c : Client) : Client :=
  let message := decodeMessage data in
  let c := emit (EvMessage message) c in
  match message with
  | Handshake => settle fl Resolved (emit EvReady (set_isReady true c))
  | Audio d => emit (EvAudio d) c
  | Text d => emit (EvText d) c
  | Error d => emit (EvError d) c
  | _ => c
  end.

(** [attemptReconnect()] up to its [await]; the rest runs when the
    [ReconnectTimer] fires. *)
Definition attemptReconnect (c : Client) : Client :=
  if maxReconnectAttempts (options c) <=? reconnectAttempts c
  then emit (EvError "Max reconnection attempts reached") c
  else
    let c := set_reconnectAttempts (reconnectAttempts c + 1) c in
    let delay :=
      (reconnectDelay (options c) * JS.Math_pow 2 (reconnectAttempts c - 1))%float in
    setTimeout (ReconnectTimer delay) c.

(** The 'close' listener that [connectInternal] registers. *)
Definition onClose (fl : nat) (code : Z) (reason : option string) (c : Client) : Client :=
  if negb (isReady c) then
    if shouldReconnect c && (reconnectAttempts c <? maxReconnectAttempts (options c)) then
      let c := set_reconnectAttempts (reconnectAttempts c + 1) c in
      let delay :=
        (reconnectDelay (options c) * JS.Math_pow 1.5 (reconnectAttempts c))%float in
      let c := set_ws None c in
      setTimeout (RetryTimer delay fl) c
    else
      let c := set_isConnecting false c in
      settle fl
        (Rejected ("Failed to connect after " ++ string_of_Z (reconnectAttempts c)
                     ++ " attempts: Connection closed")) c
  else
    let c := set_isConnecting false c in
    let c := set_isReady false c in
    let c := emit (EvDisconnected
                     (match reason with
                      | Some r => r
                      | None => "Code: " ++ string_of_Z code
                      end)) c in
    if autoReconnect (options c) && shouldReconnect c then attemptReconnect c else c.

(** The [once('close')] listener that [close()] registers. *)
Definition onCloseOnce (c : Client) : Client :=
  set_isReady false (set_ws None c).

(** [sendAudio(opusData)] *)
Definition sendAudio (opusData : list Z) (c : Client) : Client * outcome unit :=
  match ws c with
  | Some s =>
      match nth_error (sockets c) s with
      | Some sk =>
          if negb (isReady c) || negb (isOpen (readyState sk))
          then (c, Thrown "Client is not connected")
          else
            let sk := mkSocket (readyState sk) (sent sk ++ [encodeAudioMessage opusData])
                        (received sk) (flow sk) (closeWaiters sk) in
            (set_sockets (replaceNth s sk (sockets c)) c, Returned tt)
      | None => (c, Thrown "Client is not connected")
      end
  | None => (c, Thrown "Client is not connected")
  end.

(** The getter [connected]. *)
Definition connected (c : Client) : bool := isReady c && wsIsOpen c.

(** [close()], up to the point where it waits for the 'close' event. *)
Definition close (c : Client) : Client :=
  let c := set_shouldReconnect false c in
  match ws c with
  | Some s =>
      match nth_error (sockets c) s with
      | Some sk =>
          if isOpen (readyState sk) then
            set_sockets
              (replaceNth s (mkSocket CLOSING (sent sk) (received sk) (flow sk)
                               (S (closeWaiters sk))) (sockets c)) c
          else
            set_isReady false
              (set_ws None
                 (set_sockets
                    (replaceNth s (mkSocket (readyState sk) (sent sk) (received sk)
                                     (flow sk) (S (closeWaiters sk))) (sockets c)) c))
      | None => c
      end
  | None => c
  end.

(** What can happen to a client: calls of its public methods, events of
    its sockets, and timers that fire. *)
Inductive Event : Type :=
| CallConnect
| CallSendAudio (opusData : list Z)
| CallClose
| SocketOpen (s : nat)
| SocketMessage (s : nat) (data : list Z)
| SocketError (s : nat) (message : string)
| SocketClose (s : nat) (code : Z) (reason : option string)
| TimerFire (i : nat).

Definition isCall (e : Event) : bool :=
  match e with
  | CallConnect | CallSendAudio _ | CallClose => true
  | _ => false
  end.

(** One turn of the event loop.  [None]: the event cannot happen in this
    state (a socket opens once, from CONNECTING; it delivers messages
    while OPEN or CLOSING; it closes once; a timer fires once). *)
Definition step (c : Client) (e : Event) : option Client :=
  match e with
  | CallConnect => Some (fst (connect c))
  | CallSendAudio d => Some (fst (sendAudio d c))
  | CallClose => Some (close c)
  | SocketOpen s =>
      match nth_error (sockets c) s with
      | Some (mkSocket CONNECTING st rc fl cw) =>
          Some (onOpen (set_sockets (replaceNth s (mkSocket OPEN st rc fl cw) (sockets c)) c))
      | _ => None
      end
  | SocketMessage s data =>
      match nth_error (sockets c) s with
      | Some (mkSocket r st rc fl cw) =>
          match r with
          | OPEN | CLOSING =>
              Some (handleMessage data fl
                      (set_sockets
                         (replaceNth s (mkSocket r st (rc ++ [data]) fl cw) (sockets c)) c))
          | _ => None
          end
      | None => None
      end
  | SocketError s message =>
      match nth_error (sockets c) s with
      | Some (mkSocket r st rc fl cw) =>
          match r with
          | CLOSED => None
          | _ => Some (emit (EvError message) c)
          end
      | None => None
      end
  | SocketClose s code reason =>
      match nth_error (sockets c) s with
      | Some (mkSocket r st rc fl cw) =>
          match r with
          | CLOSED => None
          | _ =>
              let c := set_sockets (replaceNth s (mkSocket CLOSED st rc fl 0) (sockets c)) c in
              let c := onClose fl code reason c in
              Some (match cw with O => c | S _ => onCloseOnce c end)
          end
      | None => None
      end
  | TimerFire i =>
      match nth_error (timers c) i with
      | Some t =>
          let c := set_timers (removeNth i (timers c)) c in
          match t with
          | RetryTimer _ fl => Some (connectInternal fl c)
          | ReconnectTimer _ => Some (fst (connect c))
          end
      | None => None
      end
  end.

Fixpoint run (c : Client) (es : list Event) : option Client :=
  match es with
  | [] => Some c
  | e :: rest =>
      match step c e with
      | Some c' => run c' rest
      | None => None
      end
  end.

(** The scenario of a server that cannot be reached: after [connect()]
    every socket closes with code 1006 without having opened, and every
    retry timer fires.  [closes n next] lists [n] such closes, the first
    one of socket [next]. *)
Fixpoint closes (n : nat) (next : nat) : list Event :=
  match n with
  | O => []
  | S O => [SocketClose next 1006 None]
  | S n' => SocketClose next 1006 None :: TimerFire 0 :: closes n' (S next)
  end.

Definition unreachableServer (n : nat) : list Event := CallConnect :: closes n 0.

(** The states this scenario goes through.  [attempting o j]: [j]
    sockets have closed and socket [j] is connecting.  [retrying o j]:
    [j] sockets have closed and the [j]-th retry is armed.  [exhausted o
    j]: socket [j] has closed as well, and the promise is rejected. *)
Definition closedSocket : Socket := mkSocket CLOSED [] [] 0 0.

Definition retryDelay (o : Options) (attempt : Z) : float :=
  (reconnectDelay o * JS.Math_pow 1.5 attempt)%float.

Definition attempting (o : Options) (j : nat) : Client :=
  mkClient o (Some j) (Z.of_nat j) true false true
    (repeat closedSocket j ++ [mkSocket CONNECTING [] [] 0 0]) [] [Pending] [].

Definition retrying (o : Options) (j : nat) : Client :=
  mkClient o None (Z.of_nat j) true false true
    (repeat closedSocket j) [RetryTimer (retryDelay o (Z.of_nat j)) 0] [Pending] [].

Definition exhausted (o : Options) (j : nat) : Client :=
  mkClient o (Some j) (Z.of_nat j) false false true
    (repeat closedSocket (S j)) []
    [Rejected ("Failed to connect after " ++ string_of_Z (Z.of_nat j)
                 ++ " attempts: Connection closed")] [].

(** What holds of a client whatever happens to it.  A socket is live
    until its 'close' event; it is handshaken once a handshake frame was
    delivered on it. *)
Definition isLive (sk : Socket) : bool :=
  match readyState sk with CLOSED => false | _ => true end.

Definition handshaken (sk : Socket) : bool := existsb isHandshake (received sk).

Definition isRetry (t : Timer) : bool :=
  match t with RetryTimer _ _ => true | ReconnectTimer _ => false end.

Definition liveCount (l : list Socket) : nat := length (filter isLive l).
Definition retryCount (l : list Timer) : nat := length (filter isRetry l).

Record Inv (c : Client) : Prop := mkInv {
  (* nothing is under way unless [isConnecting] *)
  inv_idle : isConnecting c = false ->
             liveCount (sockets c) = 0%nat /\ retryCount (timers c) = 0%nat;
  (* at most one attempt is under way: a live socket or an armed retry *)
  inv_one : (liveCount (sockets c) + retryCount (timers c) <= 1)%nat;
  (* [isReady] belongs to a live socket, and that one is handshaken *)
  inv_ready_live : isReady c = true -> liveCount (sockets c) = 1%nat;
  inv_ready : isReady c = true ->
              Forall (fun sk => isLive sk = true -> handshaken sk = true) (sockets c);
  (* audio went only to handshaken sockets *)
  inv_sent : Forall (fun sk => sent sk <> [] -> handshaken sk = true) (sockets c)
}.

(** A server that accepts the socket and closes it before any handshake:
    [n] rounds of open, close and retry. *)
Fixpoint flappingServer (n : nat) (next : nat) : list Event :=
  match n with
  | O => []
  | S n' =>
      SocketOpen next :: SocketClose next 1006 None :: TimerFire 0
        :: flappingServer n' (S next)
  end.

(** The state after [j] such rounds: socket [j] is connecting, the
    sockets before it have opened and closed, the promise is pending, and
    the attempt counter, set back by every 'open', is at 1. *)
Definition flapped (o : Options) (j : nat) : Client :=
  mkClient o (Some j) (match j with O => 0 | S _ => 1 end) true false true
    (repeat closedSocket j ++ [mkSocket CONNECTING [] [] 0 0]) [] [Pending]
    (repeat EvConnected j).

(** A socket that has opened and has not closed yet. *)
Definition isOpened (sk : Socket) : bool :=
  match readyState sk with OPEN | CLOSING => true | _ => false end.

Definition openedCount (l : list Socket) : nat := length (filter isOpened l).

(** What one event does to a socket that exists: [sendAudio] gives it a
    frame, [close()] closes it or only waits for it, it opens, it
    delivers a message, it closes. *)
Inductive SocketChange : Socket -> Socket -> Prop :=
| ChangeSend st rc fl cw d :
    SocketChange (mkSocket OPEN st rc fl cw)
      (mkSocket OPEN (st ++ [encodeAudioMessage d]) rc fl cw)
| ChangeClosing st rc fl cw :
    SocketChange (mkSocket OPEN st rc fl cw) (mkSocket CLOSING st rc fl (S cw))
| ChangeWaiter r st rc fl cw :
    SocketChange (mkSocket r st rc fl cw) (mkSocket r st rc fl (S cw))
| ChangeOpen st rc fl cw :
    SocketChange (mkSocket CONNECTING st rc fl cw) (mkSocket OPEN st rc fl cw)
| ChangeMessage r st rc fl cw d :
    r = OPEN \/ r = CLOSING ->
    SocketChange (mkSocket r st rc fl cw) (mkSocket r st (rc ++ [d]) fl cw)
| ChangeClosed r st rc fl cw :
    SocketChange (mkSocket r st rc fl cw) (mkSocket CLOSED st rc fl 0).

(** A frame of type AUDIO. *)
Definition isAudioFrame (frame : list Z) : bool :=
  match frame with
  | messageType :: _ => messageType =? AUDIO
  | [] => false
  end.

Definition isConnect (e : Event) : bool :=
  match e with CallConnect => true | _ => false end.

(** While a socket is open the attempt counter is at zero. *)
Definition freshWhileOpen (c : Client) : Prop :=
  (0 < openedCount (sockets c))%nat -> reconnectAttempts c = 0.

(** A server that completes the handshake and then drops the
    connection: [n] rounds of open, handshake, close and reconnection. *)
Fixpoint droppingServer (n : nat) (next : nat) : list Event :=
  match n with
  | O => []
  | S n' =>
      SocketOpen next :: SocketMessage next [HANDSHAKE]
        :: SocketClose next 1006 None :: TimerFire 0
        :: droppingServer n' (S next)
  end.

(** What the client emits in one such round. *)
Definition droppedEvents : list ClientEvent :=
  [EvConnected; EvMessage Handshake; EvReady; EvDisconnected "Code: 1006"].

(** The sockets of the first [j] rounds: closed, each after its handshake. *)
Definition droppedSockets (j : nat) : list Socket :=
  map (fun i => mkSocket CLOSED [] [[HANDSHAKE]] i 0) (seq 0 j).

(** The state after [connect()] and [j] rounds: socket [j] is connecting
    for the flow [j], and the attempt counter is back at 0. *)
Definition reconnecting (o : Options) (j : nat) : Client :=
  mkClient o (Some j) 0 true false true
    (droppedSockets j ++ [mkSocket CONNECTING [] [] j 0]) []
    (repeat Resolved j ++ [Pending])
    (concat (repeat droppedEvents j)).

(** The state after socket [j] has opened, shaken hands and closed: the
    reconnection is armed. *)
Definition dropped (o : Options) (j : nat) : Client :=
  mkClient o (Some j) 1 false false true
    (droppedSockets (S j))
    [ReconnectTimer (reconnectDelay o * JS.Math_pow 2 0)%float]
    (repeat Resolved (S j))
    (concat (repeat droppedEvents (S j))).

(** A socket that delivers has opened. *)
Definition openedBeforeReceiving (c : Client) : Prop :=
  Forall (fun sk => received sk <> [] -> readyState sk <> CONNECTING) (sockets c).

(** The client is ready whenever the socket it holds is open and has
    delivered a handshake. *)
Definition readyWhenHeld (c : Client) : Prop :=
  forall s sk,
    ws c = Some s -> nth_error (sockets c) s = Some sk ->
    readyState sk = OPEN -> handshaken sk = true -> isReady c = true.

(** A promise that is resolved belongs to a flow one of whose sockets
    has delivered a handshake. *)
Definition resolvedByHandshake (c : Client) : Prop :=
  forall i, nth_error (promises c) i = Some Resolved ->
  Exists (fun sk => flow sk = i /\ handshaken sk = true) (sockets c).

End Client.

(** ** src/twilio/media-streams.ts: the telephony leg *)

Module Twilio.

Definition mulawToPcm := Mulaw.mulawToPcm.
Definition pcmToMulaw := Mulaw.pcmToMulaw.

(** *** [parseInt(string, 10)]

    After ECMAScript: leading white space is skipped, then an optional
    sign, then the longest run of decimal digits; no digit gives [NaN],
    here [None].  Strings are bytes, so of the white space only the
    ASCII characters are recognised; the value is kept exact, where
    [parseInt] rounds an integer beyond 2^53 to a double. *)

Definition isWhiteSpace (c : ascii) : bool :=
  let n := N_of_ascii c in
  ((9 <=? n) && (n <=? 13) || (n =? 32))%N.

Fixpoint trimStart (s : string) : string :=
  match s with
  | String c rest => if isWhiteSpace c then trimStart rest else s
  | EmptyString => s
  end.

Definition digitValue (c : ascii) : option Z :=
  let n := N_of_ascii c in
  if ((48 <=? n) && (n <=? 57))%N then Some (Z.of_N n - 48) else None.

(** The value of the longest prefix of digits, after the digits [acc]. *)
Fixpoint digits (s : string) (acc : option Z) : option Z :=
  match s with
  | String c rest =>
      match digitValue c with
      | Some d => digits rest (Some (10 * match acc with Some a => a | None => 0 end + d))
      | None => acc
      end
  | EmptyString => acc
  end.

Definition parseInt10 (s : string) : option Z :=
  match trimStart s with
  | String "-" rest => option_map Z.opp (digits rest None)
  | String "+" rest => digits rest None
  | rest => digits rest None
  end.

(** [parseInt(timestamp, 10) || Date.now()], [now] being the value of
    [Date.now()]: [NaN] and 0 are the falsy numbers. *)
Definition timestampOr (now : Z) (timestamp : string) : Z :=
  match parseInt10 timestamp with
  | Some n => if n =? 0 then now else n
  | None => now
  end.

(** *** Messages and the handler *)

Record StartInfo : Type := mkStartInfo {
  start_streamSid : string;
  start_accountSid : string;
  start_callSid : string;
  start_tracks : list string
}.

Record MediaInfo : Type := mkMediaInfo {
  media_track : string;
  media_chunk : string;
  media_timestamp : string;
  media_payload : string
}.

Record DtmfInfo : Type := mkDtmfInfo {
  dtmf_track : string;
  dtmf_digit : string
}.

(** [TwilioMediaMessage], with the fields [handleMessage] reads; an
    absent optional field is [None]. *)
Record TwilioMediaMessage : Type := mkMessage {
  event : string;
  start : option StartInfo;
  media : option MediaInfo;
  dtmf : option DtmfInfo
}.

Inductive HandlerEvent : Type :=
| EvConnected
| EvStart (streamSid callSid : string)
| EvAudio (pcm : list float) (timestamp : Z)
| EvStop
| EvDtmf (digit : string).

Record TwilioMediaHandler : Type := mkHandler {
  streamSid : option string;
  callSid : option string;
  mediaSequence : Z;
  emitted : list HandlerEvent
}.

Definition constructor : TwilioMediaHandler := mkHandler None None 0 [].

Definition emit (e : HandlerEvent) (h : TwilioMediaHandler) : TwilioMediaHandler :=
  mkHandler (streamSid h) (callSid h) (mediaSequence h) (emitted h ++ [e]).

Definition isActive (h : TwilioMediaHandler) : bool :=
  match streamSid h with Some _ => true | None => false end.

Definition nonEmpty (s : string) : bool :=
  match s with EmptyString => false | _ => true end.

Section WithPlatform.
(** [Buffer.from(payload, 'base64')], a function of the platform. *)
Variable base64Decode : string -> list Z.
(** The value [Date.now()] returns during the call. *)
Variable now : Z.

Definition handleMediaPayload (base64Payload timestamp : string)
    (h : TwilioMediaHandler) : TwilioMediaHandler :=
  let mulaw := base64Decode base64Payload in
  let pcm := mulawToPcm mulaw in
  let timestampMs := timestampOr now timestamp in
  emit (EvAudio pcm timestampMs) h.

(** [handleMessage(message)].  No statement of the [try] block throws by
    itself; the [catch] is for listeners that throw, which are not part
    of the handler. *)
Definition handleMessage (h : TwilioMediaHandler) (message : TwilioMediaMessage)
  : TwilioMediaHandler :=
  if (event message =? "connected")%string then emit EvConnected h
  else if (event message =? "start")%string then
    match start message with
    | Some st =>
        let h := mkHandler (Some (start_streamSid st)) (Some (start_callSid st))
                   (mediaSequence h) (emitted h) in
        emit (EvStart (start_streamSid st) (start_callSid st)) h
    | None => h
    end
  else if (event message =? "media")%string then
    match media message with
    | Some m =>
        if nonEmpty (media_payload m)
        then handleMediaPayload (media_payload m) (media_timestamp m) h
        else h
    | None => h
    end
  else if (event message =? "stop")%string then
    let h := emit EvStop h in
    mkHandler None None (mediaSequence h) (emitted h)
  else if (event message =? "dtmf")%string then
    match dtmf message with
    | Some d => if nonEmpty (dtmf_digit d) then emit (EvDtmf (dtmf_digit d)) h else h
    | None => h
    end
  else h.

End WithPlatform.

(** *** Messages for Twilio

    The [create...Message] methods return [JSON.stringify] of an object;
    the object is what is kept here. *)

Inductive OutboundMessage : Type :=
| OutMedia (streamSid payload : string)
| OutMark (streamSid name : string)
| OutClear (streamSid : string).

(** [buffer.toString('base64')]: three bytes give four characters, the
    last group is padded with [=]. *)
Definition base64Alphabet : string :=
  "ABCDEFGHIJKLMNOPQRSTUVWXYZabcdefghijklmnopqrstuvwxyz0123456789+/".

Definition base64Char (i : Z) : ascii :=
  nth (Z.to_nat i) (list_ascii_of_string base64Alphabet) "="%char.

Fixpoint base64Encode (bytes : list Z) : string :=
  match bytes with
  | [] => EmptyString
  | [a] =>
      String (base64Char (Z.shiftr a 2))
        (String (base64Char (Z.shiftl (Z.land a 3) 4)) "==")
  | [a; b] =>
      String (base64Char (Z.shiftr a 2))
        (String (base64Char (Z.lor (Z.shiftl (Z.land a 3) 4) (Z.shiftr b 4)))
           (String (base64Char (Z.shiftl (Z.land b 15) 2)) "="))
  | a :: b :: c :: rest =>
      String (base64Char (Z.shiftr a 2))
        (String (base64Char (Z.lor (Z.shiftl (Z.land a 3) 4) (Z.shiftr b 4)))
           (String (base64Char (Z.lor (Z.shiftl (Z.land b 15) 2) (Z.shiftr c 6)))
              (String (base64Char (Z.land c 63)) (base64Encode rest))))
  end.

(** The stream id when [!this.streamSid] is false: [null] and the empty
    string both count as no stream. *)
Definition startedSid (h : TwilioMediaHandler) : option string :=
  match streamSid h with
  | Some sid => if nonEmpty sid then Some sid else None
  | None => None
  end.

Definition createAudioMessage (pcm : list float) (h : TwilioMediaHandler)
  : TwilioMediaHandler * outcome OutboundMessage :=
  match startedSid h with
  | None => (h, Thrown "Stream not started")
  | Some sid =>
      let mulaw := pcmToMulaw pcm in
      let payload := base64Encode mulaw in
      (mkHandler (streamSid h) (callSid h) (mediaSequence h + 1) (emitted h),
       Returned (OutMedia sid payload))
  end.

Definition createMarkMessage (name : string) (h : TwilioMediaHandler)
  : outcome OutboundMessage :=
  match startedSid h with
  | None => Thrown "Stream not started"
  | Some sid => Returned (OutMark sid name)
  end.

Definition createClearMessage (h : TwilioMediaHandler) : outcome OutboundMessage :=
  match startedSid h with
  | None => Thrown "Stream not started"
  | Some sid => Returned (OutClear sid)
  end.

Definition currentStreamSid (h : TwilioMediaHandler) : option string := streamSid h.
Definition currentCallSid (h : TwilioMediaHandler) : option string := callSid h.

Definition reset (h : TwilioMediaHandler) : TwilioMediaHandler :=
  mkHandler None None 0 (emitted h).

(** *** A handler in use: the calls made on it, in order *)

Inductive Call : Type :=
| Incoming (now : Z) (message : TwilioMediaMessage)
| CreateAudio (pcm : list float)
| CreateMark (name : string)
| CreateClear
| Reset.

Section Calls.
Variable base64Decode : string -> list Z.

(** One call and what it returned; [None] for the methods without a result. *)
Definition call (h : TwilioMediaHandler) (c : Call)
  : TwilioMediaHandler * option (outcome OutboundMessage) :=
  match c with
  | Incoming now message => (handleMessage base64Decode now h message, None)
  | CreateAudio pcm => let '(h, r) := createAudioMessage pcm h in (h, Some r)
  | CreateMark name => (h, Some (createMarkMessage name h))
  | CreateClear => (h, Some (createClearMessage h))
  | Reset => (reset h, None)
  end.

Fixpoint calls (h : TwilioMediaHandler) (cs : list Call)
  : TwilioMediaHandler * list (option (outcome OutboundMessage)) :=
  match cs with
  | [] => (h, [])
  | c :: rest =>
      let '(h1, r) := call h c in
      let '(h2, rs) := calls h1 rest in
      (h2, r :: rs)
  end.

End Calls.

Definition isMedia (r : option (outcome OutboundMessage)) : bool :=
  match r with Some (Returned (OutMedia _ _)) => true | _ => false end.

Definition isReset (c : Call) : bool :=
  match c with Reset => true | _ => false end.

Definition outSid (m : OutboundMessage) : string :=
  match m with OutMedia sid _ | OutMark sid _ | OutClear sid => sid end.

(** A call that had no result, or returned a message for the stream [sid]. *)
Definition carriesSid (sid : string) (r : option (outcome OutboundMessage)) : bool :=
  match r with
  | Some (Returned m) => (outSid m =? sid)%string
  | Some (Thrown _) => false
  | None => true
  end.

(** The calls that assign [streamSid]: 'start' and 'stop' messages and [reset]. *)
Definition assignsSid (c : Call) : bool :=
  match c with
  | Incoming _ message =>
      ((event message =? "start") || (event message =? "stop"))%string
  | Reset => true
  | _ => false
  end.

End Twilio.

(** ** src/twilio/twiml.ts: the XML documents for Twilio

    Strings are bytes; the characters that [escapeXml] replaces are ASCII,
    which no byte of a longer UTF-8 sequence equals. *)

Module Twiml.
Local Open Scope string_scope.

(** The double quote and the line feed, as strings. *)
Definition dq : string := String "034"%char EmptyString.
Definition nl : string := String "010"%char EmptyString.

(** [s.replace(/c/g, replacement)] for a pattern of one character and a
    replacement without [$]. *)
Fixpoint replaceAll (c : ascii) (replacement s : string) : string :=
  match s with
  | EmptyString => EmptyString
  | String x rest =>
      if Ascii.eqb x c then replacement ++ replaceAll c replacement rest
      else String x (replaceAll c replacement rest)
  end.

Definition escapeXml (unsafe : string) : string :=
  replaceAll "'" "&apos;"
    (replaceAll "034" "&quot;"
       (replaceAll ">" "&gt;"
          (replaceAll "<" "&lt;"
             (replaceAll "&" "&amp;" unsafe)))).

Definition xmlDeclaration : string :=
  "<?xml version=" ++ dq ++ "1.0" ++ dq ++ " encoding=" ++ dq ++ "UTF-8" ++ dq ++ "?>".

(** [generateStreamTwiml(wsUrl, welcomeMessage)]; [None] is a call
    without the message. *)
Definition generateStreamTwiml (wsUrl : string) (welcomeMessage : option string)
  : string :=
  let sayElement :=
    match welcomeMessage with
    | Some m =>
        if Twilio.nonEmpty m
        then "<Say voice=" ++ dq ++ "Polly.Joanna" ++ dq ++ ">" ++ escapeXml m ++ "</Say>"
        else ""
    | None => ""
    end in
  xmlDeclaration ++ nl
  ++ "<Response>" ++ nl
  ++ "  " ++ sayElement ++ nl
  ++ "  <Connect>" ++ nl
  ++ "    <Stream url=" ++ dq ++ escapeXml wsUrl ++ dq ++ ">" ++ nl
  ++ "      <Parameter name=" ++ dq ++ "codec" ++ dq
  ++ " value=" ++ dq ++ "audio/x-mulaw" ++ dq ++ "/>" ++ nl
  ++ "    </Stream>" ++ nl
  ++ "  </Connect>" ++ nl
  ++ "</Response>".

(** The default of the parameter [voice]. *)
Definition voiceOr (voice : option string) : string :=
  match voice with Some v => v | None => "Polly.Joanna" end.

Definition generateSayTwiml (message : string) (voice : option string) : string :=
  xmlDeclaration ++ nl
  ++ "<Response>" ++ nl
  ++ "  <Say voice=" ++ dq ++ escapeXml (voiceOr voice) ++ dq ++ ">"
  ++ escapeXml message ++ "</Say>" ++ nl
  ++ "</Response>".

Definition generateSayAndHangupTwiml (message : string) (voice : option string)
  : string :=
  xmlDeclaration ++ nl
  ++ "<Response>" ++ nl
  ++ "  <Say voice=" ++ dq ++ escapeXml (voiceOr voice) ++ dq ++ ">"
  ++ escapeXml message ++ "</Say>" ++ nl
  ++ "  <Hangup/>" ++ nl
  ++ "</Response>".

(** How often the character [c] occurs in [s]. *)
Fixpoint occurrences (c : ascii) (s : string) : nat :=
  match s with
  | EmptyString => 0%nat
  | String x rest => ((if Ascii.eqb x c then 1 else 0) + occurrences c rest)%nat
  end.

(** What [escapeXml] writes for one character. *)
Definition escapeChar (c : ascii) : string :=
  if Ascii.eqb c "&" then "&amp;"
  else if Ascii.eqb c "<" then "&lt;"
  else if Ascii.eqb c ">" then "&gt;"
  else if Ascii.eqb c "034" then "&quot;"
  else if Ascii.eqb c "'" then "&apos;"
  else String c EmptyString.

(** The five replacements made in one pass. *)
Fixpoint escapeOnePass (s : string) : string :=
  match s with
  | EmptyString => EmptyString
  | String c rest => escapeChar c ++ escapeOnePass rest
  end.

End Twiml.

(** ** src/voice-bot.ts: the session orchestrator

    [endSession] is an [async] function: it runs up to its [await], and
    the rest runs later, other events in between.  A call that has passed
    the [await cleanup()] is kept in [suspended] until it resumes:
    [InCleanup] waits for [personaplexClient.close()] inside [cleanup],
    [AfterCleanup] waits to emit. *)

Module VoiceBot.

Inductive VoiceBotEvent : Type :=
| EvReady
| EvAudio (pcm : list float)
| EvText (text : string)
| EvError (message : string)
| EvEnded.

Inductive Suspended : Type := InCleanup | AfterCleanup.

Record VoiceBot : Type := mkVoiceBot {
  personaplexClient : option Client.Client;
  inputBuffer : option (AudioBuffer.t float);
  isSessionActive : bool;
  opusCodec : bool;               (* [false] is [null]; the codec is opaque *)
  emitted : list VoiceBotEvent;
  suspended : list Suspended
}.

(** [new VoiceBot(config)] *)
Definition constructor : VoiceBot := mkVoiceBot None None false true [] [].

Definition emit (e : VoiceBotEvent) (b : VoiceBot) : VoiceBot :=
  mkVoiceBot (personaplexClient b) (inputBuffer b) (isSessionActive b) (opusCodec b)
    (emitted b ++ [e]) (suspended b).

(** [cleanup()] from the point after [await this.personaplexClient.close()]
    (or from its start, when there is no client) to its end. *)
Definition cleanupRest (b : VoiceBot) : VoiceBot :=
  mkVoiceBot None None (isSessionActive b) false (emitted b) (suspended b).

(** [endSession()] up to the first [await] it reaches. *)
Definition endSession (b : VoiceBot) : VoiceBot :=
  if negb (isSessionActive b) then b
  else
    match personaplexClient b with
    | Some c =>
        mkVoiceBot (Some (Client.close c)) (inputBuffer b) false (opusCodec b)
          (emitted b) (suspended b ++ [InCleanup])
    | None =>
        cleanupRest
          (mkVoiceBot None (inputBuffer b) false (opusCodec b)
             (emitted b) (suspended b ++ [AfterCleanup]))
    end.

(** The [i]-th suspended call goes on to its next [await] or to its end. *)
Definition resume (i : nat) (b : VoiceBot) : option VoiceBot :=
  match nth_error (suspended b) i with
  | Some InCleanup =>
      Some (cleanupRest
              (mkVoiceBot (personaplexClient b) (inputBuffer b) (isSessionActive b)
                 (opusCodec b) (emitted b) (replaceNth i AfterCleanup (suspended b))))
  | Some AfterCleanup =>
      Some (emit EvEnded
              (mkVoiceBot (personaplexClient b) (inputBuffer b) (isSessionActive b)
                 (opusCodec b) (emitted b) (removeNth i (suspended b))))
  | None => None
  end.

(** The listener for the client's 'disconnected' event that
    [startSession] registers. *)
Definition onDisconnected (b : VoiceBot) : VoiceBot :=
  if isSessionActive b then
    emit EvEnded
      (mkVoiceBot (personaplexClient b) (inputBuffer b) false (opusCodec b)
         (emitted b) (suspended b))
  else b.

(** What happens to a bot while it shuts down. *)
Inductive Event : Type :=
| CallEndSession
| Resume (i : nat)
| ClientDisconnected.

Definition step (b : VoiceBot) (e : Event) : option VoiceBot :=
  match e with
  | CallEndSession => Some (endSession b)
  | Resume i => resume i b
  | ClientDisconnected => Some (onDisconnected b)
  end.

Fixpoint run (b : VoiceBot) (es : list Event) : option VoiceBot :=
  match es with
  | [] => Some b
  | e :: rest =>
      match step b e with
      | Some b' => run b' rest
      | None => None
      end
  end.

Definition isEnded (e : VoiceBotEvent) : bool :=
  match e with EvEnded => true | _ => false end.

(** How often 'ended' was emitted. *)
Definition endedCount (b : VoiceBot) : nat := length (filter isEnded (emitted b)).

(** 'ended' events emitted or still to be emitted. *)
Definition endedDue (b : VoiceBot) : nat :=
  (endedCount b + length (suspended b) + Nat.b2n (isSessionActive b))%nat.

(** *** [sendAudio]

    The Opus encoder is a WebAssembly library with a state of its own:
    [opusEncode] stands for [this.opusCodec.encode(frame)], which returns
    a packet or throws.  [inputSampleRate] is the field that
    [startSession] sets. *)

Section WithCodec.
Variable Encoder : Type.
Variable opusEncode : Encoder -> list float -> Encoder * outcome (list Z).
Variable inputSampleRate : float.

Definition PERSONAPLEX_SAMPLE_RATE : float := JS.ofZ 24000.

(** [audioData] in [sendAudio]: the chunk at the rate of the server. *)
Definition toPersonaPlexRate (pcm : list float) : outcome (list float) :=
  if negb (inputSampleRate =? PERSONAPLEX_SAMPLE_RATE)%float
  then Resampler.resample pcm inputSampleRate PERSONAPLEX_SAMPLE_RATE
  else Returned pcm.

(** The body of the [while] loop for one frame: what [encode] or
    [personaplexClient.sendAudio] throws is caught and logged. *)
Definition sendFrame (codec : bool) (frame : option (list float))
    (client : Client.Client) (k : Encoder) : Client.Client * Encoder :=
  match frame with
  | Some frame =>
      if codec then
        match opusEncode k frame with
        | (k, Returned opusPacket) => (fst (Client.sendAudio opusPacket client), k)
        | (k, Thrown _) => (client, k)
        end
      else (client, k)
  | None => (client, k)
  end.

(** [while (this.inputBuffer.hasFrame()) { ... }]; each turn costs one
    unit of fuel, [None] means that it ran out. *)
Fixpoint sendFrames (fuel : nat) (codec : bool) (buffer : AudioBuffer.t float)
    (client : Client.Client) (k : Encoder)
  : option (AudioBuffer.t float * Client.Client * Encoder) :=
  if AudioBuffer.hasFrame buffer then
    match fuel with
    | O => None
    | S fuel' =>
        let '(buffer, frame) := AudioBuffer.readFrame buffer in
        let '(client, k) := sendFrame codec frame client k in
        sendFrames fuel' codec buffer client k
    end
  else Some (buffer, client, k).

Definition sendAudio (fuel : nat) (b : VoiceBot) (k : Encoder) (pcm : list float)
  : option (VoiceBot * Encoder * outcome unit) :=
  if negb (isSessionActive b) then Some (b, k, Thrown "Session not active"%string)
  else
    match personaplexClient b, inputBuffer b with
    | Some client, Some buffer =>
        match toPersonaPlexRate pcm with
        | Thrown e => Some (b, k, Thrown e)
        | Returned audioData =>
            match AudioBuffer.push buffer audioData with
            | (buffer, Thrown e) =>
                Some (mkVoiceBot (Some client) (Some buffer) (isSessionActive b)
                        (opusCodec b) (emitted b) (suspended b),
                      k, Thrown e)
            | (buffer, Returned _) =>
                match sendFrames fuel (opusCodec b) buffer client k with
                | Some (buffer, client, k) =>
                    Some (mkVoiceBot (Some client) (Some buffer) (isSessionActive b)
                            (opusCodec b) (emitted b) (suspended b),
                          k, Returned tt)
                | None => None
                end
            end
        end
    | _, _ => Some (b, k, Thrown "Session not active"%string)
    end.

(** The packets of the frames that the encoder accepts, in order, and
    the encoder after them. *)
Fixpoint encodeFrames (k : Encoder) (frames : list (list float))
  : Encoder * list (list Z) :=
  match frames with
  | [] => (k, [])
  | frame :: rest =>
      match opusEncode k frame with
      | (k, Returned opusPacket) =>
          let '(k, packets) := encodeFrames k rest in (k, opusPacket :: packets)
      | (k, Thrown _) => encodeFrames k rest
      end
  end.

End WithCodec.

(** The buffer that [startSession] creates:
    [new AudioBuffer(Math.round(24000 * 80 / 1000))]. *)
Definition sessionBuffer : outcome (AudioBuffer.t float) :=
  AudioBuffer.constructor (JS.ofZ 0) 1920 10.

(** A session that is active and whose buffer is wedged. *)
Definition wedgedSession (b : VoiceBot) : Prop :=
  isSessionActive b = true /\
  exists client buffer,
    personaplexClient b = Some client /\ inputBuffer b = Some buffer /\
    AudioBuffer.wedged buffer.

End VoiceBot.

(** The [i]-th slice of [size] elements of [data]. *)
Definition sliceAt {A : Type} (size : Z) (data : list A) (i : nat) : list A :=
  firstn (Z.to_nat size) (skipn (i * Z.to_nat size) data).

(** The complete frames a buffer holds, oldest first. *)
Definition framesOf {A : Type} (buffer : AudioBuffer.t A) : list (list A) :=
  map (sliceAt (AudioBuffer.frameSize buffer) (AudioBuffer.contents buffer))
    (seq 0 (Z.to_nat (AudioBuffer.writePosition buffer / AudioBuffer.frameSize buffer))).

(** ** Exhaustive checks over a range of integers *)

(** [allFrom p bits base] tests [p] on the [2 ^ bits] integers from [base] on. *)
Fixpoint allFrom (p : Z -> bool) (bits : nat) (base : Z) : bool :=
  match bits with
  | O => p base
  | S b => allFrom p b base && allFrom p b (base + 2 ^ Z.of_nat b)
  end.

(** The 256 values of a byte. *)
Definition allBytes : list Z := map Z.of_nat (seq 0 256).

(** * Proofs *)

Lemma allFrom_spec (p : Z -> bool) (bits : nat) :
  forall base, allFrom p bits base = true ->
  forall x, base <= x < base + 2 ^ Z.of_nat bits -> p x = true.
Proof.
  induction bits as [|b IH]; intros base Hall x Hx.
  - simpl in Hx. assert (x = base) by lia. subst x. exact Hall.
  - simpl in Hall. apply andb_prop in Hall. destruct Hall as [Hlo Hhi].
    rewrite Nat2Z.inj_succ, Z.pow_succ_r in Hx by lia.
    destruct (Z_lt_ge_dec x (base + 2 ^ Z.of_nat b)) as [Hlt|Hge].
    + apply (IH base Hlo). lia.
    + apply (IH _ Hhi). lia.
Qed.

Lemma allFrom_eqb (f g : Z -> Z) (bits : nat) (base : Z) :
  allFrom (fun x => f x =? g x) bits base = true ->
  forall x, base <= x < base + 2 ^ Z.of_nat bits -> f x = g x.
Proof.
  intros Hall x Hx. apply Z.eqb_eq.
  exact (allFrom_spec (fun x => f x =? g x) bits base Hall x Hx).
Qed.

Lemma allBytes_spec (b : Z) : 0 <= b <= 255 -> In b allBytes.
Proof.
  intros Hb. unfold allBytes. apply in_map_iff. exists (Z.to_nat b).
  split; [lia|]. apply in_seq. lia.
Qed.

Module MulawProofs.
Import Mulaw.

Lemma decode_table_length : List.length MULAW_DECODE_TABLE = 256%nat.
Proof. reflexivity. Qed.

Lemma encode_zero : encodeMulawPcm 0 = 0xFF.
Proof. reflexivity. Qed.

Lemma encode_full_scale : encodeMulawPcm 32767 = 0x80 /\ encodeMulawPcm (-32768) = 0x00.
Proof. split; reflexivity. Qed.

(** The float front end: silence, full scale either way, a value that
    rounds up at the tie, and [NaN]. *)
Lemma encodeMulawSample_examples :
  encodeMulawSample 0%float = 0xFF /\
  encodeMulawSample 1%float = encodeMulawPcm 32767 /\
  encodeMulawSample 2%float = encodeMulawPcm 32767 /\
  encodeMulawSample (-1)%float = encodeMulawPcm (-32767) /\
  encodeMulawSample 0.5%float = encodeMulawPcm 16384 /\
  encodeMulawSample (-0.5)%float = encodeMulawPcm (-16383) /\
  encodeMulawSample PrimFloat.nan = 0xFF.
Proof. repeat split; vm_compute; reflexivity. Qed.

Lemma mulawToPcm_endpoints :
  mulawToPcm [0xFF; 0x00] = [0%float; (JS.ofZ (-32124) / JS.ofZ 32768)%float].
Proof. vm_compute. reflexivity. Qed.

Lemma round_trip_checked : allFrom roundTripWithinStep 16 (-32768) = true.
Proof. vm_compute. reflexivity. Qed.

Lemma encodeMulawPcm_range (pcm : Z) : 0 <= encodeMulawPcm pcm <= 255.
Proof.
  unfold encodeMulawPcm.
  destruct (segmentLoop 8 _ 7 0x4000) as [exponent mask].
  match goal with |- context [Z.land ?a 255] => generalize a end.
  intros a. change 255 with (Z.ones 8) at 1 2. rewrite Z.land_ones by lia.
  change (2 ^ 8) with 256. pose proof (Z.mod_pos_bound a 256). lia.
Qed.

(** [encodeMulawSample] on the sample that stands for the 16-bit value
    [x]: the rounded product with 32767 is [x] again (-32767 for -32768,
    which the clamp cuts to -1, and which has the same code). *)
Lemma front_end_checked :
  allFrom
    (fun x =>
       match JS.Math_round
               (JS.Math_max (JS.ofZ (-1)) (JS.Math_min (JS.ofZ 1) (JS.ofZ x / JS.ofZ 32767))
                * JS.ofZ 32767)%float with
       | JS.Finite pcm => pcm =? Z.max x (-32767)
       | _ => false
       end)
    16 (-32768) = true.
Proof. vm_compute. reflexivity. Qed.

Lemma encodeMulawSample_of_pcm (x : Z) :
  -32768 <= x <= 32767 ->
  encodeMulawSample (JS.ofZ x / JS.ofZ 32767)%float = encodeMulawPcm x.
Proof.
  intros Hx.
  assert (Hin : -32768 <= x < -32768 + 2 ^ Z.of_nat 16)
    by (change (2 ^ Z.of_nat 16) with 65536; lia).
  pose proof (allFrom_spec _ 16 (-32768) front_end_checked x Hin) as Hround.
  cbv beta in Hround.
  unfold encodeMulawSample. cbv zeta.
  destruct (JS.Math_round
              (JS.Math_max (JS.ofZ (-1)) (JS.Math_min (JS.ofZ 1) (JS.ofZ x / JS.ofZ 32767))
               * JS.ofZ 32767)%float) as [pcm| |negative];
    [|discriminate Hround|discriminate Hround].
  apply Z.eqb_eq in Hround. subst pcm.
  destruct (Z.eq_dec x (-32768)) as [->|Hne]; [reflexivity|].
  rewrite Z.max_l by lia. reflexivity.
Qed.

(** The samples of [mulawToPcm] are the table values over 32768 without
    any rounding: times 32768 they are the table values. *)
Lemma decode_exact_checked :
  map (fun byte => (decodeSample byte * JS.ofZ 32768)%float) allBytes
  = map (fun byte => JS.ofZ (decodeMulawByte byte)) allBytes.
Proof. vm_compute. reflexivity. Qed.

Lemma decodeSample_exact (byte : Z) :
  0 <= byte <= 255 -> (decodeSample byte * JS.ofZ 32768)%float = JS.ofZ (decodeMulawByte byte).
Proof.
  intros Hb.
  exact (proj1 map_ext_in_iff decode_exact_checked byte (allBytes_spec byte Hb)).
Qed.

(** C1. Decoding byte 0xFF gives PCM 0, decoding byte 0x00 gives PCM
    -32124: in the table, and as the samples 0 and -32124 / 32768 of
    [mulawToPcm].  For every 16-bit PCM sample [x] the decoded encoding
    of [x] lies within one quantisation step of [x], the step being the
    step width of the segment the encoder finds for [x]:
    - from the point where [encodeMulawSample] holds the 16-bit value;
    - through [encodeMulawSample] itself, given [x] as the sample
      [x / 32767];
    - through [pcmToMulaw] and [mulawToPcm]: the sample that comes back
      is [d / 32768], exactly, for a PCM value [d] within one step of
      [x]. *)
Theorem mulaw_round_trip :
  decodeMulawByte 0xFF = 0 /\
  decodeMulawByte 0x00 = -32124 /\
  mulawToPcm [0xFF; 0x00] = [0%float; (JS.ofZ (-32124) / JS.ofZ 32768)%float] /\
  forall x, -32768 <= x <= 32767 ->
    Z.abs (decodeMulawByte (encodeMulawPcm x) - x) <= stepWidth (segmentOf x) /\
    Z.abs (decodeMulawByte (encodeMulawSample (JS.ofZ x / JS.ofZ 32767)%float) - x)
      <= stepWidth (segmentOf x) /\
    exists d y,
      mulawToPcm (pcmToMulaw [(JS.ofZ x / JS.ofZ 32767)%float]) = [y] /\
      (y * JS.ofZ 32768)%float = JS.ofZ d /\
      Z.abs (d - x) <= stepWidth (segmentOf x).
Proof.
  split; [reflexivity|]. split; [reflexivity|]. split; [exact mulawToPcm_endpoints|].
  intros x Hx.
  assert (Hstep : Z.abs (decodeMulawByte (encodeMulawPcm x) - x) <= stepWidth (segmentOf x)).
  { apply Z.leb_le. change (roundTripWithinStep x = true).
    apply (allFrom_spec roundTripWithinStep 16 (-32768) round_trip_checked).
    change (2 ^ Z.of_nat 16) with 65536. lia. }
  split; [exact Hstep|].
  rewrite (encodeMulawSample_of_pcm x Hx).
  split; [exact Hstep|].
  exists (decodeMulawByte (encodeMulawPcm x)), (decodeSample (encodeMulawPcm x)).
  split; [|split; [|exact Hstep]].
  - unfold pcmToMulaw, mulawToPcm. cbn [map].
    rewrite (encodeMulawSample_of_pcm x Hx). reflexivity.
  - apply decodeSample_exact. apply encodeMulawPcm_range.
Qed.

Lemma mulaw_round_trip_witness :
  Z.abs (Mulaw.decodeMulawByte (Mulaw.encodeMulawPcm 1000) - 1000)
    <= Mulaw.stepWidth (Mulaw.segmentOf 1000) /\
  Z.abs (Mulaw.decodeMulawByte
           (Mulaw.encodeMulawSample (JS.ofZ 1000 / JS.ofZ 32767)%float) - 1000)
    <= Mulaw.stepWidth (Mulaw.segmentOf 1000) /\
  exists d y,
    Mulaw.mulawToPcm (Mulaw.pcmToMulaw [(JS.ofZ 1000 / JS.ofZ 32767)%float]) = [y] /\
    (y * JS.ofZ 32768)%float = JS.ofZ d /\
    Z.abs (d - 1000) <= Mulaw.stepWidth (Mulaw.segmentOf 1000).
Proof.
  destruct mulaw_round_trip as (_ & _ & _ & Hround).
  apply (Hround 1000). lia.
Defined.

End MulawProofs.

(** ** The frame buffer *)

Module TypedArrayFacts.
Import TypedArray.
Section Facts.
Context {A : Type}.
Implicit Types a s : list A.

Lemma len_nonneg a : 0 <= len a.
Proof. unfold len. lia. Qed.

Lemma len_app a s : len (a ++ s) = len a + len s.
Proof. unfold len. rewrite length_app. lia. Qed.

Lemma copyWithin_front a k :
  0 <= k <= len a ->
  copyWithin a 0 k = skipn (Z.to_nat k) a ++ skipn (Z.to_nat (len a - k)) a.
Proof.
  intros Hk. unfold copyWithin, clampIndex.
  pose proof (len_nonneg a) as Hl.
  replace (0 <? 0) with false by reflexivity.
  destruct (k <? 0) eqn:Hneg; [apply Z.ltb_lt in Hneg; lia|].
  rewrite (Z.min_l 0) by lia. rewrite (Z.min_l k) by lia.
  rewrite (Z.min_l (len a - k)) by lia.
  destruct (0 <? len a - k) eqn:Hc.
  - simpl. f_equal.
    + apply firstn_all2. rewrite length_skipn. unfold len. lia.
  - apply Z.ltb_ge in Hc. assert (k = len a) by lia. subst k.
    rewrite Z.sub_diag. simpl.
    rewrite skipn_all2 by (unfold len; lia). reflexivity.
Qed.

Lemma copyWithin_length a k :
  0 <= k <= len a -> len (copyWithin a 0 k) = len a.
Proof.
  intros Hk. rewrite copyWithin_front by assumption.
  unfold len in *. rewrite length_app, !length_skipn. lia.
Qed.

(** After the shift, the first [w - k] slots hold what slots [k .. w) held. *)
Lemma copyWithin_front_contents a k w :
  0 <= k <= w -> w <= len a ->
  firstn (Z.to_nat (w - k)) (copyWithin a 0 k)
  = skipn (Z.to_nat k) (firstn (Z.to_nat w) a).
Proof.
  intros Hk Hw. rewrite copyWithin_front by lia.
  rewrite firstn_app, length_skipn.
  replace (Z.to_nat (w - k) - (List.length a - Z.to_nat k))%nat with 0%nat
    by (unfold len in *; lia).
  rewrite firstn_O, app_nil_r.
  rewrite skipn_firstn_comm. f_equal. lia.
Qed.

Lemma slice_front a k :
  0 <= k <= len a -> slice a 0 k = firstn (Z.to_nat k) a.
Proof.
  intros Hk. unfold slice, clampIndex.
  replace (0 <? 0) with false by reflexivity.
  destruct (k <? 0) eqn:Hneg; [apply Z.ltb_lt in Hneg; lia|].
  rewrite (Z.min_l 0) by lia. rewrite (Z.min_l k) by lia.
  rewrite Z.sub_0_r, Z.max_l by lia. reflexivity.
Qed.

Lemma set_fits a s off :
  0 <= off -> off + len s <= len a ->
  set a s off
  = Returned (firstn (Z.to_nat off) a ++ s ++ skipn (Z.to_nat (off + len s)) a).
Proof.
  intros Hoff Hfit. unfold set.
  destruct (off <? 0) eqn:Hneg; [apply Z.ltb_lt in Hneg; lia|].
  destruct (len a <? len s + off) eqn:Hbig; [apply Z.ltb_lt in Hbig; lia|].
  reflexivity.
Qed.

Lemma set_negative_offset a s off :
  off < 0 -> set a s off = Thrown "RangeError: offset is out of bounds".
Proof.
  intros Hoff. unfold set.
  destruct (off <? 0) eqn:Hneg; [reflexivity|apply Z.ltb_ge in Hneg; lia].
Qed.

End Facts.
End TypedArrayFacts.

Module AudioBufferProofs.
Import TypedArray TypedArrayFacts AudioBuffer.
Section Proofs.
Context {A : Type}.
Implicit Types (b : AudioBuffer.t A) (samples : list A).

(** The first two parts of a three-part list. *)
Lemma firstn_two_parts (l s r : list A) (n : Z) :
  Z.of_nat (List.length l) + len s = n ->
  firstn (Z.to_nat n) (l ++ s ++ r) = l ++ s.
Proof.
  intros Hn. rewrite app_assoc, firstn_app.
  rewrite firstn_all2 by (rewrite length_app; unfold len in *; lia).
  replace (Z.to_nat n - List.length (l ++ s))%nat with 0%nat
    by (rewrite length_app; unfold len in *; lia).
  rewrite firstn_O. apply app_nil_r.
Qed.

Lemma contents_length b : wf b -> len (contents b) = writePosition b.
Proof.
  unfold wf, capacity, contents, len. intros Hwf.
  rewrite length_firstn. lia.
Qed.

(** A push that fits into the backing array returns, keeps the write
    position inside it, and leaves the old contents without their
    [excess] oldest samples, followed by the pushed samples. *)
Lemma push_fits b samples :
  wf b -> len samples <= capacity b ->
  exists b',
    push b samples = (b', Returned tt) /\
    wf b' /\
    frameSize b' = frameSize b /\
    capacity b' = capacity b /\
    writePosition b' = writePosition b + len samples - excess b (len samples) /\
    contents b'
    = skipn (Z.to_nat (excess b (len samples))) (contents b) ++ samples.
Proof.
  intros Hwf Hn. unfold wf, capacity in *.
  pose proof (len_nonneg samples) as Hs.
  unfold push, excess, capacity.
  destruct (len (buffer b) <? writePosition b + len samples) eqn:Hover.
  - apply Z.ltb_lt in Hover.
    set (overflow := writePosition b + len samples - len (buffer b)).
    assert (Hov : 0 < overflow <= writePosition b) by (unfold overflow; lia).
    cbn [buffer writePosition frameSize].
    assert (Hlen : len (copyWithin (buffer b) 0 overflow) = len (buffer b))
      by (apply copyWithin_length; lia).
    rewrite set_fits by lia.
    eexists. split; [reflexivity|].
    cbn [buffer writePosition frameSize contents].
    rewrite Z.max_r by (unfold overflow in Hov; lia). fold overflow.
    assert (Hcap : len (firstn (Z.to_nat (writePosition b - overflow))
                          (copyWithin (buffer b) 0 overflow)
                        ++ samples
                        ++ skipn (Z.to_nat (writePosition b - overflow + len samples))
                             (copyWithin (buffer b) 0 overflow))
                   = len (buffer b)).
    { unfold len in *. rewrite !length_app, length_firstn, length_skipn. lia. }
    split; [unfold capacity; cbn [buffer]; lia|].
    split; [reflexivity|]. split; [exact Hcap|]. split; [lia|].
    rewrite copyWithin_front_contents by lia.
    unfold contents. cbn [buffer writePosition].
    apply firstn_two_parts.
    rewrite length_skipn, length_firstn. unfold len in *. lia.
  - apply Z.ltb_ge in Hover.
    rewrite set_fits by lia.
    eexists. split; [reflexivity|].
    cbn [buffer writePosition frameSize contents].
    rewrite Z.max_l by lia.
    assert (Hcap : len (firstn (Z.to_nat (writePosition b)) (buffer b)
                        ++ samples
                        ++ skipn (Z.to_nat (writePosition b + len samples)) (buffer b))
                   = len (buffer b)).
    { unfold len in *. rewrite !length_app, length_firstn, length_skipn. lia. }
    split; [unfold capacity; cbn [buffer]; lia|].
    split; [reflexivity|]. split; [exact Hcap|]. split; [lia|].
    unfold contents. cbn [buffer writePosition skipn Z.to_nat].
    apply firstn_two_parts.
    rewrite length_firstn. unfold len in *. lia.
Qed.

(** A push longer than the whole backing array throws out of
    [this.buffer.set], after the write position has been moved below 0. *)
Lemma push_oversize b samples :
  wf b -> capacity b < len samples ->
  push b samples
  = (mk (copyWithin (buffer b) 0 (writePosition b + len samples - capacity b))
        (capacity b - len samples) (frameSize b),
     Thrown "RangeError: offset is out of bounds").
Proof.
  intros Hwf Hbig. unfold wf in Hwf. unfold push.
  destruct (capacity b <? writePosition b + len samples) eqn:Hover;
    [|apply Z.ltb_ge in Hover; lia].
  cbn [buffer writePosition frameSize].
  rewrite set_negative_offset by lia.
  f_equal. f_equal. lia.
Qed.

(** Reading a frame hands out the oldest [frameSize] samples and keeps
    the rest in order. *)
Lemma readFrame_some b :
  wf b -> 0 <= frameSize b <= writePosition b ->
  exists b',
    readFrame b = (b', Some (firstn (Z.to_nat (frameSize b)) (contents b))) /\
    wf b' /\
    frameSize b' = frameSize b /\
    capacity b' = capacity b /\
    writePosition b' = writePosition b - frameSize b /\
    contents b' = skipn (Z.to_nat (frameSize b)) (contents b).
Proof.
  intros Hwf Hf. unfold wf, capacity in *. unfold readFrame, hasFrame.
  destruct (frameSize b <=? writePosition b) eqn:Hhas;
    [|apply Z.leb_gt in Hhas; lia].
  cbn [negb]. eexists. split.
  - rewrite slice_front by lia. unfold contents.
    rewrite firstn_firstn. rewrite Nat.min_l by lia. reflexivity.
  - unfold capacity, contents. cbn [buffer writePosition frameSize].
    rewrite copyWithin_length by lia.
    split; [lia|]. split; [reflexivity|]. split; [reflexivity|].
    split; [reflexivity|].
    apply copyWithin_front_contents; lia.
Qed.

Lemma readFrame_none b :
  writePosition b < frameSize b -> readFrame b = (b, None).
Proof.
  intros Hlt. unfold readFrame, hasFrame.
  destruct (frameSize b <=? writePosition b) eqn:Hhas;
    [apply Z.leb_le in Hhas; lia|reflexivity].
Qed.

Lemma constructor_wf (zero : A) (f m : Z) b0 :
  constructor zero f m = Returned b0 ->
  wf b0 /\ writePosition b0 = 0 /\ frameSize b0 = f /\
  capacity b0 = f * m /\ contents b0 = [].
Proof.
  unfold constructor. destruct (f * m <? 0) eqn:Hneg; [discriminate|].
  apply Z.ltb_ge in Hneg. intros [= <-].
  unfold wf, capacity, contents, len. cbn [buffer writePosition frameSize].
  rewrite repeat_length. repeat split; try lia; reflexivity.
Qed.

(** Pushes that together fit behind the write position lose nothing. *)
Lemma pushAll_fits (chunks : list (list A)) :
  forall b, wf b ->
  writePosition b + len (concat chunks) <= capacity b ->
  exists b',
    pushAll b chunks = (b', Returned tt) /\
    wf b' /\ frameSize b' = frameSize b /\ capacity b' = capacity b /\
    contents b' = contents b ++ concat chunks.
Proof.
  induction chunks as [|c rest IH]; intros b Hwf Hfit.
  - exists b. cbn. rewrite app_nil_r. repeat split; auto; apply Hwf.
  - cbn [concat] in Hfit. rewrite len_app in Hfit.
    pose proof (len_nonneg c) as Hc.
    pose proof (len_nonneg (concat rest)) as Hr.
    destruct (push_fits b c Hwf) as (b1 & Hpush & Hwf1 & Hf1 & Hcap1 & Hwp1 & Hcont1).
    { unfold wf in Hwf. lia. }
    assert (Hex : excess b (len c) = 0) by (unfold excess; lia).
    rewrite Hex in Hwp1, Hcont1. cbn [Z.to_nat skipn] in Hcont1.
    destruct (IH b1 Hwf1) as (b2 & Hall & Hwf2 & Hf2 & Hcap2 & Hcont2).
    { lia. }
    exists b2. cbn [pushAll concat]. rewrite Hpush, Hall.
    repeat split; try apply Hwf2; try congruence.
    rewrite Hcont2, Hcont1. apply eq_sym, app_assoc.
Qed.

Lemma sliceAt_succ (f : Z) (data : list A) (i : nat) :
  sliceAt f data (S i) = sliceAt f (skipn (Z.to_nat f) data) i.
Proof.
  unfold sliceAt. rewrite skipn_skipn. do 2 f_equal. lia.
Qed.

(** [n] reads from a buffer that holds at least [n] frames hand out the
    first [n] slices of its contents, in order. *)
Lemma readFrames_slices (n : nat) :
  forall b, wf b -> 0 <= frameSize b ->
  Z.of_nat n * frameSize b <= writePosition b ->
  exists b',
    readFrames n b
    = (b', map (fun i => Some (sliceAt (frameSize b) (contents b) i)) (seq 0 n)) /\
    wf b' /\ frameSize b' = frameSize b /\
    writePosition b' = writePosition b - Z.of_nat n * frameSize b.
Proof.
  induction n as [|n IH]; intros b Hwf Hf Hhold.
  - exists b. cbn. repeat split; try apply Hwf. lia.
  - destruct (readFrame_some b Hwf) as (b1 & Hread & Hwf1 & Hf1 & _ & Hwp1 & Hcont1).
    { nia. }
    destruct (IH b1 Hwf1) as (b2 & Hrest & Hwf2 & Hf2 & Hwp2).
    { lia. }
    { rewrite Hf1, Hwp1. nia. }
    exists b2. cbn [readFrames]. rewrite Hread, Hrest.
    split; [|repeat split; try apply Hwf2; try congruence; nia].
    f_equal. cbn [seq map].
    change (sliceAt (frameSize b) (contents b) 0)
      with (firstn (Z.to_nat (frameSize b)) (contents b)).
    f_equal.
    rewrite <- seq_shift, map_map. apply map_ext. intros i.
    rewrite sliceAt_succ, Hf1, Hcont1. reflexivity.
Qed.

(** C7. After [n * frameSize] samples have been pushed (in one push or
    in several) into a fresh buffer that can hold them, [n] reads yield
    the consecutive slices of [frameSize] samples of the pushed data, in
    the order pushed; and [readFrame] answers [null] whenever fewer than
    [frameSize] samples are buffered. *)
Theorem frame_buffer_fifo (zero : A) (f m : Z) (n : nat)
    (chunks : list (list A)) (b0 : AudioBuffer.t A) :
  0 <= f ->
  constructor zero f m = Returned b0 ->
  len (concat chunks) = Z.of_nat n * f ->
  Z.of_nat n * f <= capacity b0 ->
  (exists b1 b2,
     pushAll b0 chunks = (b1, Returned tt) /\
     readFrames n b1
     = (b2, map (fun i => Some (sliceAt f (concat chunks) i)) (seq 0 n))) /\
  (forall b : AudioBuffer.t A,
     writePosition b < frameSize b -> readFrame b = (b, None)).
Proof.
  intros Hf Hnew Hlen Hcap. split; [|intros b; apply readFrame_none].
  destruct (constructor_wf zero f m b0 Hnew) as (Hwf0 & Hwp0 & Hf0 & _ & Hcont0).
  destruct (pushAll_fits chunks b0 Hwf0) as (b1 & Hpush & Hwf1 & Hf1 & Hcap1 & Hcont1).
  { lia. }
  rewrite Hcont0 in Hcont1. cbn [app] in Hcont1.
  pose proof (contents_length b1 Hwf1) as Hwp1. rewrite Hcont1 in Hwp1.
  destruct (readFrames_slices n b1 Hwf1) as (b2 & Hread & _).
  { lia. }
  { rewrite Hf1, Hf0. lia. }
  exists b1, b2. split; [exact Hpush|].
  rewrite Hread, Hcont1, Hf1, Hf0. reflexivity.
Qed.

End Proofs.

Lemma frame_buffer_fifo_witness :
  (exists b1 b2,
     pushAll (mk [0; 0; 0; 0; 0; 0] 0 2) [[1; 2; 3]; [4]] = (b1, Returned tt) /\
     readFrames 2 b1
     = (b2, map (fun i => Some (sliceAt 2 (concat [[1; 2; 3]; [4]]) i)) (seq 0 2))) /\
  (forall b : AudioBuffer.t Z,
     writePosition b < frameSize b -> readFrame b = (b, None)).
Proof.
  apply (frame_buffer_fifo 0 2 3 2 [[1; 2; 3]; [4]] (mk [0; 0; 0; 0; 0; 0] 0 2)).
  - lia.
  - reflexivity.
  - reflexivity.
  - vm_compute. discriminate.
Defined.

(** C2, at the input where the code departs from it: a buffer of one
    frame of two samples is pushed three samples.  The push throws out
    of [this.buffer.set], none of the three samples is stored, and the
    write position is left at -1, so that [sampleCount()] is -1 and every
    later push of up to three samples throws as well. *)
Theorem push_longer_than_capacity_throws :
  constructor 0 2 1 = Returned (mk [0; 0] 0 2) /\
  push (mk [0; 0] 0 2) [1; 2; 3]
  = (mk [0; 0] (-1) 2, Thrown "RangeError: offset is out of bounds") /\
  sampleCount (mk [0; 0] (-1) 2) = -1 /\
  push (mk [0; 0] (-1) 2) [4]
  = (mk [0; 0] (-1) 2, Thrown "RangeError: offset is out of bounds") /\
  push (mk [0; 0] (-1) 2) [4; 5; 6]
  = (mk [0; 0] (-1) 2, Thrown "RangeError: offset is out of bounds").
Proof. repeat split. Qed.

Section Bounded.
Context {A : Type}.
Implicit Types (b : AudioBuffer.t A) (samples : list A).

(** The part of C2 the code keeps: as long as no single push is longer
    than the capacity, every push returns, at most [capacity] samples are
    held, the oldest [excess] samples are the ones dropped, and
    [frameCount()] stays at or below [maxFrames]. *)
Lemma push_within_capacity (f m : Z) b samples :
  0 < f -> wf b -> frameSize b = f -> capacity b = f * m ->
  len samples <= capacity b ->
  exists b',
    push b samples = (b', Returned tt) /\
    wf b' /\ frameSize b' = f /\ capacity b' = f * m /\
    sampleCount b' <= f * m /\
    contents b'
    = skipn (Z.to_nat (excess b (len samples))) (contents b ++ samples) /\
    (exists k, frameCount b' = Some k /\ k <= m).
Proof.
  intros Hf Hwf Hfs Hcap Hn.
  destruct (push_fits b samples Hwf Hn) as (b' & Hpush & Hwf' & Hf' & Hcap' & Hwp' & Hcont').
  exists b'. split; [exact Hpush|]. split; [exact Hwf'|].
  split; [congruence|]. split; [congruence|].
  unfold wf in Hwf'. unfold sampleCount. split; [lia|]. split.
  - rewrite Hcont'. rewrite skipn_app.
    pose proof (contents_length b Hwf) as Hlen. unfold len in Hlen.
    replace (Z.to_nat (excess b (len samples)) - List.length (contents b))%nat
      with 0%nat; [reflexivity|].
    unfold excess. unfold wf in Hwf. lia.
  - unfold frameCount. rewrite Hf', Hfs.
    destruct (f =? 0) eqn:Hz; [apply Z.eqb_eq in Hz; lia|].
    eexists. split; [reflexivity|].
    apply Z.div_le_upper_bound; lia.
Qed.

End Bounded.
End AudioBufferProofs.

(** ** The resampler *)

Module ResamplerProofs.
Import JS Resampler.

Lemma typedArrayLength_nonneg (l : integral) (n : Z) :
  typedArrayLength l = Returned n -> 0 <= n.
Proof.
  destruct l as [z| |s]; unfold typedArrayLength; try discriminate.
  - destruct ((z <? 0) || (2 ^ 53 - 1 <? z))%bool eqn:Hbad; [discriminate|].
    intros [= <-]. apply orb_false_elim in Hbad. destruct Hbad as [Hneg _].
    now apply Z.ltb_ge in Hneg.
  - intros [= <-]. lia.
Qed.

(** The outer loop of [process] fills at most the slots it is given. *)
Lemma fill_length (slots fuel : nat) (input : list float) (ratio : float) :
  forall position inputIndex output position' output',
  fill slots fuel input ratio position inputIndex output = Some (position', output') ->
  (length output' <= length output + slots)%nat.
Proof.
  induction slots as [|slots IH]; intros position inputIndex output position' output';
    cbn [fill].
  - intros [= _ <-]. lia.
  - destruct (inputIndex <? Z.of_nat (length input)).
    + destruct (advance fuel (position + ratio)%float inputIndex) as [[p i]|];
        [|discriminate].
      intros Hfill. apply IH in Hfill. rewrite length_app in Hfill. cbn in Hfill. lia.
    + intros [= _ <-]. lia.
Qed.

Lemma telephony_up_checked : allFrom (lengthIsExact 8000 24000) 13 0 = true.
Proof. vm_compute. reflexivity. Qed.

Lemma telephony_down_checked : allFrom (lengthIsExact 24000 8000) 13 0 = true.
Proof. vm_compute. reflexivity. Qed.

Lemma lengthIsExact_spec (from to length : Z) :
  lengthIsExact from to length = true ->
  resampleLength length (ofZ from) (ofZ to) = Returned (exactLength length from to).
Proof.
  unfold lengthIsExact.
  destruct (resampleLength length (ofZ from) (ofZ to)) as [n|e]; [|discriminate].
  intros H. apply Z.eqb_eq in H. now subst.
Qed.

(** *** The length of [resample], and of [process] at the rates of the bridge *)

Lemma resample_allocated (audio : list float) (fromRate toRate : float) (n : Z) :
  resampleLength (Z.of_nat (length audio)) fromRate toRate = Returned n ->
  exists out, resample audio fromRate toRate = Returned out /\ Z.of_nat (length out) = n.
Proof.
  unfold resampleLength, resample.
  destruct (PrimFloat.eqb fromRate toRate).
  - intros [= <-]. exists audio. split; reflexivity.
  - intros Hlen. rewrite Hlen. eexists. split; [reflexivity|].
    rewrite length_map, length_seq.
    apply typedArrayLength_nonneg in Hlen. lia.
Qed.

Lemma telephony_exact (len : Z) :
  0 <= len < 8192 ->
  resampleLength len (ofZ 8000) (ofZ 24000) = Returned (exactLength len 8000 24000) /\
  resampleLength len (ofZ 24000) (ofZ 8000) = Returned (exactLength len 24000 8000).
Proof.
  intros Hlen. split; apply lengthIsExact_spec.
  - apply (allFrom_spec _ 13 0 telephony_up_checked).
    change (2 ^ Z.of_nat 13) with 8192. lia.
  - apply (allFrom_spec _ 13 0 telephony_down_checked).
    change (2 ^ Z.of_nat 13) with 8192. lia.
Qed.

(** Rates from 1 to 32 and lengths below 32, one by one. *)
Lemma grid_checked :
  allFrom (fun from => allFrom (fun to => allFrom (lengthWithinOne from to) 5 0) 5 1) 5 1
  = true.
Proof. vm_compute. reflexivity. Qed.

Lemma lengthWithinOne_grid (from to len : Z) :
  1 <= from <= 32 -> 1 <= to <= 32 -> 0 <= len < 32 -> lengthWithinOne from to len = true.
Proof.
  intros Hfrom Hto Hlen.
  assert (H32 : 2 ^ Z.of_nat 5 = 32) by reflexivity.
  apply (allFrom_spec (lengthWithinOne from to) 5 0); [|lia].
  apply (allFrom_spec (fun to => allFrom (lengthWithinOne from to) 5 0) 5 1); [|lia].
  apply (allFrom_spec
           (fun from => allFrom (fun to => allFrom (lengthWithinOne from to) 5 0) 5 1) 5 1
           grid_checked); lia.
Qed.

Section Streaming.
Local Open Scope float_scope.

Lemma advance_stop (fuel : nat) (position : float) (inputIndex : Z) :
  (1 <=? position) = false -> advance fuel position inputIndex = Some (position, inputIndex).
Proof. intros H. destruct fuel; cbn [advance]; rewrite H; reflexivity. Qed.

Lemma advance_step (fuel : nat) (position : float) (inputIndex : Z) :
  (1 <=? position) = true ->
  advance (S fuel) position inputIndex = advance fuel (position - 1) (inputIndex + 1)%Z.
Proof. intros H. cbn [advance]. rewrite H. reflexivity. Qed.

(** One turn of the outer loop of [process]. *)
Lemma fill_step (slots fuel : nat) (input : list float) (ratio position position' : float)
    (inputIndex inputIndex' : Z) (output : list float) :
  (inputIndex < Z.of_nat (length input))%Z ->
  advance fuel (position + ratio) inputIndex = Some (position', inputIndex') ->
  exists sample,
    fill (S slots) fuel input ratio position inputIndex output
    = fill slots fuel input ratio position' inputIndex' (output ++ [sample]).
Proof.
  intros Hlt Hadv. cbn [fill].
  apply Z.ltb_lt in Hlt. rewrite Hlt, Hadv. eexists. reflexivity.
Qed.

(** From 8000 to 24000: the ratio is the double nearest to 1/3, and
    three steps of it from 0 make 1, without a rounding error left. *)
Lemma third_steps :
  let ratio := ofZ 8000 / ofZ 24000 in
  (1 <=? 0 + ratio) = false /\
  (1 <=? 0 + ratio + ratio) = false /\
  (1 <=? 0 + ratio + ratio + ratio) = true /\
  (1 <=? 0 + ratio + ratio + ratio - 1) = false /\
  0 + ratio + ratio + ratio - 1 = 0.
Proof. vm_compute. repeat split. Qed.

(** From 24000 to 8000: the ratio is 3. *)
Lemma three_steps :
  let ratio := ofZ 24000 / ofZ 8000 in
  (1 <=? 0 + ratio) = true /\
  (1 <=? 0 + ratio - 1) = true /\
  (1 <=? 0 + ratio - 1 - 1) = true /\
  (1 <=? 0 + ratio - 1 - 1 - 1) = false /\
  0 + ratio - 1 - 1 - 1 = 0.
Proof. vm_compute. repeat split. Qed.

(** Up: each input sample gives three output samples, and the position
    is 0 again. *)
Lemma up_round (slots fuel : nat) (input : list float) (i : Z) (output : list float) :
  (0 < fuel)%nat -> (i < Z.of_nat (length input))%Z ->
  exists s1 s2 s3,
    fill (S (S (S slots))) fuel input (ofZ 8000 / ofZ 24000) 0 i output
    = fill slots fuel input (ofZ 8000 / ofZ 24000) 0 (i + 1)%Z (output ++ [s1; s2; s3]).
Proof.
  intros Hfuel Hi.
  destruct third_steps as (H1 & H2 & H3 & H4 & H5).
  set (ratio := ofZ 8000 / ofZ 24000) in *.
  destruct fuel as [|fuel]; [lia|].
  destruct (fill_step (S (S slots)) (S fuel) input ratio 0 (0 + ratio) i i output Hi
              (advance_stop (S fuel) (0 + ratio) i H1)) as (s1 & ->).
  destruct (fill_step (S slots) (S fuel) input ratio (0 + ratio) (0 + ratio + ratio) i i
              (output ++ [s1]) Hi (advance_stop (S fuel) (0 + ratio + ratio) i H2))
    as (s2 & ->).
  assert (Hadv : advance (S fuel) (0 + ratio + ratio + ratio) i = Some (0, (i + 1)%Z)).
  { rewrite (advance_step fuel (0 + ratio + ratio + ratio) i H3),
      (advance_stop fuel (0 + ratio + ratio + ratio - 1) (i + 1) H4), H5.
    reflexivity. }
  destruct (fill_step slots (S fuel) input ratio (0 + ratio + ratio) 0 i (i + 1)
              ((output ++ [s1]) ++ [s2]) Hi Hadv) as (s3 & ->).
  exists s1, s2, s3. rewrite <- !app_assoc. reflexivity.
Qed.

Lemma up_rounds (fuel : nat) (input : list float) (k : nat) :
  (0 < fuel)%nat ->
  forall i output,
  (i + Z.of_nat k <= Z.of_nat (length input))%Z ->
  exists out,
    fill (3 * k) fuel input (ofZ 8000 / ofZ 24000) 0 i output = Some (0, out) /\
    length out = (length output + 3 * k)%nat.
Proof.
  intros Hfuel. induction k as [|k IH]; intros i output Hi.
  - exists output. split; [reflexivity|lia].
  - replace (3 * S k)%nat with (S (S (S (3 * k)))) by lia.
    destruct (up_round (3 * k) fuel input i output Hfuel) as (s1 & s2 & s3 & ->); [lia|].
    destruct (IH (i + 1)%Z (output ++ [s1; s2; s3])) as (out & -> & Hlen); [lia|].
    exists out. split; [reflexivity|]. rewrite Hlen, length_app. cbn [length]. lia.
Qed.

(** Down: each output sample takes three input samples, and the position
    is 0 again. *)
Lemma down_round (slots fuel : nat) (input : list float) (i : Z) (output : list float) :
  (3 <= fuel)%nat -> (i < Z.of_nat (length input))%Z ->
  exists s,
    fill (S slots) fuel input (ofZ 24000 / ofZ 8000) 0 i output
    = fill slots fuel input (ofZ 24000 / ofZ 8000) 0 (i + 3)%Z (output ++ [s]).
Proof.
  intros Hfuel Hi.
  destruct three_steps as (H1 & H2 & H3 & H4 & H5).
  set (ratio := ofZ 24000 / ofZ 8000) in *.
  destruct fuel as [|[|[|fuel]]]; try lia.
  assert (Hadv : advance (S (S (S fuel))) (0 + ratio) i = Some (0, (i + 3)%Z)).
  { rewrite (advance_step (S (S fuel)) (0 + ratio) i H1),
      (advance_step (S fuel) (0 + ratio - 1) (i + 1) H2),
      (advance_step fuel (0 + ratio - 1 - 1) (i + 1 + 1) H3),
      (advance_stop fuel (0 + ratio - 1 - 1 - 1) (i + 1 + 1 + 1) H4), H5.
    do 2 f_equal. lia. }
  exact (fill_step slots (S (S (S fuel))) input ratio 0 0 i (i + 3) output Hi Hadv).
Qed.

Lemma down_rounds (fuel : nat) (input : list float) (slots : nat) :
  (3 <= fuel)%nat ->
  forall i output,
  (slots = 0%nat \/ i + 3 * (Z.of_nat slots - 1) < Z.of_nat (length input))%Z ->
  (0 <= i)%Z ->
  exists out,
    fill slots fuel input (ofZ 24000 / ofZ 8000) 0 i output = Some (0, out) /\
    length out = (length output + slots)%nat.
Proof.
  intros Hfuel. induction slots as [|slots IH]; intros i output Hi Hpos.
  - exists output. split; [reflexivity|lia].
  - destruct (down_round slots fuel input i output Hfuel) as (s & ->); [lia|].
    destruct (IH (i + 3)%Z (output ++ [s])) as (out & -> & Hlen); [lia|lia|].
    exists out. split; [reflexivity|]. rewrite Hlen, length_app. cbn [length]. lia.
Qed.

Lemma exactLength_up (n : Z) : exactLength n 8000 24000 = (3 * n)%Z.
Proof.
  unfold exactLength. replace (- (n * 24000))%Z with ((- (3 * n)) * 8000)%Z by lia.
  rewrite Z.div_mul by lia. lia.
Qed.

Lemma exactLength_down (n : Z) :
  (0 <= n)%Z ->
  (0 <= exactLength n 24000 8000 /\
   (exactLength n 24000 8000 = 0 \/ 3 * (exactLength n 24000 8000 - 1) < n))%Z.
Proof.
  intros Hn. unfold exactLength.
  pose proof (Z.div_mod (- (n * 8000)) 24000 ltac:(lia)) as Hdiv.
  pose proof (Z.mod_pos_bound (- (n * 8000)) 24000 ltac:(lia)) as Hmod.
  lia.
Qed.

Lemma telephony_length (from to n : Z) :
  lengthIsExact from to n = true -> (ofZ from =? ofZ to) = false ->
  typedArrayLength (Math_ceil (ofZ n / (ofZ from / ofZ to)))
  = Returned (exactLength n from to).
Proof.
  intros Hexact Hrates. apply lengthIsExact_spec in Hexact.
  unfold resampleLength in Hexact. rewrite Hrates in Hexact. exact Hexact.
Qed.

Lemma process_up (fuel : nat) (input : list float) :
  (0 < fuel)%nat -> (Z.of_nat (length input) < 8192)%Z ->
  exists out,
    process fuel (createResampler (ofZ 8000) (ofZ 24000)) input
    = Some (createResampler (ofZ 8000) (ofZ 24000), Returned out) /\
    Z.of_nat (length out) = exactLength (Z.of_nat (length input)) 8000 24000.
Proof.
  intros Hfuel Hlen. unfold process, createResampler.
  cbn [fromRate toRate ratio fractionalPosition].
  assert (Hrates : (ofZ 8000 =? ofZ 24000) = false) by (vm_compute; reflexivity).
  rewrite Hrates.
  rewrite (telephony_length 8000 24000 (Z.of_nat (length input)));
    [|apply (allFrom_spec _ 13 0 telephony_up_checked);
      change (2 ^ Z.of_nat 13)%Z with 8192%Z; lia|exact Hrates].
  rewrite exactLength_up.
  replace (Z.to_nat (3 * Z.of_nat (length input))) with (3 * length input)%nat by lia.
  destruct (up_rounds fuel input (length input) Hfuel 0%Z []) as (out & -> & Hout); [lia|].
  exists out. split; [reflexivity|]. cbn [length] in Hout. lia.
Qed.

Lemma process_down (fuel : nat) (input : list float) :
  (3 <= fuel)%nat -> (Z.of_nat (length input) < 8192)%Z ->
  exists out,
    process fuel (createResampler (ofZ 24000) (ofZ 8000)) input
    = Some (createResampler (ofZ 24000) (ofZ 8000), Returned out) /\
    Z.of_nat (length out) = exactLength (Z.of_nat (length input)) 24000 8000.
Proof.
  intros Hfuel Hlen. unfold process, createResampler.
  cbn [fromRate toRate ratio fractionalPosition].
  assert (Hrates : (ofZ 24000 =? ofZ 8000) = false) by (vm_compute; reflexivity).
  rewrite Hrates.
  rewrite (telephony_length 24000 8000 (Z.of_nat (length input)));
    [|apply (allFrom_spec _ 13 0 telephony_down_checked);
      change (2 ^ Z.of_nat 13)%Z with 8192%Z; lia|exact Hrates].
  destruct (exactLength_down (Z.of_nat (length input))) as [Hpos Hlast]; [lia|].
  destruct (down_rounds fuel input (Z.to_nat (exactLength (Z.of_nat (length input)) 24000 8000))
              Hfuel 0%Z []) as (out & -> & Hout); [lia|lia|].
  exists out. split; [reflexivity|]. cbn [length] in Hout. lia.
Qed.

End Streaming.

(** C6, as the code has it.
    - [resample] returns an array of exactly the length it allocates:
      the input length when the rates are equal, else
      [Math.ceil(length / (fromRate / toRate))] computed on doubles;
    - for the rates of the bridge, 8000 to 24000 and 24000 to 8000, and
      inputs of fewer than 8192 samples that length is the exact
      [ceil(length * to / from)];
    - a call of [process] that returns, returns at most as many samples
      as [Math.ceil(length / ratio)] computed on doubles;
    - so [resampleToPersonaPlex] and [resampleToTwilio] return exactly
      [ceil(length * to / from)] samples for fewer than 8192 samples;
    - for whole rates from 1 to 32 and fewer than 32 samples [resample]
      returns [ceil(length * to / from)] samples, or one more or less;
    - a resampler made by [createResampler] for the rates of the bridge,
      given fewer than 8192 samples, returns from [process] with exactly
      [ceil(length * to / from)] samples, and is then as [createResampler]
      made it: so does every later call, and no rounding error is carried
      from one call to the next. *)
Theorem resample_length :
  (forall audio fromRate toRate n,
     resampleLength (Z.of_nat (length audio)) fromRate toRate = Returned n ->
     exists out,
       resample audio fromRate toRate = Returned out /\ Z.of_nat (length out) = n) /\
  (forall len, 0 <= len < 8192 ->
     resampleLength len (ofZ 8000) (ofZ 24000) = Returned (exactLength len 8000 24000) /\
     resampleLength len (ofZ 24000) (ofZ 8000) = Returned (exactLength len 24000 8000)) /\
  (forall fuel r input r' out,
     PrimFloat.eqb (fromRate r) (toRate r) = false ->
     process fuel r input = Some (r', Returned out) ->
     exists n,
       typedArrayLength (Math_ceil (ofZ (Z.of_nat (length input)) / ratio r)%float)
       = Returned n /\
       Z.of_nat (length out) <= n) /\
  (forall audio, Z.of_nat (length audio) < 8192 ->
     (exists out,
        resampleToPersonaPlex audio = Returned out /\
        Z.of_nat (length out) = exactLength (Z.of_nat (length audio)) 8000 24000) /\
     (exists out,
        resampleToTwilio audio = Returned out /\
        Z.of_nat (length out) = exactLength (Z.of_nat (length audio)) 24000 8000)) /\
  (forall audio from to,
     1 <= from <= 32 -> 1 <= to <= 32 -> Z.of_nat (length audio) < 32 ->
     exists out,
       resample audio (ofZ from) (ofZ to) = Returned out /\
       Z.abs (Z.of_nat (length out) - exactLength (Z.of_nat (length audio)) from to) <= 1) /\
  (forall fuel input, (3 <= fuel)%nat -> Z.of_nat (length input) < 8192 ->
     (exists out,
        process fuel (createResampler (ofZ 8000) (ofZ 24000)) input
        = Some (createResampler (ofZ 8000) (ofZ 24000), Returned out) /\
        Z.of_nat (length out) = exactLength (Z.of_nat (length input)) 8000 24000) /\
     (exists out,
        process fuel (createResampler (ofZ 24000) (ofZ 8000)) input
        = Some (createResampler (ofZ 24000) (ofZ 8000), Returned out) /\
        Z.of_nat (length out) = exactLength (Z.of_nat (length input)) 24000 8000)).
Proof.
  split; [|split; [|split; [|split; [|split]]]].
  - exact resample_allocated.
  - exact telephony_exact.
  - intros fuel r input r' out Hrates. unfold process. rewrite Hrates.
    destruct (typedArrayLength
                (Math_ceil (ofZ (Z.of_nat (length input)) / ratio r)%float))
      as [n|e] eqn:Hlen; [|discriminate].
    destruct (fill (Z.to_nat n) fuel input (ratio r) (fractionalPosition r) 0 [])
      as [[position output]|] eqn:Hfill; [|discriminate].
    intros [= _ <-]. exists n. split; [reflexivity|].
    apply fill_length in Hfill. cbn [length] in Hfill.
    apply typedArrayLength_nonneg in Hlen. lia.
  - intros audio Hlen.
    destruct (telephony_exact (Z.of_nat (length audio))) as [Hup Hdown]; [lia|].
    split; apply resample_allocated; assumption.
  - intros audio from to Hfrom Hto Hlen.
    pose proof (lengthWithinOne_grid from to (Z.of_nat (length audio)) Hfrom Hto) as Hgrid.
    unfold lengthWithinOne in Hgrid.
    destruct (resampleLength (Z.of_nat (length audio)) (ofZ from) (ofZ to)) as [n|e] eqn:Hn.
    + destruct (resample_allocated audio (ofZ from) (ofZ to) n Hn) as (out & Hout & Hlength).
      exists out. split; [exact Hout|]. rewrite Hlength. apply Z.leb_le. apply Hgrid. lia.
    + assert (Hfalse : false = true) by (apply Hgrid; lia). discriminate Hfalse.
  - intros fuel input Hfuel Hlen. split.
    + apply process_up; [lia|exact Hlen].
    + apply process_down; [exact Hfuel|exact Hlen].
Qed.

Lemma resample_length_witness :
  let audio := [0.5%float; 1%float; 0.25%float; 0%float] in
  (exists out,
     resample audio (ofZ 8000) (ofZ 24000) = Returned out /\ Z.of_nat (length out) = 12) /\
  (exists out, resampleToTwilio audio = Returned out /\ Z.of_nat (length out) = 2) /\
  (exists out,
     resample audio (ofZ 3) (ofZ 7) = Returned out /\
     Z.abs (Z.of_nat (length out) - exactLength 4 3 7) <= 1) /\
  (exists out,
     process 3 (createResampler (ofZ 8000) (ofZ 24000)) audio
     = Some (createResampler (ofZ 8000) (ofZ 24000), Returned out) /\
     Z.of_nat (length out) = 12) /\
  (exists out,
     process 3 (createResampler (ofZ 24000) (ofZ 8000)) audio
     = Some (createResampler (ofZ 24000) (ofZ 8000), Returned out) /\
     Z.of_nat (length out) = 2).
Proof.
  intros audio.
  destruct resample_length as (Hallocated & _ & _ & Htelephony & Hgrid & Hstream).
  assert (Hlen : Z.of_nat (length audio) < 8192) by (cbn; lia).
  split; [|split; [|split; [|split]]].
  - apply (Hallocated audio (ofZ 8000) (ofZ 24000) 12). vm_compute. reflexivity.
  - exact (proj2 (Htelephony audio Hlen)).
  - apply (Hgrid audio 3 7); cbn; lia.
  - exact (proj1 (Hstream 3%nat audio (le_n 3) Hlen)).
  - exact (proj2 (Hstream 3%nat audio (le_n 3) Hlen)).
Defined.

(** C6 as the specification words it fails on doubles.  One sample from
    rate 1 to rate 49: the quotient [1 / (1 / 49)] is a little above 49,
    and [resample] returns 50 samples, not [ceil(1 * 49 / 1) = 49].  A
    streaming resampler from rate 1 to rate 6, fed one sample twice: the
    first call returns 6 samples and leaves a position just below 1; the
    second call returns 1 sample, not [6 - 1] or more. *)
Lemma resample_length_not_exact :
  (exists out,
     resample [0.5%float] (ofZ 1) (ofZ 49) = Returned out /\
     length out = 50%nat /\ exactLength 1 1 49 = 49) /\
  (exists r1 out1 r2 out2,
     process 1 (createResampler (ofZ 1) (ofZ 6)) [0.5%float] = Some (r1, Returned out1) /\
     process 1 r1 [0.5%float] = Some (r2, Returned out2) /\
     length out1 = 6%nat /\ length out2 = 1%nat /\ exactLength 1 1 6 = 6).
Proof.
  split.
  - eexists. split; [vm_compute; reflexivity|]. split; reflexivity.
  - do 4 eexists. split; [vm_compute; reflexivity|].
    split; [vm_compute; reflexivity|]. repeat split.
Qed.

(** The same drift at rates the bridge could be given: from 8000 to
    48000 in chunks of 160 samples the exact length is 960; the second
    call returns 955 samples. *)
Lemma streaming_drift_8000_48000 :
  let chunk := repeat 0.5%float 160 in
  exists r1 out1 r2 out2,
    process 2 (createResampler (ofZ 8000) (ofZ 48000)) chunk = Some (r1, Returned out1) /\
    process 2 r1 chunk = Some (r2, Returned out2) /\
    exactLength 160 8000 48000 = 960 /\
    (Z.of_nat (length out1), Z.of_nat (length out2)) = (960, 955).
Proof.
  intros chunk. do 4 eexists.
  split; [vm_compute; reflexivity|]. split; [vm_compute; reflexivity|].
  split; vm_compute; reflexivity.
Qed.

End ResamplerProofs.

(** ** The engine client *)

Module ClientProofs.
Import Protocol Client.

Lemma nth_error_snoc {A : Type} (l : list A) (x : A) :
  nth_error (l ++ [x]) (length l) = Some x.
Proof. rewrite nth_error_app2, Nat.sub_diag by lia. reflexivity. Qed.

Lemma replaceNth_snoc {A : Type} (l : list A) (x y : A) :
  replaceNth (length l) y (l ++ [x]) = l ++ [y].
Proof. induction l as [|a l IH]; cbn; [reflexivity|now rewrite IH]. Qed.

Lemma nth_error_repeat_snoc {A : Type} (x y : A) (n : nat) :
  nth_error (repeat x n ++ [y]) n = Some y.
Proof.
  rewrite <- (repeat_length x n) at 2. apply nth_error_snoc.
Qed.

Lemma replaceNth_repeat_snoc {A : Type} (x y z : A) (n : nat) :
  replaceNth n z (repeat x n ++ [y]) = repeat x n ++ [z].
Proof.
  rewrite <- (repeat_length x n) at 1. apply replaceNth_snoc.
Qed.

Lemma repeat_snoc {A : Type} (x : A) (n : nat) :
  repeat x n ++ [x] = repeat x (S n).
Proof. rewrite <- repeat_cons. reflexivity. Qed.

Lemma run_app (es1 es2 : list Event) :
  forall c, run c (es1 ++ es2)
            = match run c es1 with Some c' => run c' es2 | None => None end.
Proof.
  induction es1 as [|e es1 IH]; intros c; cbn; [reflexivity|].
  destruct (step c e); [apply IH|reflexivity].
Qed.

(** Evaluate field updates and reads, and nothing else. *)
Ltac client_simpl :=
  cbn [options ws reconnectAttempts isConnecting isReady shouldReconnect
       sockets timers promises emitted
       settle setTimeout emit set_ws set_reconnectAttempts set_isConnecting
       set_isReady set_shouldReconnect set_sockets set_timers set_promises
       negb andb orb app nth_error replaceNth removeNth fst snd length
       readyState sent received flow closeWaiters isOpen option_map].

Section UnreachableServer.
Variable o : Options.
Hypothesis valid : validUrl o = true.

Lemma connect_fresh : step (constructor o) CallConnect = Some (attempting o 0).
Proof.
  unfold step, connect, wsIsOpen, socketState, constructor, connectInternal.
  client_simpl. rewrite valid. reflexivity.
Qed.

(** The socket of attempt [j] closes although retries are left. *)
Lemma close_schedules_retry (j : nat) :
  Z.of_nat j < maxReconnectAttempts o ->
  step (attempting o j) (SocketClose j 1006 None) = Some (retrying o (S j)).
Proof.
  intros Hleft. unfold step, attempting. cbn [sockets].
  rewrite nth_error_repeat_snoc, replaceNth_repeat_snoc.
  unfold onClose. client_simpl.
  apply Z.ltb_lt in Hleft. rewrite Hleft. client_simpl.
  unfold retrying, retryDelay.
  fold closedSocket. rewrite repeat_snoc.
  replace (Z.of_nat j + 1) with (Z.of_nat (S j)) by lia.
  reflexivity.
Qed.

(** The socket of attempt [j] closes and no retry is left. *)
Lemma close_exhausts (j : nat) :
  maxReconnectAttempts o <= Z.of_nat j ->
  step (attempting o j) (SocketClose j 1006 None) = Some (exhausted o j).
Proof.
  intros Hnone. unfold step, attempting. cbn [sockets].
  rewrite nth_error_repeat_snoc, replaceNth_repeat_snoc.
  unfold onClose. client_simpl.
  apply Z.ltb_ge in Hnone. rewrite Hnone. client_simpl.
  unfold exhausted.
  fold closedSocket. rewrite repeat_snoc. reflexivity.
Qed.

Lemma retry_fires (j : nat) :
  step (retrying o j) (TimerFire 0) = Some (attempting o j).
Proof.
  unfold step, retrying, connectInternal. client_simpl.
  rewrite valid. client_simpl.
  unfold attempting. rewrite repeat_length. reflexivity.
Qed.

(** [m + 1] closes in a row, starting while attempt [j] is under way. *)
Lemma closes_run (m : nat) :
  forall j,
  run (attempting o j) (closes (S m) j)
  = Some (if Z.of_nat (j + m) <? maxReconnectAttempts o
          then retrying o (S (j + m))
          else exhausted o (j + m))
  \/ exists k, (k < j + m)%nat /\ maxReconnectAttempts o <= Z.of_nat k.
Proof.
  induction m as [|m IH]; intros j.
  - left. rewrite Nat.add_0_r. cbn [closes run].
    destruct (Z.of_nat j <? maxReconnectAttempts o) eqn:Hlt.
    + apply Z.ltb_lt in Hlt. rewrite close_schedules_retry by assumption. reflexivity.
    + apply Z.ltb_ge in Hlt. rewrite close_exhausts by assumption. reflexivity.
  - destruct (Z_lt_ge_dec (Z.of_nat j) (maxReconnectAttempts o)) as [Hlt|Hge].
    + change (closes (S (S m)) j)
        with (SocketClose j 1006 None :: TimerFire 0 :: closes (S m) (S j)).
      cbn [run]. rewrite close_schedules_retry by assumption.
      rewrite retry_fires.
      destruct (IH (S j)) as [Hrun|(k & Hk & Hmax)].
      * left. rewrite Hrun. replace (S j + m)%nat with (j + S m)%nat by lia.
        reflexivity.
      * right. exists k. split; [lia|assumption].
    + right. exists j. split; [lia|lia].
Qed.

End UnreachableServer.

(** While retries are left the promise of [connect()] stays pending and
    one retry is armed. *)
Lemma unreachable_retrying (o : Options) (k : nat) :
  validUrl o = true -> (0 < k)%nat -> Z.of_nat k <= maxReconnectAttempts o ->
  run (constructor o) (unreachableServer k) = Some (retrying o k).
Proof.
  intros Hvalid Hk Hmax. destruct k as [|m]; [lia|].
  unfold unreachableServer. cbn [run]. rewrite connect_fresh by assumption.
  destruct (closes_run o Hvalid m 0) as [Hrun|(j & Hj & Hle)]; [|lia].
  rewrite Hrun. cbn [Nat.add].
  destruct (Z.of_nat m <? maxReconnectAttempts o) eqn:Hlt;
    [reflexivity|apply Z.ltb_ge in Hlt; lia].
Qed.

(** C3, as the code has it.  With [maxReconnectAttempts = n >= 0] and a
    server that cannot be reached (every socket closes without having
    opened), the first [n] closes each arm a retry and leave the promise
    of [connect()] pending; close number [n + 1] rejects it with an error
    that names [n] as the attempt count, arms no timer and leaves no
    socket open, so that nothing but a new call can happen to the client. *)
Theorem reconnect_exhaustion (o : Options) (n : nat) :
  validUrl o = true ->
  maxReconnectAttempts o = Z.of_nat n ->
  (forall k, (0 < k <= n)%nat ->
     run (constructor o) (unreachableServer k) = Some (retrying o k)) /\
  exists c,
    run (constructor o) (unreachableServer (S n)) = Some c /\
    promises c
    = [Rejected ("Failed to connect after " ++ string_of_Z (Z.of_nat n)
                   ++ " attempts: Connection closed")] /\
    timers c = [] /\
    isConnecting c = false /\
    forall e, isCall e = false -> step c e = None.
Proof.
  intros Hvalid Hmax. split.
  - intros k Hk. apply unreachable_retrying; [assumption|lia|lia].
  - exists (exhausted o n). split; [|split; [reflexivity|split; [reflexivity|split; [reflexivity|]]]].
    + unfold unreachableServer. cbn [run]. rewrite connect_fresh by assumption.
      destruct (closes_run o Hvalid n 0) as [Hrun|(j & Hj & Hle)]; [|lia].
      rewrite Hrun. cbn [Nat.add].
      destruct (Z.of_nat n <? maxReconnectAttempts o) eqn:Hlt;
        [apply Z.ltb_lt in Hlt; lia|reflexivity].
    + intros e Hcall.
      assert (Hsock : forall s,
                 nth_error (sockets (exhausted o n)) s = Some closedSocket
                 \/ nth_error (sockets (exhausted o n)) s = None).
      { intros s. unfold exhausted. cbn [sockets].
        destruct (nth_error (repeat closedSocket (S n)) s) as [sk|] eqn:Hs; [|now right].
        left. f_equal. apply nth_error_In in Hs. now apply repeat_spec in Hs. }
      destruct e as [| | |s|s d|s m|s code r|i]; try discriminate; unfold step.
      * destruct (Hsock s) as [-> | ->]; reflexivity.
      * destruct (Hsock s) as [-> | ->]; reflexivity.
      * destruct (Hsock s) as [-> | ->]; reflexivity.
      * destruct (Hsock s) as [-> | ->]; reflexivity.
      * unfold exhausted. cbn [timers nth_error]. destruct i; reflexivity.
Qed.

Lemma reconnect_exhaustion_witness :
  (forall k, (0 < k <= 2)%nat ->
     run (constructor (mkOptions true true 2 1000)) (unreachableServer k)
     = Some (retrying (mkOptions true true 2 1000) k)) /\
  exists c,
    run (constructor (mkOptions true true 2 1000)) (unreachableServer 3) = Some c /\
    promises c
    = [Rejected ("Failed to connect after " ++ string_of_Z (Z.of_nat 2)
                   ++ " attempts: Connection closed")] /\
    timers c = [] /\
    isConnecting c = false /\
    forall e, isCall e = false -> step c e = None.
Proof.
  exact (reconnect_exhaustion (mkOptions true true 2 1000) 2 eq_refl eq_refl).
Defined.

(** C3 as the specification words it fails: with [maxReconnectAttempts =
    5], after five closes before the handshake the promise is not
    rejected; it is pending, and a sixth attempt is armed. *)
Lemma not_rejected_after_max_closes :
  exists c,
    run (constructor (mkOptions true true 5 1000)) (unreachableServer 5) = Some c /\
    promises c = [Pending] /\
    List.length (timers c) = 1%nat /\
    reconnectAttempts c = 5.
Proof. eexists. split; [reflexivity|]. repeat split. Qed.

(** The schedule as the code has it, one close at a time.  When a live
    socket closes:
    - before the handshake, with reconnecting allowed and the attempt
      counter below [maxReconnectAttempts]: the counter is incremented to
      [n] and a retry is armed after [reconnectDelay * 1.5 ^ n];
    - after the handshake: a disconnected event is emitted; then, with
      [autoReconnect] set and reconnecting allowed, either the counter is
      below [maxReconnectAttempts], is incremented to [n], and a
      reconnect is armed after [reconnectDelay * 2 ^ (n - 1)], or it has
      reached [maxReconnectAttempts], an error event is emitted and
      nothing is armed; without them nothing is armed. *)
Theorem backoff_schedule (c : Client) (s : nat) (sk : Socket)
    (code : Z) (reason : option string) :
  nth_error (sockets c) s = Some sk ->
  isLive sk = true ->
  exists c',
    step c (SocketClose s code reason) = Some c' /\
    (isReady c = false -> shouldReconnect c = true ->
     reconnectAttempts c < maxReconnectAttempts (options c) ->
       reconnectAttempts c' = reconnectAttempts c + 1 /\
       timers c'
       = timers c ++ [RetryTimer (reconnectDelay (options c)
                                  * JS.Math_pow 1.5 (reconnectAttempts c'))%float
                        (flow sk)] /\
       promises c' = promises c /\
       emitted c' = emitted c) /\
    (isReady c = true ->
     let disconnected :=
       EvDisconnected (match reason with
                       | Some r => r
                       | None => "Code: " ++ string_of_Z code
                       end) in
     (autoReconnect (options c) && shouldReconnect c = true ->
      reconnectAttempts c < maxReconnectAttempts (options c) ->
        reconnectAttempts c' = reconnectAttempts c + 1 /\
        timers c'
        = timers c ++ [ReconnectTimer (reconnectDelay (options c)
                                       * JS.Math_pow 2 (reconnectAttempts c' - 1))%float] /\
        emitted c' = emitted c ++ [disconnected]) /\
     (autoReconnect (options c) && shouldReconnect c = true ->
      maxReconnectAttempts (options c) <= reconnectAttempts c ->
        timers c' = timers c /\
        emitted c'
        = emitted c ++ [disconnected; EvError "Max reconnection attempts reached"]) /\
     (autoReconnect (options c) && shouldReconnect c = false ->
        timers c' = timers c /\
        emitted c' = emitted c ++ [disconnected])).
Proof.
  intros Hs Hlive.
  destruct c as [o w n ic ir sr sks tm pr em].
  destruct sk as [r st rc fl cw].
  cbn [sockets] in Hs. unfold step. cbn [sockets]. rewrite Hs.
  assert (Hr : r <> CLOSED) by (intros ->; discriminate Hlive).
  set (sks' := replaceNth s (mkSocket CLOSED st rc fl 0) sks).
  assert (Hstep :
    (match r with
     | CLOSED => None
     | _ => Some (match cw with
                  | O => onClose fl code reason
                           (set_sockets sks' (mkClient o w n ic ir sr sks tm pr em))
                  | S _ => onCloseOnce
                             (onClose fl code reason
                                (set_sockets sks' (mkClient o w n ic ir sr sks tm pr em)))
                  end)
     end)
    = Some (match cw with
            | O => onClose fl code reason
                     (set_sockets sks' (mkClient o w n ic ir sr sks tm pr em))
            | S _ => onCloseOnce
                       (onClose fl code reason
                          (set_sockets sks' (mkClient o w n ic ir sr sks tm pr em)))
            end)).
  { destruct r; [reflexivity|reflexivity|reflexivity|contradiction]. }
  eexists. split; [exact Hstep|]. clear Hstep.
  client_simpl. unfold onClose, onCloseOnce, attemptReconnect. client_simpl.
  split.
  - intros -> -> Hlt. apply Z.ltb_lt in Hlt. client_simpl. rewrite Hlt. client_simpl.
    destruct cw; client_simpl; repeat split; reflexivity.
  - intros ->. client_simpl. split; [|split].
    + intros -> Hlt. client_simpl.
      destruct (Z.leb_spec (maxReconnectAttempts o) n) as [Hle|_]; [lia|].
      destruct cw; client_simpl; repeat split; reflexivity.
    + intros -> Hge. client_simpl.
      destruct (Z.leb_spec (maxReconnectAttempts o) n) as [_|Hlt]; [|lia].
      destruct cw; client_simpl; rewrite <- app_assoc; repeat split; reflexivity.
    + intros ->. destruct cw; client_simpl; repeat split; reflexivity.
Qed.

Lemma backoff_schedule_witness :
  exists c',
    step (attempting (mkOptions true true 5 1000) 0) (SocketClose 0 1006 None) = Some c' /\
    reconnectAttempts c' = 1 /\
    timers c' = [RetryTimer (1000 * JS.Math_pow 1.5 (reconnectAttempts c'))%float 0].
Proof.
  destruct (backoff_schedule (attempting (mkOptions true true 5 1000) 0) 0
              (mkSocket CONNECTING [] [] 0 0) 1006 None eq_refl eq_refl)
    as (c' & Hstep & Hpre & _).
  exists c'. split; [exact Hstep|].
  destruct (Hpre eq_refl eq_refl eq_refl) as (Hn & Htm & _).
  split; [exact Hn|exact Htm].
Defined.

(** The two delays do not follow one formula, whichever value of the
    counter "attempt" stands for.  In both runs the counter goes from 0
    to 1 at the close.  Before the handshake the retry is armed after
    1000 * 1.5 ^ 1 = 1500 ms: not 1000 * 1.5 ^ 0.  After the handshake it
    is armed after 1000 * 2 ^ 0 = 1000 ms: not 1000 * 2 ^ 1. *)
Lemma backoff_exponents_differ :
  exists cPre cPost d1 d2,
    run (constructor (mkOptions true true 5 1000))
      [CallConnect; SocketClose 0 1006 None] = Some cPre /\
    timers cPre = [RetryTimer d1 0] /\ reconnectAttempts cPre = 1 /\
    run (constructor (mkOptions true true 5 1000))
      [CallConnect; SocketOpen 0; SocketMessage 0 [0]; SocketClose 0 1006 None]
    = Some cPost /\
    timers cPost = [ReconnectTimer d2] /\ reconnectAttempts cPost = 1 /\
    d1 = 1500%float /\ (1000 * JS.Math_pow 1.5 0)%float = 1000%float /\
    d2 = 1000%float /\ (1000 * JS.Math_pow 2 1)%float = 2000%float.
Proof.
  do 4 eexists.
  split; [reflexivity|]. split; [reflexivity|]. split; [reflexivity|].
  split; [reflexivity|]. split; [reflexivity|]. split; [reflexivity|].
  repeat split; reflexivity.
Qed.

(** *** The invariant of the client *)

Local Arguments liveCount : simpl never.
Local Arguments retryCount : simpl never.
Local Arguments handshaken : simpl never.

Lemma liveCount_app (l1 l2 : list Socket) :
  liveCount (l1 ++ l2) = (liveCount l1 + liveCount l2)%nat.
Proof. unfold liveCount. rewrite filter_app, length_app. reflexivity. Qed.

Lemma retryCount_app (l1 l2 : list Timer) :
  retryCount (l1 ++ l2) = (retryCount l1 + retryCount l2)%nat.
Proof. unfold retryCount. rewrite filter_app, length_app. reflexivity. Qed.

Lemma liveCount_cons (sk : Socket) (l : list Socket) :
  liveCount (sk :: l) = (Nat.b2n (isLive sk) + liveCount l)%nat.
Proof. unfold liveCount. cbn [filter]. destruct (isLive sk); reflexivity. Qed.

Lemma retryCount_cons (t : Timer) (l : list Timer) :
  retryCount (t :: l) = (Nat.b2n (isRetry t) + retryCount l)%nat.
Proof. unfold retryCount. cbn [filter]. destruct (isRetry t); reflexivity. Qed.

Lemma retryCount_snoc (l : list Timer) (t : Timer) :
  retryCount (l ++ [t]) = (retryCount l + Nat.b2n (isRetry t))%nat.
Proof.
  unfold retryCount. rewrite filter_app, length_app. cbn [filter].
  destruct (isRetry t); reflexivity.
Qed.

Lemma liveCount_replaceNth (l : list Socket) :
  forall s sk sk', nth_error l s = Some sk ->
  (liveCount (replaceNth s sk' l) + Nat.b2n (isLive sk)
   = liveCount l + Nat.b2n (isLive sk'))%nat.
Proof.
  induction l as [|x l IH]; intros s sk sk' Hs; destruct s; cbn in Hs; try discriminate.
  - injection Hs as ->. cbn [replaceNth]. rewrite !liveCount_cons. lia.
  - cbn [replaceNth]. rewrite !liveCount_cons. specialize (IH s sk sk' Hs). lia.
Qed.

Lemma retryCount_removeNth (l : list Timer) :
  forall i t, nth_error l i = Some t ->
  (retryCount (removeNth i l) + Nat.b2n (isRetry t) = retryCount l)%nat.
Proof.
  induction l as [|x l IH]; intros i t Hi; destruct i; cbn in Hi; try discriminate.
  - injection Hi as ->. cbn [removeNth]. rewrite retryCount_cons. lia.
  - cbn [removeNth]. rewrite !retryCount_cons. specialize (IH i t Hi). lia.
Qed.

Lemma Forall_replaceNth {A : Type} (P : A -> Prop) (l : list A) :
  forall s x, Forall P l -> P x -> Forall P (replaceNth s x l).
Proof.
  induction l as [|y l IH]; intros s x Hall Hx; [destruct s; constructor|].
  inversion Hall; subst. destruct s; cbn [replaceNth]; constructor; auto.
Qed.

Lemma Forall_nth_error {A : Type} (P : A -> Prop) (l : list A) (s : nat) (x : A) :
  Forall P l -> nth_error l s = Some x -> P x.
Proof.
  intros Hall Hs. rewrite Forall_forall in Hall. apply Hall.
  eapply nth_error_In; eassumption.
Qed.

Lemma liveCount_zero (l : list Socket) :
  liveCount l = 0%nat -> Forall (fun sk => isLive sk = false) l.
Proof.
  induction l as [|x l IH]; intros Hz; constructor;
    rewrite liveCount_cons in Hz; destruct (isLive x); cbn in Hz; try lia; auto.
Qed.

(** When at most one socket is live and it sits at [s], whatever holds
    of the socket put at [s] holds of all live sockets. *)
Lemma live_only_at (P : Socket -> Prop) (l : list Socket) :
  forall s sk sk',
  (liveCount l <= 1)%nat -> nth_error l s = Some sk -> isLive sk = true ->
  P sk' -> Forall (fun x => isLive x = true -> P x) (replaceNth s sk' l).
Proof.
  induction l as [|x l IH]; intros s sk sk' Hone Hs Hlive Hp;
    destruct s; cbn in Hs; try discriminate; rewrite liveCount_cons in Hone.
  - injection Hs as ->. rewrite Hlive in Hone. cbn in Hone.
    cbn [replaceNth]. constructor; [auto|].
    assert (Hz : liveCount l = 0%nat) by lia.
    apply liveCount_zero in Hz. eapply Forall_impl; [|exact Hz].
    cbn. intros a Ha Ha'. congruence.
  - cbn [replaceNth].
    pose proof (liveCount_replaceNth l s sk sk Hs) as Hcount.
    assert (Hpos : (1 <= liveCount l)%nat).
    { clear - Hs Hlive. revert s Hs. induction l as [|y l IH]; intros s Hs;
        destruct s; cbn in Hs; try discriminate; rewrite liveCount_cons.
      - injection Hs as ->. rewrite Hlive. cbn. lia.
      - specialize (IH s Hs). lia. }
    constructor.
    + intros Hx. rewrite Hx in Hone. cbn in Hone. lia.
    + apply (IH s sk sk'); auto. lia.
Qed.

Lemma liveCount_pos (l : list Socket) (s : nat) (sk : Socket) :
  nth_error l s = Some sk -> isLive sk = true -> (1 <= liveCount l)%nat.
Proof.
  revert s. induction l as [|y l IH]; intros s Hs Hlive;
    destruct s; cbn in Hs; try discriminate; rewrite liveCount_cons.
  - injection Hs as ->. rewrite Hlive. cbn. lia.
  - specialize (IH s Hs Hlive). lia.
Qed.

Lemma handshaken_more (r : ReadyState) (st rc : list (list Z)) (fl cw : nat)
    (r' : ReadyState) (st' : list (list Z)) (d : list (list Z)) (cw' : nat) :
  handshaken (mkSocket r st rc fl cw) = true ->
  handshaken (mkSocket r' st' (rc ++ d) fl cw') = true.
Proof.
  unfold handshaken. cbn [received]. rewrite existsb_app. intros ->. reflexivity.
Qed.

Lemma constructor_inv (o : Options) : Inv (constructor o).
Proof.
  constructor; cbn; auto; discriminate.
Qed.

(** The fields the invariant reads. *)
Lemma inv_same_core (c c' : Client) :
  isConnecting c' = isConnecting c -> isReady c' = isReady c ->
  sockets c' = sockets c -> timers c' = timers c ->
  Inv c -> Inv c'.
Proof.
  intros Hic Hir Hsk Htm [H1 H2 H3 H4 H5].
  constructor; rewrite ?Hic, ?Hir, ?Hsk, ?Htm; assumption.
Qed.

Lemma settle_core (fl : nat) (p : Promise) (c : Client) :
  isConnecting (settle fl p c) = isConnecting c /\
  isReady (settle fl p c) = isReady c /\
  sockets (settle fl p c) = sockets c /\
  timers (settle fl p c) = timers c.
Proof.
  unfold settle. destruct (nth_error (promises c) fl) as [[| |]|]; destruct c; cbn; auto.
Qed.

(** A new attempt starts from a state in which nothing is under way. *)
Lemma connectInternal_inv (fl : nat) (c : Client) :
  liveCount (sockets c) = 0%nat -> retryCount (timers c) = 0%nat ->
  isReady c = false -> isConnecting c = true ->
  Forall (fun sk => sent sk <> [] -> handshaken sk = true) (sockets c) ->
  Inv (connectInternal fl c).
Proof.
  intros Hlive Hretry Hready Hconn Hsent. unfold connectInternal.
  destruct (validUrl (options c)).
  - destruct c as [o w n ic ir sr sks tm pr em]. cbn in *. subst.
    assert (Hnew : liveCount (sks ++ [mkSocket CONNECTING [] [] fl 0]) = 1%nat).
    { rewrite liveCount_app, Hlive. reflexivity. }
    constructor; cbn; rewrite ?Hnew, ?Hretry; try discriminate; try lia.
    apply Forall_app. split; [assumption|]. constructor; [|constructor].
    intros H. now contradiction H.
  - destruct (settle_core fl (Rejected "TypeError: Invalid URL") (set_isConnecting false c))
      as (Hic & Hir & Hsk & Htm).
    destruct c as [o w n ic ir sr sks tm pr em]. cbn in *. subst.
    constructor; rewrite ?Hic, ?Hir, ?Hsk, ?Htm; cbn;
      rewrite ?Hlive, ?Hretry; try discriminate; auto.
Qed.

Lemma connect_inv (c : Client) : Inv c -> Inv (fst (connect c)).
Proof.
  intros Hinv. unfold connect.
  destruct (wsIsOpen c); [exact Hinv|].
  destruct (isConnecting c) eqn:Hic; [exact Hinv|].
  cbn [fst].
  destruct Hinv as [H1 H2 H3 H4 H5]. destruct (H1 Hic) as [Hlive Hretry].
  assert (Hready : isReady c = false).
  { destruct (isReady c); [|reflexivity]. specialize (H3 eq_refl). lia. }
  destruct c as [o w n ic ir sr sks tm pr em]. cbn in *.
  apply connectInternal_inv; cbn; auto.
Qed.

Lemma sendAudio_inv (d : list Z) (c : Client) : Inv c -> Inv (fst (sendAudio d c)).
Proof.
  intros Hinv. unfold sendAudio.
  destruct (ws c) as [s|]; [|exact Hinv].
  destruct (nth_error (sockets c) s) as [sk|] eqn:Hs; [|exact Hinv].
  destruct (isReady c) eqn:Hready; [|exact Hinv].
  destruct (isOpen (readyState sk)) eqn:Hopen; [|exact Hinv].
  cbn [negb orb fst].
  destruct Hinv as [H1 H2 H3 H4 H5].
  assert (Hlive : isLive sk = true).
  { unfold isLive. destruct (readyState sk); try discriminate; reflexivity. }
  assert (Hhs : handshaken sk = true).
  { specialize (H4 Hready). apply (Forall_nth_error _ _ _ _ H4 Hs Hlive). }
  set (sk' := mkSocket (readyState sk) (sent sk ++ [encodeAudioMessage d])
                (received sk) (flow sk) (closeWaiters sk)).
  assert (Hlive' : isLive sk' = isLive sk) by reflexivity.
  assert (Hhs' : handshaken sk' = true) by exact Hhs.
  pose proof (liveCount_replaceNth _ _ _ sk' Hs) as Hcount.
  rewrite Hlive' in Hcount.
  destruct c as [o w n ic ir sr sks tm pr em]. cbn in *.
  constructor; cbn.
  - intros Hic. destruct (H1 Hic). split; [lia|assumption].
  - lia.
  - intros Hr. specialize (H3 Hr). lia.
  - intros Hr. apply Forall_replaceNth; auto.
  - apply Forall_replaceNth; auto.
Qed.

Lemma close_inv (c : Client) : Inv c -> Inv (close c).
Proof.
  intros Hinv. unfold close.
  assert (Hsr : Inv (set_shouldReconnect false c)).
  { apply (inv_same_core c); destruct c; auto. }
  assert (Hws : ws (set_shouldReconnect false c) = ws c) by (destruct c; reflexivity).
  assert (Hsks : sockets (set_shouldReconnect false c) = sockets c)
    by (destruct c; reflexivity).
  rewrite Hws. destruct (ws c) as [s|]; [|exact Hsr].
  rewrite Hsks. destruct (nth_error (sockets c) s) as [sk|] eqn:Hs; [|exact Hsr].
  destruct sk as [r st rc fl cw]. cbn [readyState sent received flow closeWaiters].
  destruct Hinv as [H1 H2 H3 H4 H5].
  destruct c as [o w n ic ir sr sks tm pr em]. cbn in *.
  pose proof (Forall_nth_error _ _ _ _ H5 Hs) as Hsent. cbn in Hsent.
  destruct r; cbn [isOpen].
  - (* CONNECTING *)
    pose proof (liveCount_replaceNth _ _ _ (mkSocket CONNECTING st rc fl (S cw)) Hs) as Hc.
    cbn in Hc. constructor; cbn; try discriminate.
    + intros Hic. destruct (H1 Hic). split; [lia|assumption].
    + lia.
    + apply Forall_replaceNth; auto.
  - (* OPEN *)
    pose proof (liveCount_replaceNth _ _ _ (mkSocket CLOSING st rc fl (S cw)) Hs) as Hc.
    cbn in Hc. constructor; cbn.
    + intros Hic. destruct (H1 Hic). split; [lia|assumption].
    + lia.
    + intros Hr. specialize (H3 Hr). lia.
    + intros Hr. apply Forall_replaceNth; auto.
      intros _. exact (Forall_nth_error _ _ _ _ (H4 Hr) Hs eq_refl).
    + apply Forall_replaceNth; auto.
  - (* CLOSING *)
    pose proof (liveCount_replaceNth _ _ _ (mkSocket CLOSING st rc fl (S cw)) Hs) as Hc.
    cbn in Hc. constructor; cbn; try discriminate.
    + intros Hic. destruct (H1 Hic). split; [lia|assumption].
    + lia.
    + apply Forall_replaceNth; auto.
  - (* CLOSED *)
    pose proof (liveCount_replaceNth _ _ _ (mkSocket CLOSED st rc fl (S cw)) Hs) as Hc.
    cbn in Hc. constructor; cbn; try discriminate.
    + intros Hic. destruct (H1 Hic). split; [lia|assumption].
    + lia.
    + apply Forall_replaceNth; auto.
Qed.

Lemma inv_same_counts (c c' : Client) :
  isConnecting c' = isConnecting c -> isReady c' = isReady c ->
  sockets c' = sockets c -> retryCount (timers c') = retryCount (timers c) ->
  Inv c -> Inv c'.
Proof.
  intros Hic Hir Hsk Htm [H1 H2 H3 H4 H5].
  constructor; rewrite ?Hic, ?Hir, ?Hsk, ?Htm; assumption.
Qed.

(** One socket changes, stays as live as it was, and keeps what was
    delivered on it. *)
Lemma replace_socket_inv (c c' : Client) (s : nat) (sk sk' : Socket) :
  Inv c -> nth_error (sockets c) s = Some sk ->
  isLive sk' = isLive sk ->
  (handshaken sk = true -> handshaken sk' = true) ->
  (sent sk' <> [] -> sent sk <> [] \/ handshaken sk' = true) ->
  isConnecting c' = isConnecting c -> isReady c' = isReady c ->
  sockets c' = replaceNth s sk' (sockets c) -> timers c' = timers c ->
  Inv c'.
Proof.
  intros [H1 H2 H3 H4 H5] Hs Hlive Hhs Hsent Hic Hir Hsk Htm.
  pose proof (liveCount_replaceNth _ _ _ sk' Hs) as Hcount. rewrite Hlive in Hcount.
  constructor; rewrite ?Hic, ?Hir, ?Hsk, ?Htm.
  - intros Hidle. destruct (H1 Hidle). split; [lia|assumption].
  - lia.
  - intros Hr. specialize (H3 Hr). lia.
  - intros Hr. apply Forall_replaceNth; [auto|].
    rewrite Hlive. intros Hl. apply Hhs.
    exact (Forall_nth_error _ _ _ _ (H4 Hr) Hs Hl).
  - apply Forall_replaceNth; [assumption|].
    intros Hne. destruct (Hsent Hne) as [Hold|Hnew]; [|assumption].
    apply Hhs. exact (Forall_nth_error _ _ _ _ H5 Hs Hold).
Qed.

Lemma open_inv (c c' : Client) (s : nat) :
  Inv c -> step c (SocketOpen s) = Some c' -> Inv c'.
Proof.
  intros Hinv. unfold step.
  destruct (nth_error (sockets c) s) as [[r st rc fl cw]|] eqn:Hs; [|discriminate].
  destruct r; try discriminate. intros [= <-].
  apply (replace_socket_inv c _ s _ (mkSocket OPEN st rc fl cw) Hinv Hs);
    try (destruct c; reflexivity); auto.
Qed.

Lemma error_inv (c c' : Client) (s : nat) (m : string) :
  Inv c -> step c (SocketError s m) = Some c' -> Inv c'.
Proof.
  intros Hinv. unfold step.
  destruct (nth_error (sockets c) s) as [[r st rc fl cw]|]; [|discriminate].
  destruct r; try discriminate; intros [= <-];
    apply (inv_same_core c); auto; destruct c; reflexivity.
Qed.

Lemma handleMessage_core (data : list Z) (fl : nat) (c : Client) :
  isConnecting (handleMessage data fl c) = isConnecting c /\
  isReady (handleMessage data fl c) = (isHandshake data || isReady c)%bool /\
  sockets (handleMessage data fl c) = sockets c /\
  timers (handleMessage data fl c) = timers c.
Proof.
  unfold handleMessage, isHandshake.
  destruct (decodeMessage data).
  - destruct (settle_core fl Resolved
                (emit EvReady (set_isReady true (emit (EvMessage Handshake) c))))
      as (-> & -> & -> & ->).
    destruct c; repeat split.
  - destruct c; repeat split.
  - destruct c; repeat split.
  - destruct c; repeat split.
  - destruct c; repeat split.
  - destruct c; repeat split.
  - destruct c; repeat split.
  - destruct c; repeat split.
Qed.

Lemma message_inv (c c' : Client) (s : nat) (data : list Z) :
  Inv c -> step c (SocketMessage s data) = Some c' -> Inv c'.
Proof.
  intros Hinv. unfold step.
  destruct (nth_error (sockets c) s) as [[r st rc fl cw]|] eqn:Hs; [|discriminate].
  set (sk := mkSocket r st rc fl cw) in *.
  set (sk' := mkSocket r st (rc ++ [data]) fl cw).
  intros Hstep.
  assert (Hr : isLive sk = true /\
               c' = handleMessage data fl (set_sockets (replaceNth s sk' (sockets c)) c)).
  { destruct r; try discriminate; injection Hstep as <-; split; reflexivity. }
  destruct Hr as [Hlive ->]. clear Hstep.
  destruct (handleMessage_core data fl (set_sockets (replaceNth s sk' (sockets c)) c))
    as (Hic & Hir & Hsk & Htm).
  assert (Hmore : handshaken sk = true -> handshaken sk' = true)
    by apply handshaken_more.
  destruct (isHandshake data) eqn:Hhs.
  - (* the handshake *)
    assert (Hnow : handshaken sk' = true).
    { unfold handshaken, sk'. cbn [received]. rewrite existsb_app. cbn.
      rewrite Hhs. apply orb_true_r. }
    destruct Hinv as [H1 H2 H3 H4 H5].
    pose proof (liveCount_replaceNth _ _ _ sk' Hs) as Hcount.
    change (isLive sk') with (isLive sk) in Hcount.
    pose proof (liveCount_pos _ _ _ Hs Hlive) as Hpos.
    constructor; rewrite ?Hic, ?Hir, ?Hsk, ?Htm; destruct c as [o w n ic ir sr sks tm pr em];
      cbn in *.
    + intros Hidle. destruct (H1 Hidle). split; [lia|assumption].
    + lia.
    + intros _. lia.
    + intros _. apply (live_only_at (fun x => handshaken x = true) sks s sk sk');
        auto. lia.
    + apply Forall_replaceNth; auto.
  - (* any other frame *)
    apply (replace_socket_inv c _ s sk sk' Hinv Hs); auto;
      rewrite ?Hic, ?Hir, ?Hsk, ?Htm; destruct c; reflexivity.
Qed.

(** The state after a 'close' event: the socket is closed, the client is
    not ready, and either a retry is armed by a connecting client or the
    client stops connecting. *)
Lemma closed_inv (c c' : Client) (s : nat) (sk sk' : Socket) :
  Inv c -> nth_error (sockets c) s = Some sk ->
  isLive sk = true -> isLive sk' = false ->
  received sk' = received sk -> sent sk' = sent sk ->
  isReady c' = false ->
  sockets c' = replaceNth s sk' (sockets c) ->
  ((isConnecting c' = isConnecting c /\
    retryCount (timers c') = S (retryCount (timers c))) \/
   (isConnecting c' = false /\
    retryCount (timers c') = retryCount (timers c))) ->
  Inv c'.
Proof.
  intros [H1 H2 H3 H4 H5] Hs Hlive Hdead Hrc Hst Hir Hsk Hcase.
  pose proof (liveCount_replaceNth _ _ _ sk' Hs) as Hcount.
  rewrite Hlive, Hdead in Hcount. cbn in Hcount.
  pose proof (liveCount_pos _ _ _ Hs Hlive) as Hpos.
  assert (Hic : isConnecting c = true).
  { destruct (isConnecting c); [reflexivity|]. destruct (H1 eq_refl). lia. }
  constructor; rewrite ?Hir, ?Hsk; try discriminate.
  - destruct Hcase as [[Hc Ht]|[Hc Ht]]; rewrite Hc, Ht.
    + rewrite Hic. discriminate.
    + intros _. split; lia.
  - destruct Hcase as [[Hc Ht]|[Hc Ht]]; rewrite Ht; lia.
  - apply Forall_replaceNth; [assumption|].
    rewrite Hst. intros Hne.
    pose proof (Forall_nth_error _ _ _ _ H5 Hs Hne) as Hh.
    unfold handshaken in *. rewrite Hrc. exact Hh.
Qed.

Lemma onClose_shape (fl : nat) (code : Z) (reason : option string) (c : Client) :
  let c' := onClose fl code reason c in
  isReady c' = false /\ sockets c' = sockets c /\
  ((isConnecting c' = isConnecting c /\
    retryCount (timers c') = S (retryCount (timers c))) \/
   (isConnecting c' = false /\
    retryCount (timers c') = retryCount (timers c))).
Proof.
  unfold onClose, attemptReconnect.
  destruct c as [o w n ic ir sr sks tm pr em]. client_simpl.
  destruct ir; client_simpl.
  - destruct (autoReconnect o && sr)%bool; client_simpl.
    + destruct (maxReconnectAttempts o <=? n); client_simpl.
      * repeat split. right. split; reflexivity.
      * repeat split. right. split; [reflexivity|].
        rewrite retryCount_snoc. cbn [isRetry Nat.b2n]. lia.
    + repeat split. right. split; reflexivity.
  - destruct (sr && (n <? maxReconnectAttempts o))%bool; client_simpl.
    + repeat split. left. split; [reflexivity|].
      rewrite retryCount_snoc. cbn [isRetry Nat.b2n]. lia.
    + match goal with
      | |- context [settle ?a ?b ?d] =>
          destruct (settle_core a b d) as (-> & -> & -> & ->)
      end.
      cbn. repeat split. right. split; reflexivity.
Qed.

Lemma closeEvent_inv (c c' : Client) (s : nat) (code : Z) (reason : option string) :
  Inv c -> step c (SocketClose s code reason) = Some c' -> Inv c'.
Proof.
  intros Hinv. unfold step.
  destruct (nth_error (sockets c) s) as [[r st rc fl cw]|] eqn:Hs; [|discriminate].
  set (sk := mkSocket r st rc fl cw) in *.
  set (sk' := mkSocket CLOSED st rc fl 0).
  intros Hstep.
  set (c1 := set_sockets (replaceNth s sk' (sockets c)) c) in *.
  assert (Hr : isLive sk = true /\
               c' = match cw with
                    | O => onClose fl code reason c1
                    | S _ => onCloseOnce (onClose fl code reason c1)
                    end).
  { destruct r; try discriminate; injection Hstep as <-; split; reflexivity. }
  destruct Hr as [Hlive ->]. clear Hstep.
  destruct (onClose_shape fl code reason c1) as (Hir & Hsk & Hcase).
  assert (Hc1 : isConnecting c1 = isConnecting c /\ timers c1 = timers c /\
                sockets c1 = replaceNth s sk' (sockets c))
    by (destruct c; repeat split).
  destruct Hc1 as (Hic1 & Htm1 & Hsk1).
  rewrite Hic1, Htm1, Hsk1 in *.
  apply (closed_inv c _ s sk sk' Hinv Hs Hlive); auto.
  - destruct cw; [exact Hir|]. destruct (onClose fl code reason c1); reflexivity.
  - destruct cw; [exact Hsk|]. rewrite <- Hsk.
    destruct (onClose fl code reason c1); reflexivity.
  - destruct cw; [exact Hcase|].
    destruct (onClose fl code reason c1); exact Hcase.
Qed.

Lemma timer_inv (c c' : Client) (i : nat) :
  Inv c -> step c (TimerFire i) = Some c' -> Inv c'.
Proof.
  intros Hinv. unfold step.
  destruct (nth_error (timers c) i) as [t|] eqn:Hi; [|discriminate].
  pose proof (retryCount_removeNth _ _ _ Hi) as Hcount.
  set (c1 := set_timers (removeNth i (timers c)) c) in *.
  assert (Hc1 : isConnecting c1 = isConnecting c /\ isReady c1 = isReady c /\
                sockets c1 = sockets c /\ timers c1 = removeNth i (timers c))
    by (destruct c; repeat split).
  destruct Hc1 as (Hic1 & Hir1 & Hsk1 & Htm1).
  destruct t as [d fl|d]; intros [= <-]; cbn in Hcount.
  - destruct Hinv as [H1 H2 H3 H4 H5].
    apply connectInternal_inv; rewrite ?Hic1, ?Hir1, ?Hsk1, ?Htm1; try lia; auto.
    + destruct (isReady c); [|reflexivity]. specialize (H3 eq_refl). lia.
    + destruct (isConnecting c); [reflexivity|]. destruct (H1 eq_refl). lia.
  - apply connect_inv. apply (inv_same_counts c); auto. rewrite Htm1. lia.
Qed.

(** Every event keeps the invariant, so it holds in every state a client
    can reach from its construction. *)
Lemma step_inv (c c' : Client) (e : Event) :
  Inv c -> step c e = Some c' -> Inv c'.
Proof.
  intros Hinv. destruct e as [|d| |s|s d|s m|s code r|i].
  - intros [= <-]. now apply connect_inv.
  - intros [= <-]. now apply sendAudio_inv.
  - intros [= <-]. now apply close_inv.
  - now apply open_inv.
  - now apply message_inv.
  - now apply error_inv.
  - now apply closeEvent_inv.
  - now apply timer_inv.
Qed.

Lemma run_inv (es : list Event) :
  forall c c', Inv c -> run c es = Some c' -> Inv c'.
Proof.
  induction es as [|e es IH]; intros c c' Hinv; cbn [run].
  - intros [= <-]. exact Hinv.
  - destruct (step c e) as [c1|] eqn:Hstep; [|discriminate].
    apply IH. exact (step_inv c c1 e Hinv Hstep).
Qed.

(** *** Readiness *)

Lemma connectInternal_ready (fl : nat) (c : Client) :
  isReady (connectInternal fl c) = isReady c.
Proof.
  unfold connectInternal. destruct (validUrl (options c)).
  - destruct c; reflexivity.
  - destruct (settle_core fl (Rejected "TypeError: Invalid URL") (set_isConnecting false c))
      as (_ & -> & _). destruct c; reflexivity.
Qed.

Lemma connect_ready (c : Client) : isReady (fst (connect c)) = isReady c.
Proof.
  unfold connect. destruct (wsIsOpen c); [reflexivity|].
  destruct (isConnecting c); [reflexivity|].
  cbn [fst]. rewrite connectInternal_ready. destruct c; reflexivity.
Qed.

Lemma sendAudio_ready (d : list Z) (c : Client) :
  isReady (fst (sendAudio d c)) = isReady c.
Proof.
  unfold sendAudio. destruct (ws c) as [s|]; [|reflexivity].
  destruct (nth_error (sockets c) s) as [sk|]; [|reflexivity].
  destruct (negb (isReady c) || negb (isOpen (readyState sk)))%bool; [reflexivity|].
  destruct c; reflexivity.
Qed.

Lemma close_ready (c : Client) : isReady c = false -> isReady (close c) = false.
Proof.
  intros Hr. unfold close. destruct c as [o w n ic ir sr sks tm pr em].
  cbn in Hr. subst ir. client_simpl.
  destruct w as [s|]; [|reflexivity].
  destruct (nth_error sks s) as [sk|]; [|reflexivity].
  destruct (isOpen (readyState sk)); reflexivity.
Qed.

(** No event but a handshake frame makes a client ready. *)
Lemma step_not_ready (c c' : Client) (e : Event) :
  step c e = Some c' -> isReady c = false ->
  (forall s d, e = SocketMessage s d -> isHandshake d = false) ->
  isReady c' = false.
Proof.
  intros Hstep Hr Hno. destruct e as [|d| |s|s d|s m|s code r|i]; unfold step in Hstep.
  - injection Hstep as <-. now rewrite connect_ready.
  - injection Hstep as <-. now rewrite sendAudio_ready.
  - injection Hstep as <-. now apply close_ready.
  - destruct (nth_error (sockets c) s) as [[r st rc fl cw]|]; [|discriminate].
    destruct r; try discriminate. injection Hstep as <-.
    destruct c; exact Hr.
  - destruct (nth_error (sockets c) s) as [[r st rc fl cw]|]; [|discriminate].
    assert (Hc' : c' = handleMessage d fl
                         (set_sockets
                            (replaceNth s (mkSocket r st (rc ++ [d]) fl cw) (sockets c)) c))
      by (destruct r; try discriminate; now injection Hstep as <-).
    subst c'.
    match goal with
    | |- isReady (handleMessage ?a ?b ?x) = _ =>
        destruct (handleMessage_core a b x) as (_ & -> & _)
    end.
    rewrite (Hno s d eq_refl). destruct c; exact Hr.
  - destruct (nth_error (sockets c) s) as [[r st rc fl cw]|]; [|discriminate].
    destruct r; try discriminate; injection Hstep as <-; destruct c; exact Hr.
  - destruct (nth_error (sockets c) s) as [[r0 st rc fl cw]|]; [|discriminate].
    set (c1 := set_sockets (replaceNth s (mkSocket CLOSED st rc fl 0) (sockets c)) c) in *.
    assert (Hc' : c' = match cw with
                       | O => onClose fl code r c1
                       | S _ => onCloseOnce (onClose fl code r c1)
                       end)
      by (destruct r0; try discriminate; now injection Hstep as <-).
    subst c'. destruct (onClose_shape fl code r c1) as (Hir & _).
    destruct cw; [exact Hir|]. destruct (onClose fl code r c1); reflexivity.
  - destruct (nth_error (timers c) i) as [t|]; [|discriminate].
    destruct t as [d fl|d]; injection Hstep as <-.
    + rewrite connectInternal_ready. destruct c; exact Hr.
    + rewrite connect_ready. destruct c; exact Hr.
Qed.

Lemma run_not_ready (es : list Event) :
  forall c c', run c es = Some c' -> isReady c = false ->
  (forall s d, In (SocketMessage s d) es -> isHandshake d = false) ->
  isReady c' = false.
Proof.
  induction es as [|e es IH]; intros c c' Hrun Hr Hno; cbn [run] in Hrun.
  - now injection Hrun as <-.
  - destruct (step c e) as [c1|] eqn:Hstep; [|discriminate].
    apply (IH c1 c' Hrun).
    + apply (step_not_ready c c1 e Hstep Hr).
      intros s d ->. apply (Hno s d). now left.
    + intros s d Hin. apply (Hno s d). now right.
Qed.

Lemma sendAudio_not_ready (d : list Z) (c : Client) :
  isReady c = false -> sendAudio d c = (c, Thrown "Client is not connected").
Proof.
  intros Hr. unfold sendAudio. rewrite Hr.
  destruct (ws c) as [s|]; [|reflexivity].
  destruct (nth_error (sockets c) s); reflexivity.
Qed.

(** What C3 leaves open: a socket that opens resets the attempt counter,
    so a server that accepts and closes before the handshake is retried
    without end; here three rounds against a budget of one retry. *)
Lemma open_resets_attempts :
  exists c,
    run (constructor (mkOptions true true 1 1000))
      (CallConnect :: flappingServer 3 0) = Some c /\
    promises c = [Pending] /\
    reconnectAttempts c = 1 /\
    socketState c 3 = Some CONNECTING.
Proof. eexists. split; [reflexivity|]. repeat split. Qed.

End ClientProofs.

(** ** The telephony handler *)

Module TwilioProofs.
Import Twilio.

Lemma parseInt10_examples :
  parseInt10 "1234" = Some 1234 /\
  parseInt10 "  -17ms" = Some (-17) /\
  parseInt10 "0" = Some 0 /\
  parseInt10 "" = None /\
  parseInt10 "abc" = None.
Proof. repeat split. Qed.

(** The timestamp that is parsed reaches the event unless it is 0; a
    string without a number gives the wall-clock time. *)
Lemma timestampOr_cases (now : Z) (timestamp : string) :
  (forall n, parseInt10 timestamp = Some n -> n <> 0 -> timestampOr now timestamp = n) /\
  (parseInt10 timestamp = None -> timestampOr now timestamp = now) /\
  (parseInt10 timestamp = Some 0 -> timestampOr now timestamp = now).
Proof.
  unfold timestampOr. repeat split.
  - intros n -> Hn. destruct (Z.eqb_spec n 0); [contradiction|reflexivity].
  - intros ->. reflexivity.
  - intros ->. reflexivity.
Qed.

(** C9, at the input where the code departs from it: a media message
    whose timestamp field is the string 0.  [parseInt] succeeds with the
    integer 0, and the audio event carries the wall-clock time [now]
    all the same. *)
Theorem media_timestamp_zero (base64Decode : string -> list Z) (now : Z)
    (h : TwilioMediaHandler) :
  parseInt10 "0" = Some 0 /\
  handleMessage base64Decode now h
    (mkMessage "media" None (Some (mkMediaInfo "inbound" "1" "0" "/w==")) None)
  = emit (EvAudio (mulawToPcm (base64Decode "/w=="%string)) now) h.
Proof. split; reflexivity. Qed.

(** The media messages for which C9 holds: those whose timestamp parses
    to an integer other than 0. *)
Lemma media_timestamp_parsed (base64Decode : string -> list Z) (now : Z)
    (h : TwilioMediaHandler) (m : MediaInfo) (n : Z) :
  nonEmpty (media_payload m) = true ->
  parseInt10 (media_timestamp m) = Some n -> n <> 0 ->
  handleMessage base64Decode now h (mkMessage "media" None (Some m) None)
  = emit (EvAudio (mulawToPcm (base64Decode (media_payload m))) n) h.
Proof.
  intros Hpayload Hparse Hn. unfold handleMessage. cbn [event media].
  change ("media" =? "connected")%string with false.
  change ("media" =? "start")%string with false.
  change ("media" =? "media")%string with true.
  cbn iota. rewrite Hpayload. unfold handleMediaPayload.
  destruct (timestampOr_cases now (media_timestamp m)) as (Hsome & _).
  rewrite (Hsome n Hparse Hn). reflexivity.
Qed.

(** C10.  A message whose event is start and which carries no start
    object leaves the handler as it is: the stored stream and call
    identifiers, the emitted events and hence [isActive]. *)
Theorem start_without_start_object (base64Decode : string -> list Z) (now : Z)
    (h : TwilioMediaHandler) (message : TwilioMediaMessage) :
  event message = "start"%string -> start message = None ->
  handleMessage base64Decode now h message = h /\
  streamSid (handleMessage base64Decode now h message) = streamSid h /\
  callSid (handleMessage base64Decode now h message) = callSid h /\
  emitted (handleMessage base64Decode now h message) = emitted h /\
  isActive (handleMessage base64Decode now h message) = isActive h.
Proof.
  intros Hevent Hstart.
  assert (Hsame : handleMessage base64Decode now h message = h).
  { unfold handleMessage. rewrite Hevent, Hstart. reflexivity. }
  rewrite Hsame. repeat split; reflexivity.
Qed.

Lemma start_without_start_object_witness :
  handleMessage (fun _ => []) 0
    (mkHandler (Some "MZ1"%string) (Some "CA1"%string) 3 [EvConnected])
    (mkMessage "start" None None None)
  = mkHandler (Some "MZ1"%string) (Some "CA1"%string) 3 [EvConnected].
Proof.
  apply (start_without_start_object (fun _ => []) 0
           (mkHandler (Some "MZ1"%string) (Some "CA1"%string) 3 [EvConnected])
           (mkMessage "start" None None None)); reflexivity.
Defined.

End TwilioProofs.

(** ** The session orchestrator *)

Module VoiceBotProofs.
Import VoiceBot.

Local Arguments endedCount : simpl never.

Lemma endedCount_emit (e : VoiceBotEvent) (b : VoiceBot) :
  endedCount (emit e b) = (endedCount b + Nat.b2n (isEnded e))%nat.
Proof.
  unfold endedCount, emit. cbn [emitted]. rewrite filter_app, length_app.
  cbn [filter]. destruct (isEnded e); reflexivity.
Qed.

Lemma removeNth_length {A : Type} (l : list A) :
  forall i x, nth_error l i = Some x -> S (length (removeNth i l)) = length l.
Proof.
  induction l as [|y l IH]; intros i x Hi; destruct i; cbn in *; try discriminate.
  - reflexivity.
  - now rewrite (IH i x Hi).
Qed.

Lemma replaceNth_length {A : Type} (l : list A) :
  forall i x, length (replaceNth i x l) = length l.
Proof.
  induction l as [|y l IH]; intros i x; destruct i; cbn; auto.
Qed.

(** Every step keeps the number of 'ended' events emitted or due. *)
Lemma step_endedDue (b b' : VoiceBot) (e : Event) :
  step b e = Some b' -> endedDue b' = endedDue b.
Proof.
  destruct b as [c ib act codec em sus]. destruct e as [|i|]; cbn [step].
  - intros [= <-]. unfold endSession. cbn [isSessionActive personaplexClient].
    destruct act; cbn [negb]; [|reflexivity].
    destruct c as [c|]; unfold endedDue, endedCount, cleanupRest; cbn;
      rewrite length_app; cbn; lia.
  - unfold resume. cbn [suspended].
    destruct (nth_error sus i) as [[|]|] eqn:Hi; [| |discriminate]; intros [= <-].
    + unfold endedDue, endedCount, cleanupRest. cbn.
      rewrite replaceNth_length. reflexivity.
    + unfold endedDue. rewrite endedCount_emit. unfold endedCount, emit. cbn.
      pose proof (removeNth_length sus i _ Hi). lia.
  - intros [= <-]. unfold onDisconnected. cbn [isSessionActive].
    destruct act; [|reflexivity].
    unfold endedDue. rewrite endedCount_emit. unfold endedCount, emit. cbn. lia.
Qed.

Lemma step_stays_inactive (b b' : VoiceBot) (e : Event) :
  isSessionActive b = false -> step b e = Some b' -> isSessionActive b' = false.
Proof.
  destruct b as [c ib act codec em sus]. cbn [isSessionActive]. intros ->.
  destruct e as [|i|]; cbn [step].
  - intros [= <-]. reflexivity.
  - unfold resume. cbn [suspended].
    destruct (nth_error sus i) as [[|]|]; [| |discriminate]; intros [= <-]; reflexivity.
  - intros [= <-]. reflexivity.
Qed.

Lemma endSession_inactive (b : VoiceBot) : isSessionActive (endSession b) = false.
Proof.
  destruct b as [c ib act codec em sus]. unfold endSession. cbn [isSessionActive].
  destruct act; cbn [negb]; [|reflexivity]. destruct c; reflexivity.
Qed.

Lemma run_endedDue (es : list Event) :
  forall b b', run b es = Some b' -> endedDue b' = endedDue b.
Proof.
  induction es as [|e es IH]; intros b b'; cbn [run].
  - now intros [= <-].
  - destruct (step b e) as [b1|] eqn:Hstep; [|discriminate].
    intros Hrun. rewrite (IH _ _ Hrun). exact (step_endedDue _ _ _ Hstep).
Qed.

Lemma run_stays_inactive (es : list Event) :
  forall b b', isSessionActive b = false -> run b es = Some b' ->
  isSessionActive b' = false.
Proof.
  induction es as [|e es IH]; intros b b' Hin; cbn [run].
  - now intros [= <-].
  - destruct (step b e) as [b1|] eqn:Hstep; [|discriminate].
    apply IH. exact (step_stays_inactive _ _ _ Hin Hstep).
Qed.

Lemma run_inactive_after_call (es : list Event) :
  forall b b', In CallEndSession es -> run b es = Some b' ->
  isSessionActive b' = false.
Proof.
  induction es as [|e es IH]; intros b b' Hcall; cbn [run]; [contradiction|].
  destruct (step b e) as [b1|] eqn:Hstep; [|discriminate].
  destruct Hcall as [->|Hcall].
  - cbn [step] in Hstep. injection Hstep as <-.
    apply run_stays_inactive. apply endSession_inactive.
  - now apply IH.
Qed.



End VoiceBotProofs.

(** ** The frame buffer: draining, peeking and recovery *)

Module AudioBufferMore.
Import TypedArray TypedArrayFacts AudioBuffer AudioBufferProofs.
Section More.
Context {A : Type}.
Implicit Types (b : AudioBuffer.t A) (samples : list A).

Lemma readAllFramesLoop_drains (n : nat) :
  forall (fuel : nat) b (frames : list (list A)),
  wf b -> 0 < frameSize b ->
  n = Z.to_nat (writePosition b / frameSize b) -> (n <= fuel)%nat ->
  exists b',
    readAllFramesLoop fuel b frames
    = Some (b', frames ++ map (sliceAt (frameSize b) (contents b)) (seq 0 n)) /\
    wf b' /\ frameSize b' = frameSize b /\ capacity b' = capacity b /\
    writePosition b' = writePosition b mod frameSize b /\
    contents b' = skipn (n * Z.to_nat (frameSize b)) (contents b).
Proof.
  induction n as [|n IH]; intros fuel b frames Hwf Hf Hn Hfuel.
  - assert (Hlt : writePosition b < frameSize b).
    { destruct (Z.lt_ge_cases (writePosition b) (frameSize b)) as [H|H]; [exact H|].
      assert (1 <= writePosition b / frameSize b)
        by (apply Z.div_le_lower_bound; lia).
      lia. }
    exists b. unfold wf in Hwf.
    destruct fuel; cbn [readAllFramesLoop]; rewrite readFrame_none by exact Hlt;
      cbn [seq map]; rewrite app_nil_r;
      (split; [reflexivity|]); (split; [exact Hwf|]);
      (split; [reflexivity|]); (split; [reflexivity|]);
      (split; [symmetry; apply Z.mod_small; lia|reflexivity]).
  - destruct fuel as [|fuel]; [lia|].
    assert (Hge : frameSize b <= writePosition b).
    { destruct (Z.lt_ge_cases (writePosition b) (frameSize b)) as [H|H]; [|exact H].
      unfold wf in Hwf. rewrite Z.div_small in Hn by lia. discriminate. }
    destruct (readFrame_some b Hwf) as (b1 & Hread & Hwf1 & Hf1 & Hcap1 & Hwp1 & Hcont1);
      [lia|].
    assert (Hdiv : writePosition b1 / frameSize b1 = writePosition b / frameSize b - 1).
    { rewrite Hf1, Hwp1.
      replace (writePosition b - frameSize b)
        with (writePosition b + (-1) * frameSize b) by lia.
      rewrite Z.div_add by lia. lia. }
    destruct (IH fuel b1 (frames ++ [firstn (Z.to_nat (frameSize b)) (contents b)]) Hwf1)
      as (b2 & Hloop & Hwf2 & Hf2 & Hcap2 & Hwp2 & Hcont2); [lia|lia|lia|].
    exists b2. cbn [readAllFramesLoop]. rewrite Hread, Hloop.
    split.
    + f_equal. f_equal. rewrite <- app_assoc. f_equal.
      cbn [app seq map]. f_equal.
      rewrite <- seq_shift, map_map. apply map_ext. intros i.
      rewrite sliceAt_succ, Hf1, Hcont1. reflexivity.
    + split; [exact Hwf2|]. split; [congruence|]. split; [congruence|]. split.
      * rewrite Hwp2, Hf1, Hwp1.
        replace (writePosition b - frameSize b)
          with (writePosition b + (-1) * frameSize b) by lia.
        apply Z.mod_add. lia.
      * rewrite Hcont2, Hcont1, Hf1, skipn_skipn. f_equal. lia.
Qed.

(** X1.  [readAllFrames()] on a buffer in good order, with a positive
    frame size, ends after [floor(writePosition / frameSize)] turns: it
    hands out the complete frames, oldest first, as consecutive slices of
    the contents, and keeps the remainder, fewer than [frameSize]
    samples, in order. *)
Theorem readAllFrames_drains b (fuel : nat) :
  wf b -> 0 < frameSize b ->
  (Z.to_nat (writePosition b / frameSize b) <= fuel)%nat ->
  exists b',
    readAllFrames fuel b
    = Some (b', map (sliceAt (frameSize b) (contents b))
                  (seq 0 (Z.to_nat (writePosition b / frameSize b)))) /\
    writePosition b' = writePosition b mod frameSize b /\
    writePosition b' < frameSize b' /\
    contents b'
    = skipn (Z.to_nat (writePosition b / frameSize b) * Z.to_nat (frameSize b))
        (contents b) /\
    readFrame b' = (b', None).
Proof.
  intros Hwf Hf Hfuel.
  destruct (readAllFramesLoop_drains _ fuel b [] Hwf Hf eq_refl Hfuel)
    as (b' & Hloop & Hwf' & Hf' & _ & Hwp' & Hcont').
  assert (Hlt : writePosition b' < frameSize b').
  { rewrite Hwp', Hf'. apply Z.mod_pos_bound. exact Hf. }
  exists b'. unfold readAllFrames. rewrite Hloop. cbn [app].
  split; [reflexivity|]. split; [exact Hwp'|]. split; [exact Hlt|].
  split; [exact Hcont'|]. apply readFrame_none. exact Hlt.
Qed.

Lemma readAllFramesLoop_diverges (fuel : nat) :
  forall b (frames : list (list A)),
  frameSize b <= 0 -> 0 <= writePosition b ->
  readAllFramesLoop fuel b frames = None.
Proof.
  induction fuel as [|fuel IH]; intros b frames Hf Hwp.
  - cbn [readAllFramesLoop]. unfold readFrame, hasFrame.
    destruct (frameSize b <=? writePosition b) eqn:Hhas;
      [reflexivity|apply Z.leb_gt in Hhas; lia].
  - cbn [readAllFramesLoop]. unfold readFrame, hasFrame.
    destruct (frameSize b <=? writePosition b) eqn:Hhas;
      [|apply Z.leb_gt in Hhas; lia].
    cbn [negb]. apply IH; cbn [frameSize writePosition]; lia.
Qed.

(** X2.  With a frame size of zero or below, [readAllFrames()] never
    returns: [hasFrame()] holds before and after every [readFrame()], so
    no amount of fuel is enough.  [new AudioBuffer(0)] is such a buffer. *)
Theorem readAllFrames_needs_positive_frame_size b :
  frameSize b <= 0 -> 0 <= writePosition b ->
  forall fuel, readAllFrames fuel b = None.
Proof.
  intros Hf Hwp fuel. apply readAllFramesLoop_diverges; assumption.
Qed.

(** X3.  [peek] copies from the front of the buffer: without an argument
    all samples held, with a count of zero or more the first [count] of
    them.  A negative count is taken by [slice] as a position from the
    end of the backing array, so that the result is the first
    [capacity + count] slots, free ones included. *)
Theorem peek_cases b (count : Z) :
  wf b ->
  peek b None = contents b /\
  (0 <= count -> peek b (Some count) = firstn (Z.to_nat count) (contents b)) /\
  (count < 0 ->
   peek b (Some count) = firstn (Z.to_nat (capacity b + count)) (buffer b)).
Proof.
  intros Hwf. unfold wf, capacity in Hwf. unfold peek. split; [|split].
  - rewrite Z.min_id. rewrite slice_front by lia. reflexivity.
  - intros Hc. rewrite slice_front by lia. unfold contents.
    rewrite firstn_firstn. f_equal. lia.
  - intros Hc. rewrite Z.min_l by lia.
    unfold slice, clampIndex, capacity.
    replace (0 <? 0) with false by reflexivity.
    destruct (count <? 0) eqn:Hneg; [|apply Z.ltb_ge in Hneg; lia].
    rewrite (Z.min_l 0) by lia. rewrite Z.sub_0_r. cbn [Z.to_nat skipn].
    f_equal. lia.
Qed.

Lemma push_wedged b samples :
  writePosition b < 0 ->
  exists b',
    push b samples = (b', Thrown "RangeError: offset is out of bounds") /\
    writePosition b' < 0 /\ frameSize b' = frameSize b.
Proof.
  intros Hneg. unfold push.
  pose proof (len_nonneg samples) as Hs.
  destruct (capacity b <? writePosition b + len samples) eqn:Hover.
  - apply Z.ltb_lt in Hover. cbn [buffer writePosition frameSize].
    rewrite set_negative_offset by lia.
    eexists. split; [reflexivity|]. cbn [writePosition frameSize]. split; [lia|reflexivity].
  - rewrite set_negative_offset by lia.
    exists b. split; [reflexivity|]. split; [lia|reflexivity].
Qed.

(** X4.  One push of more samples than the backing array holds puts the
    buffer out of use for good: that push throws, and so does every later
    one, whatever its length, while every [readFrame()] answers [null];
    neither call changes that. *)
Theorem oversized_push_wedges b samples :
  wf b -> 0 <= frameSize b -> capacity b < len samples ->
  exists b1,
    push b samples = (b1, Thrown "RangeError: offset is out of bounds") /\
    wedged b1 /\
    (forall b2, wedged b2 ->
       readFrame b2 = (b2, None) /\
       forall more, exists b3,
         push b2 more = (b3, Thrown "RangeError: offset is out of bounds") /\
         wedged b3).
Proof.
  intros Hwf Hf Hbig. rewrite push_oversize by assumption.
  eexists. split; [reflexivity|]. split.
  - unfold wedged. cbn [writePosition frameSize]. lia.
  - intros b2 [Hneg Hf2]. split.
    + apply readFrame_none. lia.
    + intros more. destruct (push_wedged b2 more Hneg) as (b3 & Hpush & Hneg3 & Hf3).
      exists b3. split; [exact Hpush|]. unfold wedged. rewrite Hf3. lia.
Qed.

(** X5.  [clear()] brings any buffer back into use, a wedged one too:
    the next push of no more samples than the capacity returns, and the
    buffer then holds exactly the samples pushed. *)
Theorem clear_recovers b samples :
  len samples <= capacity b ->
  exists b',
    push (clear b) samples = (b', Returned tt) /\
    wf b' /\ frameSize b' = frameSize b /\
    sampleCount b' = len samples /\
    contents b' = samples.
Proof.
  intros Hn.
  assert (Hwf : wf (clear b)).
  { unfold wf, clear, capacity. cbn [writePosition buffer].
    pose proof (len_nonneg (buffer b)). lia. }
  destruct (push_fits (clear b) samples Hwf Hn)
    as (b' & Hpush & Hwf' & Hf' & _ & Hwp' & Hcont').
  pose proof (len_nonneg samples) as Hs.
  assert (Hex : excess (clear b) (len samples) = 0).
  { unfold excess, clear, capacity in *. cbn [writePosition buffer] in *. lia. }
  rewrite Hex in *.
  exists b'. split; [exact Hpush|]. split; [exact Hwf'|]. split; [exact Hf'|].
  split.
  - unfold sampleCount. rewrite Hwp'. unfold clear. cbn [writePosition]. lia.
  - rewrite Hcont'. unfold contents, clear. cbn [writePosition buffer Z.to_nat firstn skipn].
    reflexivity.
Qed.

End More.

Lemma readAllFrames_drains_witness :
  exists b',
    readAllFrames 2 (mk [1; 2; 3; 4; 5; 0] 5 2)
    = Some (b', map (sliceAt 2 [1; 2; 3; 4; 5]) (seq 0 2)) /\
    writePosition b' = 1 /\
    writePosition b' < frameSize b' /\
    contents b' = [5] /\
    readFrame b' = (b', None).
Proof.
  apply (readAllFrames_drains (mk [1; 2; 3; 4; 5; 0] 5 2) 2).
  - vm_compute. split; discriminate.
  - reflexivity.
  - vm_compute. lia.
Defined.

Lemma readAllFrames_needs_positive_frame_size_witness :
  readAllFrames 5 (mk ([] : list Z) 0 0) = None.
Proof.
  apply (readAllFrames_needs_positive_frame_size (mk ([] : list Z) 0 0));
    cbn [frameSize writePosition]; lia.
Defined.

Lemma peek_cases_witness :
  peek (mk [1; 2; 3; 0; 0] 3 2) None = contents (mk [1; 2; 3; 0; 0] 3 2) /\
  (0 <= -1 ->
   peek (mk [1; 2; 3; 0; 0] 3 2) (Some (-1))
   = firstn (Z.to_nat (-1)) (contents (mk [1; 2; 3; 0; 0] 3 2))) /\
  (-1 < 0 ->
   peek (mk [1; 2; 3; 0; 0] 3 2) (Some (-1))
   = firstn (Z.to_nat (capacity (mk [1; 2; 3; 0; 0] 3 2) + -1)) [1; 2; 3; 0; 0]).
Proof.
  apply (peek_cases (mk [1; 2; 3; 0; 0] 3 2) (-1)).
  unfold wf, capacity, len. cbn. lia.
Defined.

Lemma oversized_push_wedges_witness :
  exists b1,
    push (mk [0; 0] 0 2) [1; 2; 3]
    = (b1, Thrown "RangeError: offset is out of bounds") /\
    wedged b1 /\
    (forall b2 : AudioBuffer.t Z, wedged b2 ->
       readFrame b2 = (b2, None) /\
       forall more, exists b3,
         push b2 more = (b3, Thrown "RangeError: offset is out of bounds") /\
         wedged b3).
Proof.
  apply (oversized_push_wedges (mk [0; 0] 0 2) [1; 2; 3]).
  - unfold wf, capacity, len. cbn. lia.
  - cbn. lia.
  - unfold capacity, len. cbn. lia.
Defined.

Lemma clear_recovers_witness :
  exists b',
    push (clear (mk [0; 0] (-1) 2)) [7; 8] = (b', Returned tt) /\
    wf b' /\ frameSize b' = 2 /\ sampleCount b' = len [7; 8] /\
    contents b' = [7; 8].
Proof.
  apply (clear_recovers (mk [0; 0] (-1) 2) [7; 8]).
  unfold capacity, len. cbn. lia.
Defined.

End AudioBufferMore.

(** ** The mu-law codec: order, symmetry and transcoding *)

Module CodecProofs.
Import Mulaw.

Lemma monotone_checked : allFrom monotoneAt 16 (-32768) = true.
Proof. vm_compute. reflexivity. Qed.

Lemma odd_checked : allFrom oddAt 16 (-32768) = true.
Proof. vm_compute. reflexivity. Qed.

Lemma transcode_checked :
  allFrom (fun byte => encodeMulawSample (decodeSample byte) =? canonicalByte byte) 8 0
  = true.
Proof. vm_compute. reflexivity. Qed.

Lemma magnitude_checked : allFrom magnitudeBelowOne 8 0 = true.
Proof. vm_compute. reflexivity. Qed.

Lemma roundTrip_next (x : Z) :
  -32768 <= x <= 32767 -> roundTrip x <= roundTrip (x + 1).
Proof.
  intros Hx. apply Z.leb_le. change (monotoneAt x = true).
  apply (allFrom_spec monotoneAt 16 (-32768) monotone_checked).
  change (2 ^ Z.of_nat 16) with 65536. lia.
Qed.

(** X6.  Encoding and decoding keeps the order of samples: of two 16-bit
    PCM values the larger one never comes back as the smaller. *)
Theorem roundTrip_monotone (x y : Z) :
  -32768 <= x -> x <= y -> y <= 32767 -> roundTrip x <= roundTrip y.
Proof.
  intros Hlo Hxy Hhi.
  remember (Z.to_nat (y - x)) as n eqn:Hn.
  revert y Hxy Hhi Hn. induction n as [|n IH]; intros y Hxy Hhi Hn.
  - assert (y = x) by lia. subst y. lia.
  - apply Z.le_trans with (roundTrip (y - 1)).
    + apply IH; lia.
    + replace y with (y - 1 + 1) at 2 by lia. apply roundTrip_next. lia.
Qed.

(** X7.  The codec treats the two polarities alike: the negated sample
    comes back as the negated value, and no value that comes back is
    above 32124 in magnitude, the largest entry of the table. *)
Theorem roundTrip_odd (x : Z) :
  -32768 <= x <= 32767 ->
  roundTrip (- x) = - roundTrip x /\ Z.abs (roundTrip x) <= 32124.
Proof.
  intros Hx.
  assert (H : oddAt x = true).
  { apply (allFrom_spec oddAt 16 (-32768) odd_checked).
    change (2 ^ Z.of_nat 16) with 65536. lia. }
  unfold oddAt in H. apply andb_prop in H. destruct H as [Hodd Hmax].
  split; [apply Z.eqb_eq; exact Hodd|apply Z.leb_le; exact Hmax].
Qed.

Lemma canonicalByte_idempotent (byte : Z) :
  canonicalByte (canonicalByte byte) = canonicalByte byte.
Proof.
  unfold canonicalByte. destruct (byte =? 127) eqn:H; [reflexivity|].
  rewrite H. reflexivity.
Qed.

Lemma canonicalByte_range (byte : Z) :
  0 <= byte <= 255 -> 0 <= canonicalByte byte <= 255.
Proof. unfold canonicalByte. destruct (byte =? 127); lia. Qed.

Lemma transcode_byte (byte : Z) :
  0 <= byte <= 255 -> encodeMulawSample (decodeSample byte) = canonicalByte byte.
Proof.
  intros Hb.
  apply (allFrom_eqb (fun b => encodeMulawSample (decodeSample b)) canonicalByte 8 0
           transcode_checked byte).
  change (2 ^ Z.of_nat 8) with 256. lia.
Qed.

Lemma transcode_bytes (bytes : list Z) :
  Forall (fun byte => 0 <= byte <= 255) bytes ->
  pcmToMulaw (mulawToPcm bytes) = map canonicalByte bytes.
Proof.
  intros Hall. unfold pcmToMulaw, mulawToPcm. rewrite map_map.
  induction Hall as [|byte rest Hb _ IH]; [reflexivity|].
  cbn [map]. rewrite IH. f_equal. apply (transcode_byte byte Hb).
Qed.

(** X8.  Telephone audio that is decoded and encoded again is unchanged:
    [pcmToMulaw(mulawToPcm(bytes))] gives the bytes back, the second code
    of silence, 0x7F, excepted, which becomes 0xFF; a second pass
    changes nothing any more. *)
Theorem transcoding_stable (bytes : list Z) :
  Forall (fun byte => 0 <= byte <= 255) bytes ->
  pcmToMulaw (mulawToPcm bytes) = map canonicalByte bytes /\
  pcmToMulaw (mulawToPcm (pcmToMulaw (mulawToPcm bytes)))
  = pcmToMulaw (mulawToPcm bytes).
Proof.
  intros Hall. split; [apply transcode_bytes; exact Hall|].
  rewrite (transcode_bytes bytes Hall). rewrite transcode_bytes.
  - rewrite map_map. apply map_ext. intros b. apply canonicalByte_idempotent.
  - rewrite Forall_map. revert Hall. apply Forall_impl.
    intros b. apply canonicalByte_range.
Qed.

(** [mulawToPcm] gives one sample for each byte, and every sample
    lies strictly between -1 and 1. *)
Theorem mulawToPcm_range (bytes : list Z) :
  Forall (fun byte => 0 <= byte <= 255) bytes ->
  List.length (mulawToPcm bytes) = List.length bytes /\
  Forall (fun s => (JS.ofZ (-1) <? s)%float = true /\ (s <? JS.ofZ 1)%float = true)
    (mulawToPcm bytes).
Proof.
  intros Hall. unfold mulawToPcm. split; [apply length_map|].
  rewrite Forall_map. revert Hall. apply Forall_impl. intros byte Hb.
  assert (H : magnitudeBelowOne byte = true).
  { apply (allFrom_spec magnitudeBelowOne 8 0 magnitude_checked).
    change (2 ^ Z.of_nat 8) with 256. lia. }
  unfold magnitudeBelowOne in H. apply andb_prop in H. exact H.
Qed.

Lemma roundTrip_monotone_witness : roundTrip (-5) <= roundTrip 1000.
Proof. apply (roundTrip_monotone (-5) 1000); lia. Defined.

Lemma roundTrip_odd_witness :
  roundTrip (- 1000) = - roundTrip 1000 /\ Z.abs (roundTrip 1000) <= 32124.
Proof. apply (roundTrip_odd 1000). lia. Defined.

Lemma transcoding_stable_witness :
  pcmToMulaw (mulawToPcm [0; 127; 255]) = map canonicalByte [0; 127; 255] /\
  pcmToMulaw (mulawToPcm (pcmToMulaw (mulawToPcm [0; 127; 255])))
  = pcmToMulaw (mulawToPcm [0; 127; 255]).
Proof. apply transcoding_stable. repeat constructor; lia. Defined.

Lemma mulawToPcm_range_witness :
  List.length (mulawToPcm [0; 255]) = List.length [0; 255] /\
  Forall (fun s => (JS.ofZ (-1) <? s)%float = true /\ (s <? JS.ofZ 1)%float = true)
    (mulawToPcm [0; 255]).
Proof. apply mulawToPcm_range. repeat constructor; lia. Defined.

End CodecProofs.

(** ** The codec of the browser client against the server's *)

Module WebClientProofs.
Import WebClientMulaw.

Lemma sameCode_checked : allFrom sameCode 16 (-32768) = true.
Proof. vm_compute. reflexivity. Qed.

Lemma oppositeTable_checked : allFrom oppositeTable 8 0 = true.
Proof. vm_compute. reflexivity. Qed.

Lemma land_byte (a : Z) : 0 <= Z.land a 255 <= 255.
Proof.
  change 255 with (Z.ones 8) at 1 2. rewrite Z.land_ones by lia.
  change (2 ^ 8) with 256. pose proof (Z.mod_pos_bound a 256). lia.
Qed.

Lemma encodeMulawPcm_byte (x : Z) : 0 <= Mulaw.encodeMulawPcm x <= 255.
Proof.
  unfold Mulaw.encodeMulawPcm.
  destruct (Mulaw.segmentLoop 8 _ 7 16384) as [exponent mask].
  apply land_byte.
Qed.

Lemma sameCode_int16 (x : Z) :
  -32768 <= x <= 32767 -> toUint8 (encodeMuLaw x) = Mulaw.encodeMulawPcm x.
Proof.
  intros Hx. apply Z.eqb_eq. change (sameCode x = true).
  apply (allFrom_spec sameCode 16 (-32768) sameCode_checked).
  change (2 ^ Z.of_nat 16) with 65536. lia.
Qed.

(** X9.  The browser client's encoder and the server's agree: for every
    16-bit sample, the byte [encodeMuLaw] leaves in a [Uint8Array] is the
    byte the server's [encodeMulawSample] computes, although one clips
    before adding the bias and the other after. *)
Theorem web_client_encoder_agrees (x : Z) :
  -32768 <= x <= 32767 -> toUint8 (encodeMuLaw x) = Mulaw.encodeMulawPcm x.
Proof.
  exact (sameCode_int16 x).
Qed.

(** X10.  The browser client's decoding table is the server's with the
    sign turned round: every byte decodes to the negated value, so that
    what the client encodes and decodes itself comes back with its
    polarity inverted. *)
Theorem web_client_decoder_inverts (x byte : Z) :
  -32768 <= x <= 32767 -> 0 <= byte <= 255 ->
  decodeMuLaw byte = - Mulaw.decodeMulawByte byte /\
  decodeMuLaw (toUint8 (encodeMuLaw x)) = - Mulaw.roundTrip x.
Proof.
  intros Hx Hb.
  assert (Hopp : forall b, 0 <= b <= 255 -> decodeMuLaw b = - Mulaw.decodeMulawByte b).
  { intros b Hb'. apply Z.eqb_eq. change (oppositeTable b = true).
    apply (allFrom_spec oppositeTable 8 0 oppositeTable_checked).
    change (2 ^ Z.of_nat 8) with 256. lia. }
  split; [apply Hopp; exact Hb|].
  rewrite sameCode_int16 by exact Hx.
  apply Hopp. apply encodeMulawPcm_byte.
Qed.

Lemma web_client_encoder_agrees_witness :
  toUint8 (encodeMuLaw 1000) = Mulaw.encodeMulawPcm 1000.
Proof. apply (web_client_encoder_agrees 1000). lia. Defined.

Lemma web_client_decoder_inverts_witness :
  decodeMuLaw 0xCE = - Mulaw.decodeMulawByte 0xCE /\
  decodeMuLaw (toUint8 (encodeMuLaw 1000)) = - Mulaw.roundTrip 1000.
Proof. apply (web_client_decoder_inverts 1000 0xCE); lia. Defined.

End WebClientProofs.

(** ** The wire protocol: frames and their decoding *)

Module ProtocolProofs.
Import Protocol.

Lemma bytesToString_stringToBytes (s : string) : bytesToString (stringToBytes s) = s.
Proof.
  unfold stringToBytes, bytesToString. induction s as [|a s IH]; [reflexivity|].
  cbn [list_ascii_of_string map fold_right]. rewrite IH.
  rewrite N2Z.id, ascii_N_embedding. reflexivity.
Qed.

(** The frames the encoders build come back as what was put in:
    an audio frame decodes to the same bytes, a text frame to the same
    text, and neither is taken for a handshake. *)
Theorem encoded_frames_decode (opusData : list Z) (text : string) :
  decodeMessage (encodeAudioMessage opusData) = Audio opusData /\
  decodeMessage (encodeTextMessage text) = Text text /\
  isHandshake (encodeAudioMessage opusData) = false /\
  isHandshake (encodeTextMessage text) = false.
Proof.
  unfold isHandshake, encodeAudioMessage, encodeTextMessage, decodeMessage.
  cbn. rewrite bytesToString_stringToBytes. repeat split.
Qed.

Lemma decodeControlAction_unknown (code : Z) :
  code < 0 \/ 3 < code -> decodeControlAction (Some code) = "unknown"%string.
Proof.
  intros Hc. destruct code as [|p|p]; [lia| |reflexivity].
  destruct p as [[p|p|]|[p|p|]|]; try reflexivity; lia.
Qed.

(** X11.  What [decodeMessage] makes of frames it has no case for: the
    empty frame is unknown with type -1; a type byte outside 0 to 6 is
    unknown with that type, whatever follows; a frame is a handshake as
    soon as its first byte is 0, the rest is not looked at; and a control
    frame without a payload, or with an action code outside 0 to 3, has
    the action [unknown]. *)
Theorem decodeMessage_edges (t code : Z) (payload : list Z) :
  (t < 0 \/ 6 < t) -> (code < 0 \/ 3 < code) ->
  decodeMessage [] = Unknown (-1) /\
  decodeMessage (t :: payload) = Unknown t /\
  decodeMessage (HANDSHAKE :: payload) = Handshake /\
  (forall data, isHandshake data = true <-> exists rest, data = HANDSHAKE :: rest) /\
  decodeMessage [CONTROL] = Control "unknown" /\
  decodeMessage (CONTROL :: code :: payload) = Control "unknown".
Proof.
  intros Ht Hc. split; [reflexivity|]. split; [|split; [reflexivity|split; [|split]]].
  - unfold decodeMessage, HANDSHAKE, AUDIO, TEXT, CONTROL, METADATA, ERROR, PING.
    repeat match goal with
    | |- context [t =? ?k] => destruct (Z.eqb_spec t k); [lia|]
    end.
    reflexivity.
  - intros data. unfold isHandshake. split.
    + destruct data as [|m rest]; [discriminate|]. unfold decodeMessage.
      destruct (Z.eqb_spec m HANDSHAKE) as [->|Hne]; [intros _; now exists rest|].
      repeat match goal with
      | |- context [if ?b then _ else _] => destruct b
      end; discriminate.
    + intros (rest & ->). reflexivity.
  - reflexivity.
  - unfold decodeMessage. cbn [Z.eqb HANDSHAKE AUDIO TEXT CONTROL hd_error].
    change (CONTROL =? HANDSHAKE) with false. change (CONTROL =? AUDIO) with false.
    change (CONTROL =? TEXT) with false. change (CONTROL =? CONTROL) with true.
    cbv iota. cbn [hd_error]. rewrite decodeControlAction_unknown by exact Hc. reflexivity.
Qed.

Lemma decodeMessage_edges_witness :
  decodeMessage [] = Unknown (-1) /\
  decodeMessage [7; 1; 2] = Unknown 7 /\
  decodeMessage (HANDSHAKE :: [1; 2]) = Handshake /\
  (forall data, isHandshake data = true <-> exists rest, data = HANDSHAKE :: rest) /\
  decodeMessage [CONTROL] = Control "unknown" /\
  decodeMessage (CONTROL :: 9 :: [1; 2]) = Control "unknown".
Proof. apply (decodeMessage_edges 7 9 [1; 2]); lia. Defined.

End ProtocolProofs.

(** ** Resampling at the edges: empty chunks and rates that are no numbers *)

Module ResamplerEdges.
Import JS Resampler.

Lemma Prim2SF_zero : Prim2SF (ofZ 0) = S754_zero false.
Proof. reflexivity. Qed.

(** Zero divided by anything is a zero or no number. *)
Lemma zero_div (q : float) :
  Math_ceil (ofZ 0 / q)%float = Finite 0 \/ Math_ceil (ofZ 0 / q)%float = NotANumber.
Proof.
  unfold Math_ceil. rewrite FloatAxioms.div_spec, Prim2SF_zero.
  destruct (Prim2SF q) as [s|s| |s m e]; cbn; auto.
Qed.

Lemma empty_length (q : float) :
  typedArrayLength (Math_ceil (ofZ 0 / q)%float) = Returned 0.
Proof. destruct (zero_div q) as [-> | ->]; reflexivity. Qed.

(** X12.  An empty chunk gives an empty chunk, whatever the two rates
    are, zero, negative or no number included: [resample] returns an
    empty array, and so does [process], which leaves the resampler as it
    is. *)
Theorem resample_empty (fromRate toRate : float) (fuel : nat) (r : LinearResampler) :
  resample [] fromRate toRate = Returned [] /\
  process fuel r [] = Some (r, Returned []).
Proof.
  split.
  - unfold resample, outputLength. destruct (fromRate =? toRate)%float; [reflexivity|].
    cbn [length Z.of_nat]. rewrite empty_length. reflexivity.
  - unfold process. destruct (Resampler.fromRate r =? Resampler.toRate r)%float;
      [reflexivity|].
    cbn [length Z.of_nat]. rewrite empty_length. cbn [Z.to_nat fill].
    destruct r; reflexivity.
Qed.

Lemma SFeqb_refl_finite (s : bool) (m : positive) (e : Z) :
  SFeqb (S754_finite s m e) (S754_finite s m e) = true.
Proof.
  unfold SFeqb, SFcompare. destruct s; rewrite Z.compare_refl, Pos.compare_cont_refl;
    reflexivity.
Qed.

Lemma is_nan_Prim2SF (x : float) : PrimFloat.is_nan x = true -> Prim2SF x = S754_nan.
Proof.
  unfold PrimFloat.is_nan. rewrite FloatAxioms.eqb_spec.
  destruct (Prim2SF x) as [s|s| |s m e]; try reflexivity.
  - destruct s; discriminate.
  - destruct s; discriminate.
  - rewrite SFeqb_refl_finite. discriminate.
Qed.

Lemma nan_ratio (fromRate toRate : float) :
  PrimFloat.is_nan fromRate = true \/ PrimFloat.is_nan toRate = true ->
  (fromRate =? toRate)%float = false /\ Prim2SF (fromRate / toRate)%float = S754_nan.
Proof.
  intros Hnan. rewrite FloatAxioms.eqb_spec, FloatAxioms.div_spec.
  destruct Hnan as [H|H]; apply is_nan_Prim2SF in H; rewrite H.
  - split; reflexivity.
  - destruct (Prim2SF fromRate) as [s|s| |s m e]; split; reflexivity.
Qed.

Lemma nan_length (n : Z) (q : float) :
  Prim2SF q = S754_nan -> typedArrayLength (Math_ceil (ofZ n / q)%float) = Returned 0.
Proof.
  intros Hq. unfold Math_ceil. rewrite FloatAxioms.div_spec, Hq.
  destruct (Prim2SF (ofZ n)) as [s|s| |s m e]; reflexivity.
Qed.

(** X13.  A rate that is no number makes the audio vanish without an
    error: if either rate is [NaN], [resample] returns an empty array for
    every input, and so does a streaming resampler made for these rates. *)
Theorem resample_nan_rate (audio : list float) (fromRate toRate : float) (fuel : nat) :
  PrimFloat.is_nan fromRate = true \/ PrimFloat.is_nan toRate = true ->
  resample audio fromRate toRate = Returned [] /\
  process fuel (createResampler fromRate toRate) audio
  = Some (createResampler fromRate toRate, Returned []).
Proof.
  intros Hnan. destruct (nan_ratio fromRate toRate Hnan) as [Hne Hq]. split.
  - unfold resample, outputLength. rewrite Hne, (nan_length _ _ Hq). reflexivity.
  - unfold process, createResampler.
    cbn [Resampler.fromRate Resampler.toRate ratio fractionalPosition].
    rewrite Hne, (nan_length _ _ Hq). reflexivity.
Qed.

Lemma resample_nan_rate_witness :
  resample [0.5%float; 1%float] PrimFloat.nan (ofZ 24000) = Returned [] /\
  process 1 (createResampler PrimFloat.nan (ofZ 24000)) [0.5%float; 1%float]
  = Some (createResampler PrimFloat.nan (ofZ 24000), Returned []).
Proof.
  apply (resample_nan_rate [0.5%float; 1%float] PrimFloat.nan (ofZ 24000) 1).
  left. reflexivity.
Defined.

End ResamplerEdges.

(** ** The engine client: what every run of it keeps *)

Module ClientMore.
Import Protocol Client ClientProofs.

Local Arguments liveCount : simpl never.
Local Arguments retryCount : simpl never.
Local Arguments handshaken : simpl never.
Local Arguments openedCount : simpl never.

(** X14.  Whatever happens to a client after its construction, at most
    one connection attempt is under way, a socket that has not closed or
    an armed retry, and none while [isConnecting] is false. *)
Theorem one_attempt_at_a_time (o : Options) (es : list Event) (c : Client) :
  run (constructor o) es = Some c ->
  (liveCount (sockets c) + retryCount (timers c) <= 1)%nat /\
  (isConnecting c = false ->
   liveCount (sockets c) = 0%nat /\ retryCount (timers c) = 0%nat).
Proof.
  intros Hrun.
  destruct (run_inv es _ _ (constructor_inv o) Hrun) as [H1 H2 _ _ _].
  split; assumption.
Qed.

Lemma one_attempt_at_a_time_witness :
  let c := mkClient (mkOptions true true 5 1000) None 1 true false true
             [mkSocket CLOSED [] [] 0 0] [RetryTimer (1000 * JS.Math_pow 1.5 1)%float 0]
             [Pending] [] in
  (liveCount (sockets c) + retryCount (timers c) <= 1)%nat /\
  (isConnecting c = false ->
   liveCount (sockets c) = 0%nat /\ retryCount (timers c) = 0%nat).
Proof.
  intros c.
  apply (one_attempt_at_a_time (mkOptions true true 5 1000)
           [CallConnect; SocketClose 0 1006 None] c).
  reflexivity.
Defined.

(** *** A server that accepts and closes before the handshake *)

Section FlappingServer.
Variable o : Options.
Hypothesis valid : validUrl o = true.
Hypothesis retries : 0 < maxReconnectAttempts o.

Lemma flapping_round (j : nat) :
  run (flapped o j) [SocketOpen j; SocketClose j 1006 None; TimerFire 0]
  = Some (flapped o (S j)).
Proof.
  unfold run, step, flapped. cbn [sockets].
  rewrite nth_error_repeat_snoc, replaceNth_repeat_snoc.
  unfold onOpen. client_simpl.
  rewrite nth_error_repeat_snoc, replaceNth_repeat_snoc.
  unfold onClose. client_simpl.
  apply Z.ltb_lt in retries. rewrite retries. client_simpl.
  unfold connectInternal. client_simpl. rewrite valid. client_simpl.
  fold closedSocket. rewrite !repeat_snoc.
  rewrite repeat_length. reflexivity.
Qed.

Lemma flapping_rounds (n : nat) :
  forall j, run (flapped o j) (flappingServer n j) = Some (flapped o (j + n)).
Proof.
  induction n as [|n IH]; intros j.
  - rewrite Nat.add_0_r. reflexivity.
  - change (flappingServer (S n) j)
      with ([SocketOpen j; SocketClose j 1006 None; TimerFire 0]
              ++ flappingServer n (S j)).
    rewrite run_app, flapping_round, IH. do 2 f_equal. lia.
Qed.

End FlappingServer.

(** X15.  A server that accepts every socket and closes it before the
    handshake is retried without end: every 'open' sets the attempt
    counter back, so however many rounds have passed, the promise of
    [connect()] is still pending, the counter is at most 1 and the next
    socket is connecting; [maxReconnectAttempts] never comes into play. *)
Theorem flapping_server_never_exhausts (o : Options) (n : nat) :
  validUrl o = true -> 0 < maxReconnectAttempts o ->
  exists c,
    run (constructor o) (CallConnect :: flappingServer n 0) = Some c /\
    promises c = [Pending] /\
    reconnectAttempts c <= 1 /\
    socketState c n = Some CONNECTING /\
    isConnecting c = true.
Proof.
  intros Hvalid Hmax. exists (flapped o n).
  split; [|split; [reflexivity|split; [|split; [|reflexivity]]]].
  - cbn [run]. rewrite (connect_fresh o Hvalid).
    change (attempting o 0) with (flapped o 0).
    apply (flapping_rounds o Hvalid Hmax n 0).
  - unfold flapped. cbn [reconnectAttempts]. destruct n; lia.
  - unfold socketState, flapped. cbn [sockets].
    rewrite nth_error_repeat_snoc. reflexivity.
Qed.

Lemma flapping_server_never_exhausts_witness :
  exists c,
    run (constructor (mkOptions true true 1 1000)) (CallConnect :: flappingServer 3 0)
    = Some c /\
    promises c = [Pending] /\
    reconnectAttempts c <= 1 /\
    socketState c 3 = Some CONNECTING /\
    isConnecting c = true.
Proof.
  apply (flapping_server_never_exhausts (mkOptions true true 1 1000) 3).
  - reflexivity.
  - cbn. lia.
Defined.

(** *** [close()] *)

Lemma nth_error_replaceNth {A : Type} (l : list A) :
  forall s x y, nth_error l s = Some y -> nth_error (replaceNth s x l) s = Some x.
Proof.
  induction l as [|a l IH]; intros s x y Hs; destruct s; cbn in Hs; try discriminate.
  - reflexivity.
  - cbn [replaceNth nth_error]. apply (IH s x y Hs).
Qed.

Lemma replaceNth_twice {A : Type} (l : list A) :
  forall s x y, replaceNth s x (replaceNth s y l) = replaceNth s x l.
Proof.
  induction l as [|a l IH]; intros s x y; destruct s; cbn [replaceNth]; try reflexivity.
  now rewrite IH.
Qed.

Lemma length_replaceNth {A : Type} (l : list A) :
  forall s x, length (replaceNth s x l) = length l.
Proof.
  induction l as [|a l IH]; intros s x; destruct s; cbn [replaceNth length];
    try reflexivity.
  now rewrite IH.
Qed.

(** X16.  [close()] on a client whose socket is still connecting does not
    close that socket: the client lets go of it ([ws] is [null]) while
    the socket stays and keeps its listeners.  A [connect()] after it
    returns at once without a new attempt, as [isConnecting] is still
    set; and when the socket opens and delivers the handshake, the client
    turns ready on a socket it no longer holds, so that [connected] is
    false and [sendAudio] throws. *)
Theorem close_while_connecting_leaks (c : Client) (s : nat)
    (st rc : list (list Z)) (fl cw : nat) :
  ws c = Some s ->
  nth_error (sockets c) s = Some (mkSocket CONNECTING st rc fl cw) ->
  isConnecting c = true ->
  let c1 := close c in
  ws c1 = None /\
  socketState c1 s = Some CONNECTING /\
  connect c1 = (c1, AlreadyResolved) /\
  exists c2 c3,
    step c1 (SocketOpen s) = Some c2 /\
    step c2 (SocketMessage s [HANDSHAKE]) = Some c3 /\
    isReady c3 = true /\
    socketState c3 s = Some OPEN /\
    connected c3 = false /\
    forall d, sendAudio d c3 = (c3, Thrown "Client is not connected").
Proof.
  intros Hws Hs Hic c1.
  assert (Hc1 : c1 = set_isReady false
                       (set_ws None
                          (set_sockets
                             (replaceNth s (mkSocket CONNECTING st rc fl (S cw)) (sockets c))
                             (set_shouldReconnect false c)))).
  { unfold c1, close.
    replace (ws (set_shouldReconnect false c)) with (Some s)
      by (destruct c; cbn in *; congruence).
    replace (sockets (set_shouldReconnect false c)) with (sockets c)
      by (destruct c; reflexivity).
    rewrite Hs. reflexivity. }
  clearbody c1. subst c1.
  destruct c as [o w n ic ir sr sks tm pr em]. cbn in Hws, Hs, Hic. subst w ic.
  client_simpl.
  pose proof (nth_error_replaceNth sks s (mkSocket CONNECTING st rc fl (S cw)) _ Hs) as H1.
  split; [reflexivity|]. split.
  - unfold socketState. client_simpl. rewrite H1. reflexivity.
  - split; [reflexivity|].
    unfold step. client_simpl. rewrite H1.
    eexists. eexists. split; [reflexivity|].
    unfold onOpen. client_simpl. rewrite replaceNth_twice.
    rewrite (nth_error_replaceNth sks s (mkSocket OPEN st rc fl (S cw)) _ Hs).
    split; [reflexivity|].
    rewrite replaceNth_twice.
    unfold handleMessage.
    change (decodeMessage [HANDSHAKE]) with Handshake. cbv iota.
    match goal with
    | |- context [settle ?a ?b ?d] =>
        destruct (settle_core a b d) as (Hic & Hir & Hsk & Htm);
        assert (Hws' : ws (settle a b d) = None)
          by (unfold settle; destruct (nth_error (promises d) a) as [[| |]|]; reflexivity);
        generalize dependent (settle a b d)
    end.
    intros c3 Hic Hir Hsk Htm Hws'. cbn in Hir, Hsk.
    split; [exact Hir|]. split.
    + unfold socketState. rewrite Hsk.
      rewrite (nth_error_replaceNth sks s _ _ Hs). reflexivity.
    + split.
      * unfold connected, wsIsOpen. rewrite Hws'. apply andb_false_r.
      * intros d. unfold sendAudio. rewrite Hws'. reflexivity.
Qed.

Lemma close_while_connecting_leaks_witness :
  let c := mkClient (mkOptions true true 5 1000) (Some 0%nat) 0 true false true
             [mkSocket CONNECTING [] [] 0 0] [] [Pending] [] in
  let c1 := close c in
  ws c1 = None /\
  socketState c1 0 = Some CONNECTING /\
  connect c1 = (c1, AlreadyResolved) /\
  exists c2 c3,
    step c1 (SocketOpen 0) = Some c2 /\
    step c2 (SocketMessage 0 [HANDSHAKE]) = Some c3 /\
    isReady c3 = true /\
    socketState c3 0 = Some OPEN /\
    connected c3 = false /\
    forall d, sendAudio d c3 = (c3, Thrown "Client is not connected").
Proof.
  intros c.
  apply (close_while_connecting_leaks c 0 [] [] 0 0); reflexivity.
Defined.

Lemma close_keeps (c : Client) :
  timers (close c) = timers c /\
  shouldReconnect (close c) = false /\
  isConnecting (close c) = isConnecting c /\
  options (close c) = options c /\
  promises (close c) = promises c /\
  length (sockets (close c)) = length (sockets c) /\
  wsIsOpen (close c) = false.
Proof.
  unfold close.
  destruct c as [o w n ic ir sr sks tm pr em]. client_simpl.
  destruct w as [s|]; [|repeat split].
  destruct (nth_error sks s) as [[r st rc fl cw]|] eqn:Hs.
  - client_simpl. destruct r; client_simpl;
      repeat split; try apply length_replaceNth.
    unfold wsIsOpen, socketState. client_simpl.
    rewrite (nth_error_replaceNth sks s _ _ Hs). reflexivity.
  - repeat split. unfold wsIsOpen, socketState. client_simpl. rewrite Hs. reflexivity.
Qed.

(** X17.  [close()] disarms no timer.  A retry or a reconnection that is
    armed when [close()] is called still fires afterwards, and then opens
    a new socket; the reconnection, going through [connect()], also sets
    [shouldReconnect] back to true. *)
Theorem armed_timer_survives_close (c : Client) (i : nat) (t : Timer) :
  validUrl (options c) = true ->
  nth_error (timers c) i = Some t ->
  (isRetry t = false -> isConnecting c = false) ->
  timers (close c) = timers c /\
  shouldReconnect (close c) = false /\
  exists c' fl,
    step (close c) (TimerFire i) = Some c' /\
    sockets c' = sockets (close c) ++ [mkSocket CONNECTING [] [] fl 0] /\
    ws c' = Some (length (sockets (close c))) /\
    (isRetry t = false -> shouldReconnect c' = true).
Proof.
  intros Hvalid Hi Hic.
  destruct (close_keeps c) as (Htm & Hsr & Hic' & Hopt & Hpr & Hlen & Hopen).
  split; [exact Htm|]. split; [exact Hsr|].
  unfold step. rewrite Htm, Hi.
  generalize dependent (close c). intros c1 Htm Hsr Hic' Hopt Hpr Hlen Hopen.
  destruct t as [d fl|d].
  - eexists. exists fl. split; [reflexivity|].
    unfold connectInternal.
    replace (validUrl (options (set_timers (removeNth i (timers c)) c1))) with true
      by (destruct c1; cbn in *; congruence).
    destruct c1; cbn. repeat split. discriminate.
  - specialize (Hic eq_refl).
    eexists. exists (length (promises c1)). split; [reflexivity|].
    unfold connect.
    replace (wsIsOpen (set_timers (removeNth i (timers c)) c1)) with false
      by (destruct c1; exact (eq_sym Hopen)).
    replace (isConnecting (set_timers (removeNth i (timers c)) c1)) with false
      by (destruct c1; cbn in *; congruence).
    cbn [fst]. unfold connectInternal.
    destruct c1 as [o w n ic ir sr sks tm pr em]. cbn in Hopt. subst o.
    client_simpl. rewrite Hvalid. client_simpl. repeat split.
Qed.

Lemma armed_timer_survives_close_witness :
  let c := mkClient (mkOptions true true 5 1000) (Some 0%nat) 1 false false true
             [mkSocket CLOSED [] [[0]] 0 0] [ReconnectTimer 1000] [Resolved] [] in
  timers (close c) = timers c /\
  shouldReconnect (close c) = false /\
  exists c' fl,
    step (close c) (TimerFire 0) = Some c' /\
    sockets c' = sockets (close c) ++ [mkSocket CONNECTING [] [] fl 0] /\
    ws c' = Some (length (sockets (close c))) /\
    (isRetry (ReconnectTimer 1000) = false -> shouldReconnect c' = true).
Proof.
  intros c.
  apply (armed_timer_survives_close c 0 (ReconnectTimer 1000)); reflexivity.
Defined.

Lemma quiet_step (c c' : Client) (e : Event) :
  shouldReconnect c = false -> timers c = [] -> isConnect e = false ->
  step c e = Some c' ->
  shouldReconnect c' = false /\ timers c' = [] /\
  length (sockets c') = length (sockets c).
Proof.
  intros Hsr Htm He.
  destruct c as [o w n ic ir sr sks tm pr em]. cbn in Hsr, Htm. subst sr tm.
  destruct e as [|d| |s|s d|s m|s code r|i]; try discriminate; unfold step.
  - intros [= <-]. unfold sendAudio. client_simpl.
    destruct w as [s|]; [|repeat split].
    destruct (nth_error sks s) as [sk|]; [|repeat split].
    destruct (negb ir || negb (isOpen (readyState sk)))%bool; cbn [fst]; client_simpl;
      repeat split. apply length_replaceNth.
  - intros [= <-].
    destruct (close_keeps (mkClient o w n ic ir false sks [] pr em))
      as (Htm & Hsr & _ & _ & _ & Hlen & _).
    repeat split; assumption.
  - client_simpl. destruct (nth_error sks s) as [[r st rc fl cw]|]; [|discriminate].
    destruct r; try discriminate. intros [= <-]. unfold onOpen. client_simpl.
    repeat split. apply length_replaceNth.
  - client_simpl. destruct (nth_error sks s) as [[r st rc fl cw]|]; [|discriminate].
    intros Hstep.
    assert (Hc' : c' = handleMessage d fl
                         (mkClient o w n ic ir false
                            (replaceNth s (mkSocket r st (rc ++ [d]) fl cw) sks) [] pr em))
      by (destruct r; try discriminate; now injection Hstep as <-).
    subst c'. clear Hstep.
    match goal with
    | |- context [handleMessage ?a ?b ?x] =>
        destruct (handleMessage_core a b x) as (_ & _ & Hsk & Htm);
        assert (Hsr : shouldReconnect (handleMessage a b x) = false)
    end.
    { unfold handleMessage. destruct (decodeMessage d); client_simpl; try reflexivity.
      unfold settle. client_simpl.
      destruct (nth_error pr fl) as [[| |]|]; reflexivity. }
    rewrite Hsk, Htm. client_simpl. repeat split; [exact Hsr|apply length_replaceNth].
  - client_simpl. destruct (nth_error sks s) as [[r st rc fl cw]|]; [|discriminate].
    destruct r; try discriminate; intros [= <-]; repeat split.
  - client_simpl. destruct (nth_error sks s) as [[r0 st rc fl cw]|]; [|discriminate].
    intros Hstep.
    set (c1 := mkClient o w n ic ir false (replaceNth s (mkSocket CLOSED st rc fl 0) sks)
                 [] pr em) in *.
    assert (Hc' : c' = match cw with
                       | O => onClose fl code r c1
                       | S _ => onCloseOnce (onClose fl code r c1)
                       end)
      by (destruct r0; try discriminate; now injection Hstep as <-).
    subst c'. clear Hstep.
    assert (Hclose : shouldReconnect (onClose fl code r c1) = false /\
                     timers (onClose fl code r c1) = [] /\
                     length (sockets (onClose fl code r c1)) = length sks).
    { unfold onClose, c1. client_simpl. rewrite andb_false_r.
      destruct ir; client_simpl.
      - repeat split. apply length_replaceNth.
      - unfold settle. client_simpl.
        destruct (nth_error pr fl) as [[| |]|]; client_simpl; repeat split;
          apply length_replaceNth. }
    destruct cw; [exact Hclose|].
    destruct (onClose fl code r c1). exact Hclose.
  - client_simpl. destruct i; discriminate.
Qed.

(** X18.  With no timer armed, [close()] is final: as long as
    [connect()] is not called again, whatever the sockets do, the client
    arms no timer, opens no socket and stays unwilling to reconnect. *)
Theorem close_is_final_without_timers (c : Client) (es : list Event) (c' : Client) :
  timers c = [] ->
  forallb (fun e => negb (isConnect e)) es = true ->
  run (close c) es = Some c' ->
  shouldReconnect c' = false /\ timers c' = [] /\
  length (sockets c') = length (sockets c).
Proof.
  intros Htm Hes Hrun.
  destruct (close_keeps c) as (Htm1 & Hsr1 & _ & _ & _ & Hlen1 & _).
  rewrite Htm in Htm1. rewrite <- Hlen1.
  generalize dependent (close c). intros c1 Hrun Htm1 Hsr1 _.
  revert c1 Hrun Htm1 Hsr1. induction es as [|e es IH]; intros c1 Hrun Htm1 Hsr1.
  - injection Hrun as <-. repeat split; assumption.
  - cbn [forallb] in Hes. apply andb_prop in Hes. destruct Hes as [He Hes].
    cbn [run] in Hrun. destruct (step c1 e) as [c2|] eqn:Hstep; [|discriminate].
    destruct (quiet_step c1 c2 e Hsr1 Htm1) as (Hsr2 & Htm2 & Hlen2);
      [now destruct (isConnect e)|exact Hstep|].
    rewrite <- Hlen2. apply (IH Hes c2 Hrun Htm2 Hsr2).
Qed.

Lemma close_is_final_without_timers_witness :
  let c := mkClient (mkOptions true true 5 1000) (Some 0%nat) 0 true true true
             [mkSocket OPEN [] [[0]] 0 0] [] [Resolved] [] in
  let c' := mkClient (mkOptions true true 5 1000) None 0 false false false
              [mkSocket CLOSED [] [[0]] 0 0] [] [Resolved] [EvDisconnected "Code: 1000"] in
  shouldReconnect c' = false /\ timers c' = [] /\
  length (sockets c') = length (sockets c).
Proof.
  intros c c'.
  apply (close_is_final_without_timers c [SocketClose 0 1000 None] c'); reflexivity.
Defined.

(** *** How the sockets of a client change *)

Lemma connectInternal_sockets (fl : nat) (c : Client) :
  sockets (connectInternal fl c) = sockets c \/
  sockets (connectInternal fl c) = sockets c ++ [mkSocket CONNECTING [] [] fl 0].
Proof.
  unfold connectInternal. destruct (validUrl (options c)).
  - right. destruct c; reflexivity.
  - left.
    destruct (settle_core fl (Rejected "TypeError: Invalid URL") (set_isConnecting false c))
      as (_ & _ & -> & _).
    destruct c; reflexivity.
Qed.

Lemma connect_sockets (c : Client) :
  sockets (fst (connect c)) = sockets c \/
  exists fl, sockets (fst (connect c)) = sockets c ++ [mkSocket CONNECTING [] [] fl 0].
Proof.
  unfold connect. destruct (wsIsOpen c); [now left|].
  destruct (isConnecting c); [now left|]. cbn [fst].
  match goal with
  | |- context [connectInternal ?fl ?x] =>
      destruct (connectInternal_sockets fl x) as [H|H]; rewrite H
  end.
  - left. destruct c; reflexivity.
  - right. eexists. destruct c; reflexivity.
Qed.

(** An event leaves the sockets as they are, adds a connecting one, or
    changes one of them. *)
Lemma step_sockets (c c' : Client) (e : Event) :
  step c e = Some c' ->
  sockets c' = sockets c \/
  (exists fl, sockets c' = sockets c ++ [mkSocket CONNECTING [] [] fl 0]) \/
  (exists s sk sk',
     nth_error (sockets c) s = Some sk /\ SocketChange sk sk' /\
     sockets c' = replaceNth s sk' (sockets c)).
Proof.
  destruct e as [|d| |s|s d|s m|s code r|i]; unfold step.
  - intros [= <-]. destruct (connect_sockets c) as [H|H]; auto.
  - intros [= <-]. unfold sendAudio.
    destruct (ws c) as [s|]; [|now left].
    destruct (nth_error (sockets c) s) as [[r st rc fl cw]|] eqn:Hs; [|now left].
    destruct (isReady c); [|now left].
    destruct r; cbn [readyState isOpen negb orb fst]; try now left.
    right. right. exists s. do 2 eexists. split; [exact Hs|]. split; [apply ChangeSend|].
    destruct c; reflexivity.
  - intros [= <-]. unfold close.
    replace (ws (set_shouldReconnect false c)) with (ws c) by (destruct c; reflexivity).
    replace (sockets (set_shouldReconnect false c)) with (sockets c)
      by (destruct c; reflexivity).
    destruct (ws c) as [s|]; [|left; destruct c; reflexivity].
    destruct (nth_error (sockets c) s) as [[r st rc fl cw]|] eqn:Hs;
      [|left; destruct c; reflexivity].
    right. right. exists s.
    destruct r; cbn [readyState isOpen]; do 2 eexists; (split; [exact Hs|]);
      (split; [first [apply ChangeClosing|apply ChangeWaiter]|destruct c; reflexivity]).
  - destruct (nth_error (sockets c) s) as [[r st rc fl cw]|] eqn:Hs; [|discriminate].
    destruct r; try discriminate. intros [= <-].
    right. right. exists s. do 2 eexists. split; [exact Hs|]. split; [apply ChangeOpen|].
    destruct c; reflexivity.
  - destruct (nth_error (sockets c) s) as [[r st rc fl cw]|] eqn:Hs; [|discriminate].
    intros Hstep.
    assert (Hr : (r = OPEN \/ r = CLOSING) /\
                 c' = handleMessage d fl
                        (set_sockets
                           (replaceNth s (mkSocket r st (rc ++ [d]) fl cw) (sockets c)) c)).
    { destruct r; try discriminate; injection Hstep as <-; auto. }
    destruct Hr as [Hr ->].
    right. right. exists s. do 2 eexists. split; [exact Hs|].
    split; [apply (ChangeMessage r st rc fl cw d Hr)|].
    match goal with
    | |- context [handleMessage ?a ?b ?x] =>
        destruct (handleMessage_core a b x) as (_ & _ & -> & _)
    end.
    destruct c; reflexivity.
  - destruct (nth_error (sockets c) s) as [[r st rc fl cw]|]; [|discriminate].
    destruct r; try discriminate; intros [= <-]; left; destruct c; reflexivity.
  - destruct (nth_error (sockets c) s) as [[r0 st rc fl cw]|] eqn:Hs; [|discriminate].
    intros Hstep.
    set (c1 := set_sockets (replaceNth s (mkSocket CLOSED st rc fl 0) (sockets c)) c) in *.
    assert (Hc' : c' = match cw with
                       | O => onClose fl code r c1
                       | S _ => onCloseOnce (onClose fl code r c1)
                       end)
      by (destruct r0; try discriminate; now injection Hstep as <-).
    subst c'. clear Hstep.
    right. right. exists s. do 2 eexists. split; [exact Hs|].
    split; [apply ChangeClosed|].
    destruct (onClose_shape fl code r c1) as (_ & Hsk & _).
    assert (Hsk1 : sockets c1 = replaceNth s (mkSocket CLOSED st rc fl 0) (sockets c))
      by (destruct c; reflexivity).
    rewrite <- Hsk1, <- Hsk. destruct cw; [reflexivity|].
    destruct (onClose fl code r c1); reflexivity.
  - destruct (nth_error (timers c) i) as [t|]; [|discriminate].
    set (c1 := set_timers (removeNth i (timers c)) c).
    assert (Hsk1 : sockets c1 = sockets c) by (destruct c; reflexivity).
    destruct t as [d fl|d]; intros [= <-]; rewrite <- Hsk1.
    + destruct (connectInternal_sockets fl c1) as [H|H]; eauto.
    + destruct (connect_sockets c1) as [H|H]; auto.
Qed.

(** What holds of a new socket and is kept by every change of a socket
    holds of all sockets of a client, whatever happens to it. *)
Lemma sockets_always (P : Socket -> Prop) :
  (forall fl, P (mkSocket CONNECTING [] [] fl 0)) ->
  (forall sk sk', SocketChange sk sk' -> P sk -> P sk') ->
  forall es c c', run c es = Some c' ->
  Forall P (sockets c) -> Forall P (sockets c').
Proof.
  intros Hnew Hkeep. induction es as [|e es IH]; intros c c' Hrun Hall; cbn [run] in Hrun.
  - now injection Hrun as <-.
  - destruct (step c e) as [c1|] eqn:Hstep; [|discriminate].
    apply (IH c1 c' Hrun).
    destruct (step_sockets c c1 e Hstep) as [->|[(fl & ->)|(s & sk & sk' & Hs & Hch & ->)]].
    + exact Hall.
    + apply Forall_app. split; [exact Hall|]. constructor; [apply Hnew|constructor].
    + apply Forall_replaceNth; [exact Hall|].
      apply (Hkeep sk sk' Hch). apply (Forall_nth_error _ _ _ _ Hall Hs).
Qed.

(** X19.  The only frames a client ever gives to a socket are audio
    frames: whatever happens to it, every frame sent begins with the
    type byte 0x01. *)
Theorem only_audio_frames_sent (o : Options) (es : list Event) (c : Client) :
  run (constructor o) es = Some c ->
  Forall (fun sk => forallb isAudioFrame (sent sk) = true) (sockets c).
Proof.
  intros Hrun.
  apply (sockets_always (fun sk => forallb isAudioFrame (sent sk) = true))
    with (es := es) (c := constructor o); [| |exact Hrun|constructor].
  - reflexivity.
  - intros sk sk' Hch. destruct Hch; cbn [sent]; auto.
    rewrite forallb_app. intros ->. reflexivity.
Qed.

Lemma only_audio_frames_sent_witness :
  Forall (fun sk => forallb isAudioFrame (sent sk) = true)
    [mkSocket OPEN [[1; 7; 8]] [[0]] 0 0].
Proof.
  apply (only_audio_frames_sent (mkOptions true true 5 1000)
           [CallConnect; SocketOpen 0; SocketMessage 0 [0]; CallSendAudio [7; 8]]
           (mkClient (mkOptions true true 5 1000) (Some 0%nat) 0 true true true
              [mkSocket OPEN [[1; 7; 8]] [[0]] 0 0] [] [Resolved]
              [EvConnected; EvMessage Handshake; EvReady])).
  reflexivity.
Defined.

(** *** The attempt counter of a ready client *)

Lemma openedCount_cons (sk : Socket) (l : list Socket) :
  openedCount (sk :: l) = (Nat.b2n (isOpened sk) + openedCount l)%nat.
Proof. unfold openedCount. cbn [filter]. destruct (isOpened sk); reflexivity. Qed.

Lemma openedCount_app (l1 l2 : list Socket) :
  openedCount (l1 ++ l2) = (openedCount l1 + openedCount l2)%nat.
Proof. unfold openedCount. rewrite filter_app, length_app. reflexivity. Qed.

Lemma openedCount_replaceNth (l : list Socket) :
  forall s sk sk', nth_error l s = Some sk ->
  (openedCount (replaceNth s sk' l) + Nat.b2n (isOpened sk)
   = openedCount l + Nat.b2n (isOpened sk'))%nat.
Proof.
  induction l as [|x l IH]; intros s sk sk' Hs; destruct s; cbn in Hs; try discriminate.
  - injection Hs as ->. cbn [replaceNth]. rewrite !openedCount_cons. lia.
  - cbn [replaceNth]. rewrite !openedCount_cons. specialize (IH s sk sk' Hs). lia.
Qed.

Lemma opened_le_live (l : list Socket) : (openedCount l <= liveCount l)%nat.
Proof.
  induction l as [|[r st rc fl cw] l IH]; [reflexivity|].
  rewrite openedCount_cons, liveCount_cons.
  destruct r; cbn; lia.
Qed.

Lemma openedCount_pos (l : list Socket) (s : nat) (sk : Socket) :
  nth_error l s = Some sk -> isOpened sk = true -> (0 < openedCount l)%nat.
Proof.
  revert s. induction l as [|y l IH]; intros s Hs Ho;
    destruct s; cbn in Hs; try discriminate; rewrite openedCount_cons.
  - injection Hs as ->. rewrite Ho. cbn. lia.
  - specialize (IH s Hs Ho). lia.
Qed.

Lemma live_socket (l : list Socket) :
  (0 < liveCount l)%nat -> exists s sk, nth_error l s = Some sk /\ isLive sk = true.
Proof.
  induction l as [|x l IH]; [unfold liveCount; cbn; lia|]. rewrite liveCount_cons.
  destruct (isLive x) eqn:Hx.
  - intros _. exists 0%nat, x. split; [reflexivity|exact Hx].
  - cbn. intros Hl. destruct (IH Hl) as (s & sk & Hs & Hlive).
    exists (S s), sk. split; assumption.
Qed.

Lemma settle_attempts (fl : nat) (p : Promise) (c : Client) :
  reconnectAttempts (settle fl p c) = reconnectAttempts c.
Proof.
  unfold settle. destruct (nth_error (promises c) fl) as [[| |]|]; destruct c; reflexivity.
Qed.

Lemma handleMessage_attempts (data : list Z) (fl : nat) (c : Client) :
  reconnectAttempts (handleMessage data fl c) = reconnectAttempts c.
Proof.
  unfold handleMessage. destruct (decodeMessage data);
    rewrite ?settle_attempts; destruct c; reflexivity.
Qed.

Lemma connectInternal_fresh (fl : nat) (c : Client) :
  (0 < openedCount (sockets (connectInternal fl c)))%nat ->
  (0 < openedCount (sockets c))%nat.
Proof.
  destruct (connectInternal_sockets fl c) as [-> | ->]; [auto|].
  rewrite openedCount_app. unfold openedCount. cbn. lia.
Qed.

Lemma connectInternal_attempts (fl : nat) (c : Client) :
  reconnectAttempts (connectInternal fl c) = reconnectAttempts c.
Proof.
  unfold connectInternal. destruct (validUrl (options c)).
  - destruct c; reflexivity.
  - rewrite settle_attempts. destruct c; reflexivity.
Qed.

Lemma connect_fresh_counter (c : Client) :
  freshWhileOpen c -> freshWhileOpen (fst (connect c)).
Proof.
  intros Hk. unfold connect. destruct (wsIsOpen c); [exact Hk|].
  destruct (isConnecting c); [exact Hk|]. cbn [fst].
  intros _. rewrite connectInternal_attempts. destruct c; reflexivity.
Qed.

Lemma step_freshWhileOpen (c c' : Client) (e : Event) :
  Inv c -> freshWhileOpen c -> step c e = Some c' -> freshWhileOpen c'.
Proof.
  intros Hinv Hk. destruct e as [|d| |s|s d|s m|s code r|i]; unfold step.
  - intros [= <-]. now apply connect_fresh_counter.
  - intros [= <-]. unfold sendAudio.
    destruct (ws c) as [s|]; [|exact Hk].
    destruct (nth_error (sockets c) s) as [[r st rc fl cw]|] eqn:Hs; [|exact Hk].
    destruct (isReady c); [|exact Hk].
    destruct r; cbn [readyState isOpen negb orb fst]; try exact Hk.
    pose proof (openedCount_replaceNth _ _ _
                  (mkSocket OPEN (st ++ [encodeAudioMessage d]) rc fl cw) Hs) as Hcount.
    unfold freshWhileOpen in *. destruct c; cbn in *. intros Hpos. apply Hk. lia.
  - intros [= <-]. unfold close.
    replace (ws (set_shouldReconnect false c)) with (ws c) by (destruct c; reflexivity).
    replace (sockets (set_shouldReconnect false c)) with (sockets c)
      by (destruct c; reflexivity).
    destruct (ws c) as [s|]; [|destruct c; exact Hk].
    destruct (nth_error (sockets c) s) as [[r st rc fl cw]|] eqn:Hs;
      [|destruct c; exact Hk].
    unfold freshWhileOpen in *.
    destruct r; cbn [readyState isOpen];
      match goal with
      | |- context [replaceNth s ?x _] =>
          pose proof (openedCount_replaceNth _ _ _ x Hs) as Hcount
      end;
      destruct c; cbn in *; intros Hpos; apply Hk; lia.
  - destruct (nth_error (sockets c) s) as [[r st rc fl cw]|]; [|discriminate].
    destruct r; try discriminate. intros [= <-]. intros _. destruct c; reflexivity.
  - destruct (nth_error (sockets c) s) as [[r st rc fl cw]|] eqn:Hs; [|discriminate].
    intros Hstep.
    assert (Hc' : c' = handleMessage d fl
                         (set_sockets
                            (replaceNth s (mkSocket r st (rc ++ [d]) fl cw) (sockets c)) c))
      by (destruct r; try discriminate; now injection Hstep as <-).
    subst c'. clear Hstep. unfold freshWhileOpen in *.
    rewrite handleMessage_attempts.
    match goal with
    | |- context [handleMessage ?a ?b ?x] =>
        destruct (handleMessage_core a b x) as (_ & _ & -> & _)
    end.
    pose proof (openedCount_replaceNth _ _ _ (mkSocket r st (rc ++ [d]) fl cw) Hs) as Hcount.
    change (isOpened (mkSocket r st (rc ++ [d]) fl cw))
      with (isOpened (mkSocket r st rc fl cw)) in Hcount.
    destruct c; cbn [sockets set_sockets reconnectAttempts] in *.
    intros Hpos. apply Hk. lia.
  - destruct (nth_error (sockets c) s) as [[r st rc fl cw]|]; [|discriminate].
    destruct r; try discriminate; intros [= <-]; destruct c; exact Hk.
  - destruct (nth_error (sockets c) s) as [[r0 st rc fl cw]|] eqn:Hs; [|discriminate].
    intros Hstep.
    set (c1 := set_sockets (replaceNth s (mkSocket CLOSED st rc fl 0) (sockets c)) c) in *.
    assert (Hr : isLive (mkSocket r0 st rc fl cw) = true /\
                 c' = match cw with
                      | O => onClose fl code r c1
                      | S _ => onCloseOnce (onClose fl code r c1)
                      end)
      by (destruct r0; try discriminate; injection Hstep as <-; split; reflexivity).
    destruct Hr as [Hlive ->]. clear Hstep.
    destruct (onClose_shape fl code r c1) as (_ & Hsk & _).
    assert (Hsk' : sockets (match cw with
                            | O => onClose fl code r c1
                            | S _ => onCloseOnce (onClose fl code r c1)
                            end)
                   = replaceNth s (mkSocket CLOSED st rc fl 0) (sockets c)).
    { replace (replaceNth s (mkSocket CLOSED st rc fl 0) (sockets c)) with (sockets c1)
        by (destruct c; reflexivity).
      rewrite <- Hsk. destruct cw; [reflexivity|].
      destruct (onClose fl code r c1); reflexivity. }
    unfold freshWhileOpen. rewrite Hsk'.
    pose proof (liveCount_replaceNth _ _ _ (mkSocket CLOSED st rc fl 0) Hs) as Hcount.
    rewrite Hlive in Hcount. cbn in Hcount.
    pose proof (opened_le_live (replaceNth s (mkSocket CLOSED st rc fl 0) (sockets c))).
    destruct Hinv as [_ H2 _ _ _]. lia.
  - destruct (nth_error (timers c) i) as [t|] eqn:Hi; [|discriminate].
    pose proof (retryCount_removeNth _ _ _ Hi) as Hcount.
    set (c1 := set_timers (removeNth i (timers c)) c).
    assert (Hk1 : freshWhileOpen c1) by (destruct c; exact Hk).
    destruct t as [d fl|d]; intros [= <-].
    + unfold freshWhileOpen. intros Hpos. apply connectInternal_fresh in Hpos.
      replace (sockets c1) with (sockets c) in Hpos by (destruct c; reflexivity).
      pose proof (opened_le_live (sockets c)).
      destruct Hinv as [_ H2 _ _ _]. cbn in Hcount. lia.
    + now apply connect_fresh_counter.
Qed.

Lemma run_freshWhileOpen (es : list Event) :
  forall c c', Inv c -> freshWhileOpen c -> run c es = Some c' -> freshWhileOpen c'.
Proof.
  induction es as [|e es IH]; intros c c' Hinv Hk; cbn [run].
  - intros [= <-]. exact Hk.
  - destruct (step c e) as [c1|] eqn:Hstep; [|discriminate].
    apply IH.
    + exact (step_inv c c1 e Hinv Hstep).
    + exact (step_freshWhileOpen c c1 e Hinv Hk Hstep).
Qed.

(** A socket that has delivered a message has opened. *)
Lemma received_after_open (o : Options) (es : list Event) (c : Client) :
  run (constructor o) es = Some c ->
  Forall (fun sk => received sk <> [] -> readyState sk <> CONNECTING) (sockets c).
Proof.
  intros Hrun.
  apply (sockets_always (fun sk => received sk <> [] -> readyState sk <> CONNECTING))
    with (es := es) (c := constructor o); [| |exact Hrun|constructor].
  - intros fl H. now elim H.
  - intros sk sk' Hch. destruct Hch; cbn [received readyState]; auto; try discriminate.
    destruct H; subst; discriminate.
Qed.

(** X20.  A client that is ready has its attempt counter at zero,
    whatever happened to it before: the socket it is ready on has opened,
    and the 'open' listener set the counter back.  So when such a client
    loses its socket and reconnects, [attemptReconnect] always counts its
    first attempt, and the delay it waits is [reconnectDelay] times 2 to
    the power 0. *)
Theorem ready_client_has_fresh_counter (o : Options) (es : list Event) (c : Client) :
  run (constructor o) es = Some c ->
  isReady c = true ->
  reconnectAttempts c = 0 /\
  forall s sk code reason,
    nth_error (sockets c) s = Some sk -> isLive sk = true ->
    autoReconnect (options c) && shouldReconnect c = true ->
    0 < maxReconnectAttempts (options c) ->
    exists c',
      step c (SocketClose s code reason) = Some c' /\
      reconnectAttempts c' = 1 /\
      timers c' = timers c ++ [ReconnectTimer (reconnectDelay (options c) * JS.Math_pow 2 0)%float].
Proof.
  intros Hrun Hready.
  pose proof (run_inv es _ _ (constructor_inv o) Hrun) as Hinv.
  assert (Hk : freshWhileOpen c).
  { apply (run_freshWhileOpen es (constructor o) c (constructor_inv o)); [|exact Hrun].
    unfold freshWhileOpen, openedCount. cbn. lia. }
  assert (Hzero : reconnectAttempts c = 0).
  { apply Hk. destruct Hinv as [_ _ H3 H4 _].
    specialize (H3 Hready). specialize (H4 Hready).
    destruct (live_socket (sockets c)) as (s & sk & Hs & Hlive); [lia|].
    apply (openedCount_pos _ s sk Hs).
    pose proof (Forall_nth_error _ _ _ _ H4 Hs Hlive) as Hhs.
    pose proof (Forall_nth_error _ _ _ _ (received_after_open o es c Hrun) Hs) as Hrc.
    cbn beta in Hrc.
    assert (Hne : received sk <> []).
    { unfold handshaken in Hhs. destruct (received sk); [discriminate|discriminate]. }
    specialize (Hrc Hne). unfold isLive in Hlive. unfold isOpened.
    destruct (readyState sk); congruence. }
  split; [exact Hzero|].
  intros s sk code reason Hs Hlive Hauto Hmax.
  unfold step. rewrite Hs. destruct sk as [r st rc fl cw].
  assert (Hr : r <> CLOSED) by (intros ->; discriminate).
  apply Z.leb_gt in Hmax.
  destruct c as [op w n ic ir sr sks tm pr em].
  cbn in Hready, Hzero, Hauto, Hmax. subst ir n.
  assert (Hclose : forall c1,
            c1 = onClose fl code reason
                   (mkClient op w 0 ic true sr
                      (replaceNth s (mkSocket CLOSED st rc fl 0) sks) tm pr em) ->
            reconnectAttempts c1 = 1 /\
            timers c1 = tm ++ [ReconnectTimer (reconnectDelay op * JS.Math_pow 2 0)%float]).
  { intros c1 ->. unfold onClose, attemptReconnect. client_simpl.
    rewrite Hauto. client_simpl. rewrite Hmax. client_simpl. split; reflexivity. }
  eexists. split.
  - destruct r; [reflexivity|reflexivity|reflexivity|congruence].
  - cbn [sockets set_sockets].
    match goal with
    | |- context [onClose ?a ?b ?d ?x] => destruct (Hclose (onClose a b d x) eq_refl) as [H1 H2]
    end.
    cbn [timers].
    destruct cw; [split; assumption|].
    match goal with
    | |- context [onClose ?a ?b ?d ?x] => destruct (onClose a b d x)
    end.
    cbn in *. split; assumption.
Qed.

Lemma ready_client_has_fresh_counter_witness :
  let c := mkClient (mkOptions true true 5 1000) (Some 0%nat) 0 true true true
             [mkSocket OPEN [] [[0]] 0 0] [] [Resolved]
             [EvConnected; EvMessage Handshake; EvReady] in
  reconnectAttempts c = 0 /\
  forall s sk code reason,
    nth_error (sockets c) s = Some sk -> isLive sk = true ->
    autoReconnect (options c) && shouldReconnect c = true ->
    0 < maxReconnectAttempts (options c) ->
    exists c',
      step c (SocketClose s code reason) = Some c' /\
      reconnectAttempts c' = 1 /\
      timers c' = timers c ++ [ReconnectTimer (reconnectDelay (options c) * JS.Math_pow 2 0)%float].
Proof.
  intros c.
  apply (ready_client_has_fresh_counter (mkOptions true true 5 1000)
           [CallConnect; SocketOpen 0; SocketMessage 0 [0]] c); reflexivity.
Defined.

(** *** The promise of [connect()] *)

Lemma nth_error_replaceNth_other {A : Type} (l : list A) :
  forall s i x, i <> s -> nth_error (replaceNth s x l) i = nth_error l i.
Proof.
  induction l as [|a l IH]; intros s i x Hne; destruct s, i; cbn [replaceNth nth_error];
    try reflexivity; try congruence.
  apply IH. congruence.
Qed.

Lemma settle_resolved (fl : nat) (p : Promise) (c : Client) (i : nat) :
  nth_error (promises (settle fl p c)) i = Some Resolved ->
  nth_error (promises c) i = Some Resolved \/ (p = Resolved /\ i = fl).
Proof.
  unfold settle. destruct (nth_error (promises c) fl) as [[| |]|] eqn:Hfl; auto.
  replace (promises (set_promises (replaceNth fl p (promises c)) c))
    with (replaceNth fl p (promises c)) by (destruct c; reflexivity).
  destruct (Nat.eq_dec i fl) as [->|Hne].
  - rewrite (nth_error_replaceNth _ _ _ _ Hfl). intros [= ->]. auto.
  - rewrite nth_error_replaceNth_other by exact Hne. auto.
Qed.

Lemma connectInternal_resolved (fl : nat) (c : Client) (i : nat) :
  nth_error (promises (connectInternal fl c)) i = Some Resolved ->
  nth_error (promises c) i = Some Resolved.
Proof.
  unfold connectInternal. destruct (validUrl (options c)).
  - destruct c; auto.
  - intros H. apply settle_resolved in H. destruct H as [H|[H _]]; [|discriminate].
    destruct c; exact H.
Qed.

Lemma connect_resolved (c : Client) (i : nat) :
  nth_error (promises (fst (connect c))) i = Some Resolved ->
  nth_error (promises c) i = Some Resolved.
Proof.
  unfold connect. destruct (wsIsOpen c); [auto|].
  destruct (isConnecting c); [auto|]. cbn [fst].
  intros H. apply connectInternal_resolved in H.
  replace (promises _) with (promises c ++ [Pending]) in H by (destruct c; reflexivity).
  destruct (Nat.lt_ge_cases i (length (promises c))) as [Hlt|Hge].
  - now rewrite nth_error_app1 in H.
  - rewrite nth_error_app2 in H by exact Hge.
    destruct (i - length (promises c))%nat as [|k]; [discriminate|].
    destruct k; discriminate.
Qed.

Lemma onClose_resolved (fl : nat) (code : Z) (reason : option string) (c : Client)
    (i : nat) :
  nth_error (promises (onClose fl code reason c)) i = Some Resolved ->
  nth_error (promises c) i = Some Resolved.
Proof.
  unfold onClose, attemptReconnect.
  destruct c as [o w n ic ir sr sks tm pr em]. client_simpl.
  destruct ir; client_simpl.
  - destruct (autoReconnect o && sr)%bool; client_simpl; auto.
    destruct (maxReconnectAttempts o <=? n); client_simpl; auto.
  - destruct (sr && (n <? maxReconnectAttempts o))%bool; client_simpl; auto.
    intros H. apply settle_resolved in H. destruct H as [H|[H _]]; [exact H|discriminate].
Qed.

(** A socket change keeps the flow and what was received. *)
Lemma change_keeps_handshake (sk sk' : Socket) (i : nat) :
  SocketChange sk sk' ->
  flow sk = i /\ handshaken sk = true -> flow sk' = i /\ handshaken sk' = true.
Proof.
  intros Hch [Hfl Hhs]. destruct Hch; cbn [flow] in *; (split; [exact Hfl|]);
    try exact Hhs.
  unfold handshaken in *. cbn [received] in *. rewrite existsb_app, Hhs. reflexivity.
Qed.

Lemma Exists_replaceNth {A : Type} (P : A -> Prop) (l : list A) :
  forall s x y, nth_error l s = Some x -> (P x -> P y) ->
  Exists P l -> Exists P (replaceNth s y l).
Proof.
  induction l as [|a l IH]; intros s x y Hs Hxy Hex; destruct s; cbn in Hs;
    try discriminate; cbn [replaceNth].
  - injection Hs as ->. inversion Hex; subst; [left; auto|now right].
  - inversion Hex; subst; [now left|right]. apply (IH s x y Hs Hxy). assumption.
Qed.

Lemma step_resolvedByHandshake (c c' : Client) (e : Event) :
  resolvedByHandshake c -> step c e = Some c' -> resolvedByHandshake c'.
Proof.
  intros Hres Hstep i Hi.
  assert (Hold : nth_error (promises c) i = Some Resolved ->
                 Exists (fun sk => flow sk = i /\ handshaken sk = true) (sockets c')).
  { intros Hp. specialize (Hres i Hp).
    destruct (step_sockets c c' e Hstep)
      as [->|[(fl & ->)|(s & sk & sk' & Hs & Hch & ->)]].
    - exact Hres.
    - apply Exists_app. now left.
    - apply (Exists_replaceNth _ _ s sk sk' Hs); [|exact Hres].
      apply change_keeps_handshake. exact Hch. }
  destruct e as [|d| |s|s d|s m|s code r|i0]; unfold step in Hstep.
  - injection Hstep as <-. apply Hold. now apply connect_resolved.
  - injection Hstep as <-. apply Hold. revert Hi. unfold sendAudio.
    destruct (ws c) as [s|]; [|auto].
    destruct (nth_error (sockets c) s) as [sk|]; [|auto].
    destruct (negb (isReady c) || negb (isOpen (readyState sk)))%bool; [auto|].
    destruct c; auto.
  - injection Hstep as <-. apply Hold.
    destruct (close_keeps c) as (_ & _ & _ & _ & Hpr & _). now rewrite <- Hpr.
  - destruct (nth_error (sockets c) s) as [[r st rc fl cw]|]; [|discriminate].
    destruct r; try discriminate. injection Hstep as <-. apply Hold.
    destruct c; exact Hi.
  - destruct (nth_error (sockets c) s) as [[r st rc fl cw]|] eqn:Hs; [|discriminate].
    set (sk' := mkSocket r st (rc ++ [d]) fl cw) in *.
    assert (Hc' : c' = handleMessage d fl (set_sockets (replaceNth s sk' (sockets c)) c))
      by (destruct r; try discriminate; now injection Hstep as <-).
    clear Hstep.
    assert (Hcase : nth_error (promises c) i = Some Resolved \/
                    (isHandshake d = true /\ i = fl)).
    { subst c'. revert Hi. unfold handleMessage, isHandshake.
      destruct (decodeMessage d); try (destruct c; now left).
      intros Hi. apply settle_resolved in Hi. destruct Hi as [Hi|[_ ->]]; [|now right].
      left. destruct c; exact Hi. }
    destruct Hcase as [Hp|[Hhs ->]]; [now apply Hold|].
    assert (Hsk : sockets c' = replaceNth s sk' (sockets c)).
    { subst c'.
      match goal with
      | |- context [handleMessage ?a ?b ?x] =>
          destruct (handleMessage_core a b x) as (_ & _ & -> & _)
      end.
      destruct c; reflexivity. }
    rewrite Hsk. apply Exists_exists. exists sk'. split.
    + eapply nth_error_In. apply (nth_error_replaceNth _ _ _ _ Hs).
    + split; [reflexivity|]. unfold handshaken, sk'. cbn [received].
      rewrite existsb_app. cbn [existsb]. rewrite Hhs. apply orb_true_iff. right. reflexivity.
  - destruct (nth_error (sockets c) s) as [[r st rc fl cw]|]; [|discriminate].
    apply Hold.
    destruct r; try discriminate; injection Hstep as <-; destruct c; exact Hi.
  - destruct (nth_error (sockets c) s) as [[r0 st rc fl cw]|] eqn:Hs; [|discriminate].
    set (c1 := set_sockets (replaceNth s (mkSocket CLOSED st rc fl 0) (sockets c)) c) in *.
    assert (Hc' : c' = match cw with
                       | O => onClose fl code r c1
                       | S _ => onCloseOnce (onClose fl code r c1)
                       end)
      by (destruct r0; try discriminate; now injection Hstep as <-).
    apply Hold. subst c'.
    assert (Hi' : nth_error (promises (onClose fl code r c1)) i = Some Resolved).
    { destruct cw; [exact Hi|]. destruct (onClose fl code r c1); exact Hi. }
    apply onClose_resolved in Hi'. destruct c; exact Hi'.
  - destruct (nth_error (timers c) i0) as [t|]; [|discriminate].
    apply Hold.
    destruct t as [d fl|d]; injection Hstep as <-.
    + apply connectInternal_resolved in Hi. destruct c; exact Hi.
    + apply connect_resolved in Hi. destruct c; exact Hi.
Qed.

Lemma run_resolvedByHandshake (es : list Event) :
  forall c c', resolvedByHandshake c -> run c es = Some c' -> resolvedByHandshake c'.
Proof.
  induction es as [|e es IH]; intros c c' Hres; cbn [run].
  - intros [= <-]. exact Hres.
  - destruct (step c e) as [c1|] eqn:Hstep; [|discriminate].
    apply IH. exact (step_resolvedByHandshake c c1 e Hres Hstep).
Qed.

(** X21.  The promise that [connect()] returns for a new connection is
    resolved only by a handshake: whatever happens to a client, every
    promise that is resolved belongs to a connection flow one of whose
    sockets has delivered a handshake frame. *)
Theorem connect_resolves_on_handshake (o : Options) (es : list Event) (c : Client)
    (i : nat) :
  run (constructor o) es = Some c ->
  nth_error (promises c) i = Some Resolved ->
  exists sk d,
    In sk (sockets c) /\ flow sk = i /\ In d (received sk) /\ isHandshake d = true.
Proof.
  intros Hrun Hi.
  assert (Hres : resolvedByHandshake c).
  { apply (run_resolvedByHandshake es (constructor o) c); [|exact Hrun].
    intros j Hj. destruct j; discriminate. }
  specialize (Hres i Hi). apply Exists_exists in Hres.
  destruct Hres as (sk & Hin & Hfl & Hhs).
  unfold handshaken in Hhs. apply existsb_exists in Hhs. destruct Hhs as (d & Hd & Hhs).
  exists sk, d. repeat split; assumption.
Qed.

Lemma connect_resolves_on_handshake_witness :
  exists sk d,
    In sk [mkSocket OPEN [] [[0]] 0 0] /\ flow sk = 0%nat /\
    In d (received sk) /\ isHandshake d = true.
Proof.
  apply (connect_resolves_on_handshake (mkOptions true true 5 1000)
           [CallConnect; SocketOpen 0; SocketMessage 0 [0]]
           (mkClient (mkOptions true true 5 1000) (Some 0%nat) 0 true true true
              [mkSocket OPEN [] [[0]] 0 0] [] [Resolved]
              [EvConnected; EvMessage Handshake; EvReady]) 0);
    reflexivity.
Defined.

End ClientMore.

(** ** The telephony handler: the messages for Twilio *)

Module TwilioOutbound.
Import Twilio.

Section WithDecoder.
Variable base64Decode : string -> list Z.

(** X22.  [isActive] and the [create...Message] methods do not agree on
    what a started stream is.  After a start message whose [streamSid]
    is the empty string the handler says it is active, and yet every
    method that builds a message throws [Stream not started]. *)
Theorem empty_stream_id_is_active_but_not_started (now : Z) (h : TwilioMediaHandler)
    (message : TwilioMediaMessage) (info : StartInfo) :
  event message = "start"%string -> start message = Some info ->
  start_streamSid info = EmptyString ->
  let h' := handleMessage base64Decode now h message in
  isActive h' = true /\
  createClearMessage h' = Thrown "Stream not started" /\
  (forall name, createMarkMessage name h' = Thrown "Stream not started") /\
  (forall pcm, createAudioMessage pcm h' = (h', Thrown "Stream not started")).
Proof.
  intros Hevent Hstart Hsid h'.
  assert (Hh : streamSid h' = Some EmptyString).
  { unfold h', handleMessage. rewrite Hevent, Hstart, Hsid. reflexivity. }
  unfold isActive, createClearMessage, createMarkMessage, createAudioMessage, startedSid.
  rewrite Hh. repeat split.
Qed.

Lemma handleMessage_keeps_sid (now : Z) (h : TwilioMediaHandler)
    (message : TwilioMediaMessage) :
  assignsSid (Incoming now message) = false ->
  streamSid (handleMessage base64Decode now h message) = streamSid h /\
  callSid (handleMessage base64Decode now h message) = callSid h.
Proof.
  unfold assignsSid, handleMessage. intros Hno. apply orb_false_elim in Hno.
  destruct Hno as [Hstart Hstop]. rewrite Hstart, Hstop.
  destruct (event message =? "connected")%string; [split; reflexivity|].
  destruct (event message =? "media")%string.
  - destruct (media message) as [m|]; [|split; reflexivity].
    destruct (nonEmpty (media_payload m)); split; reflexivity.
  - destruct (event message =? "dtmf")%string; [|split; reflexivity].
    destruct (dtmf message) as [d|]; [|split; reflexivity].
    destruct (nonEmpty (dtmf_digit d)); split; reflexivity.
Qed.

Lemma handleMessage_keeps_sequence (now : Z) (h : TwilioMediaHandler)
    (message : TwilioMediaMessage) :
  mediaSequence (handleMessage base64Decode now h message) = mediaSequence h.
Proof.
  unfold handleMessage.
  repeat match goal with
  | |- context [if ?b then _ else _] => destruct b
  | |- context [match ?x with Some _ => _ | None => _ end] => destruct x
  end; reflexivity.
Qed.

Lemma call_keeps_sid (h : TwilioMediaHandler) (c : Call) (sid : string) :
  assignsSid c = false -> startedSid h = Some sid ->
  startedSid (fst (call base64Decode h c)) = Some sid /\
  carriesSid sid (snd (call base64Decode h c)) = true.
Proof.
  intros Hno Hsid. destruct c as [now message|pcm|name| |]; cbn [call].
  - destruct (handleMessage_keeps_sid now h message Hno) as [Hs _].
    cbn [fst snd carriesSid]. unfold startedSid in *. rewrite Hs. auto.
  - unfold createAudioMessage. rewrite Hsid. cbn [fst snd carriesSid outSid].
    split; [exact Hsid|apply String.eqb_refl].
  - unfold createMarkMessage. rewrite Hsid. cbn [fst snd carriesSid outSid].
    split; [exact Hsid|apply String.eqb_refl].
  - unfold createClearMessage. rewrite Hsid. cbn [fst snd carriesSid outSid].
    split; [exact Hsid|apply String.eqb_refl].
  - discriminate.
Qed.

Lemma calls_keep_sid (cs : list Call) :
  forall h sid,
  forallb (fun c => negb (assignsSid c)) cs = true -> startedSid h = Some sid ->
  startedSid (fst (calls base64Decode h cs)) = Some sid /\
  forallb (carriesSid sid) (snd (calls base64Decode h cs)) = true.
Proof.
  induction cs as [|c cs IH]; intros h sid Hno Hsid; [split; [exact Hsid|reflexivity]|].
  cbn [forallb] in Hno. apply andb_prop in Hno. destruct Hno as [Hc Hcs].
  apply negb_true_iff in Hc.
  destruct (call_keeps_sid h c sid Hc Hsid) as [H1 Hr].
  cbn [calls]. destruct (call base64Decode h c) as [h1 r]. cbn [fst snd] in H1, Hr.
  destruct (IH h1 sid Hcs H1) as [H2 Hrs].
  destruct (calls base64Decode h1 cs) as [h2 rs]. cbn [fst snd forallb] in *.
  split; [exact H2|]. rewrite Hr, Hrs. reflexivity.
Qed.

(** X23.  The stream identifier of outgoing messages.  After a start
    message with a stream identifier that is not empty, and as long as no
    start message, stop message or [reset()] follows, every message the
    handler builds carries that identifier and none of the building
    methods throws; after the stop message they all throw again. *)
Theorem started_stream_messages (now later : Z) (h : TwilioMediaHandler)
    (info : StartInfo) (cs : list Call) :
  nonEmpty (start_streamSid info) = true ->
  forallb (fun c => negb (assignsSid c)) cs = true ->
  let started :=
    handleMessage base64Decode now h (mkMessage "start" (Some info) None None) in
  let h' := fst (calls base64Decode started cs) in
  forallb (carriesSid (start_streamSid info)) (snd (calls base64Decode started cs)) = true /\
  createClearMessage h' = Returned (OutClear (start_streamSid info)) /\
  createClearMessage
    (handleMessage base64Decode later h' (mkMessage "stop" None None None))
  = Thrown "Stream not started".
Proof.
  intros Hsid Hno started h'.
  assert (Hstarted : startedSid started = Some (start_streamSid info)).
  { unfold started, handleMessage, startedSid. cbn [event start].
    change ("start" =? "connected")%string with false.
    change ("start" =? "start")%string with true. cbn iota.
    cbn [emit streamSid]. rewrite Hsid. reflexivity. }
  destruct (calls_keep_sid cs started _ Hno Hstarted) as [Hh' Hrs].
  split; [exact Hrs|]. split.
  - unfold createClearMessage. fold h' in Hh'. rewrite Hh'. reflexivity.
  - reflexivity.
Qed.

Lemma call_sequence (h : TwilioMediaHandler) (c : Call) :
  isReset c = false ->
  mediaSequence (fst (call base64Decode h c))
  = mediaSequence h + Z.of_nat (Nat.b2n (isMedia (snd (call base64Decode h c)))).
Proof.
  intros Hno. destruct c as [now message|pcm|name| |]; cbn [call fst snd isMedia Nat.b2n].
  - rewrite handleMessage_keeps_sequence. cbn. lia.
  - unfold createAudioMessage. destruct (startedSid h); cbn; lia.
  - unfold createMarkMessage. destruct (startedSid h); cbn; lia.
  - unfold createClearMessage. destruct (startedSid h); cbn; lia.
  - discriminate.
Qed.

(** [mediaSequence] counts the audio messages built: as long as
    [reset()] is not called, it grows by one with every
    [createAudioMessage] that returns and with nothing else; a call that
    throws, a stop message and a new start message leave it as it is. *)
Theorem media_sequence_counts (h : TwilioMediaHandler) (cs : list Call) :
  forallb (fun c => negb (isReset c)) cs = true ->
  mediaSequence (fst (calls base64Decode h cs))
  = mediaSequence h
    + Z.of_nat (length (filter isMedia (snd (calls base64Decode h cs)))).
Proof.
  revert h. induction cs as [|c cs IH]; intros h Hno; [cbn; lia|].
  cbn [forallb] in Hno. apply andb_prop in Hno. destruct Hno as [Hc Hcs].
  apply negb_true_iff in Hc.
  pose proof (call_sequence h c Hc) as H1.
  cbn [calls]. destruct (call base64Decode h c) as [h1 r]. cbn [fst snd] in H1.
  specialize (IH h1 Hcs).
  destruct (calls base64Decode h1 cs) as [h2 rs]. cbn [fst snd filter] in *.
  rewrite IH, H1. destruct (isMedia r); cbn [Nat.b2n length]; lia.
Qed.

End WithDecoder.

Lemma base64Encode_length_aux (n : nat) :
  forall bytes, (length bytes < n)%nat ->
  String.length (base64Encode bytes) = (4 * ((length bytes + 2) / 3))%nat.
Proof.
  induction n as [|n IH]; intros bytes Hn; [lia|].
  destruct bytes as [|a [|b [|c rest]]]; try reflexivity.
  cbn [base64Encode String.length length].
  rewrite IH by (cbn [length] in Hn; lia).
  replace (S (S (S (length rest))) + 2)%nat with (length rest + 2 + 1 * 3)%nat by lia.
  rewrite Nat.div_add by lia. lia.
Qed.

(** The payload of an audio message is the base64 text of one
    mu-law byte for each sample: for [n] samples it has
    [4 * ceil(n / 3)] characters. *)
Theorem audio_payload_length (pcm : list float) (h : TwilioMediaHandler) (sid : string) :
  startedSid h = Some sid ->
  exists payload,
    snd (createAudioMessage pcm h) = Returned (OutMedia sid payload) /\
    String.length payload = (4 * ((length pcm + 2) / 3))%nat.
Proof.
  intros Hsid. unfold createAudioMessage. rewrite Hsid. cbn [snd].
  eexists. split; [reflexivity|].
  rewrite (base64Encode_length_aux (S (length (pcmToMulaw pcm)))) by lia.
  unfold pcmToMulaw, Mulaw.pcmToMulaw. rewrite length_map. reflexivity.
Qed.

Lemma empty_stream_id_is_active_but_not_started_witness :
  let h' := handleMessage (fun _ => []) 0 constructor
              (mkMessage "start" (Some (mkStartInfo EmptyString "AC1" "CA1" [])) None None) in
  isActive h' = true /\
  createClearMessage h' = Thrown "Stream not started" /\
  (forall name, createMarkMessage name h' = Thrown "Stream not started") /\
  (forall pcm, createAudioMessage pcm h' = (h', Thrown "Stream not started")).
Proof.
  apply (empty_stream_id_is_active_but_not_started (fun _ => []) 0 constructor
           (mkMessage "start" (Some (mkStartInfo EmptyString "AC1" "CA1" [])) None None)
           (mkStartInfo EmptyString "AC1" "CA1" [])); reflexivity.
Defined.

Lemma started_stream_messages_witness :
  let info := mkStartInfo "MZ1" "AC1" "CA1" [] in
  let cs := [CreateMark "a"; Incoming 5 (mkMessage "connected" None None None);
             CreateAudio [0%float]] in
  let started :=
    handleMessage (fun _ => []) 0 constructor (mkMessage "start" (Some info) None None) in
  let h' := fst (calls (fun _ => []) started cs) in
  forallb (carriesSid (start_streamSid info)) (snd (calls (fun _ => []) started cs)) = true /\
  createClearMessage h' = Returned (OutClear (start_streamSid info)) /\
  createClearMessage
    (handleMessage (fun _ => []) 9 h' (mkMessage "stop" None None None))
  = Thrown "Stream not started".
Proof.
  intros info cs.
  apply (started_stream_messages (fun _ => []) 0 9 constructor info cs); reflexivity.
Defined.

Lemma media_sequence_counts_witness :
  let cs := [CreateAudio [0%float];
             Incoming 0 (mkMessage "start" (Some (mkStartInfo "MZ1" "AC1" "CA1" []))
                           None None);
             CreateAudio [0%float]; CreateClear;
             Incoming 1 (mkMessage "stop" None None None)] in
  mediaSequence (fst (calls (fun _ => []) constructor cs))
  = mediaSequence constructor
    + Z.of_nat (length (filter isMedia (snd (calls (fun _ => []) constructor cs)))).
Proof.
  intros cs. apply (media_sequence_counts (fun _ => []) constructor cs). reflexivity.
Defined.

Lemma audio_payload_length_witness :
  exists payload,
    snd (createAudioMessage [0%float; 1%float] (mkHandler (Some "MZ1"%string) None 0 []))
    = Returned (OutMedia "MZ1" payload) /\
    String.length payload = (4 * ((length [0%float; 1%float] + 2) / 3))%nat.
Proof.
  apply (audio_payload_length [0%float; 1%float]
           (mkHandler (Some "MZ1"%string) None 0 []) "MZ1").
  reflexivity.
Defined.

End TwilioOutbound.

(** ** TwiML: escaping and the documents built *)

Module TwimlProofs.
Import Twiml.
Local Open Scope string_scope.

Lemma append_assoc (x y z : string) : (x ++ y) ++ z = x ++ (y ++ z).
Proof. induction x as [|a x IH]; cbn; [reflexivity|now rewrite IH]. Qed.

Lemma replaceAll_app (c : ascii) (r x y : string) :
  replaceAll c r (x ++ y) = replaceAll c r x ++ replaceAll c r y.
Proof.
  induction x as [|a x IH]; cbn [append replaceAll]; [reflexivity|].
  rewrite IH. destruct (Ascii.eqb a c); [now rewrite append_assoc|reflexivity].
Qed.

Lemma occurrences_app (c : ascii) (x y : string) :
  occurrences c (x ++ y) = (occurrences c x + occurrences c y)%nat.
Proof.
  induction x as [|a x IH]; cbn [append occurrences]; [reflexivity|].
  rewrite IH. lia.
Qed.

(** The five passes over one character. *)
Lemma escape_one_char (a : ascii) :
  escapeXml (String a EmptyString) = escapeChar a.
Proof.
  destruct a as [[] [] [] [] [] [] [] []]; reflexivity.
Qed.

Lemma escapeXml_app (x y : string) : escapeXml (x ++ y) = escapeXml x ++ escapeXml y.
Proof. unfold escapeXml. now rewrite !replaceAll_app. Qed.

(** The five replacements in a row do what one pass over the characters
    does: no replacement touches what an earlier one has written. *)
Lemma escapeXml_one_pass (s : string) : escapeXml s = escapeOnePass s.
Proof.
  induction s as [|a s IH]; [reflexivity|].
  change (String a s) with (String a EmptyString ++ s).
  rewrite escapeXml_app, escape_one_char, IH. reflexivity.
Qed.

Lemma escapeChar_clean (a : ascii) :
  occurrences "<" (escapeChar a) = 0%nat /\
  occurrences ">" (escapeChar a) = 0%nat /\
  occurrences "034" (escapeChar a) = 0%nat /\
  occurrences "'" (escapeChar a) = 0%nat.
Proof.
  destruct a as [[] [] [] [] [] [] [] []]; repeat split.
Qed.

Lemma escapeXml_clean (unsafe : string) :
  occurrences "<" (escapeXml unsafe) = 0%nat /\
  occurrences ">" (escapeXml unsafe) = 0%nat /\
  occurrences "034" (escapeXml unsafe) = 0%nat /\
  occurrences "'" (escapeXml unsafe) = 0%nat.
Proof.
  rewrite escapeXml_one_pass.
  induction unsafe as [|a s IH]; [repeat split|].
  cbn [escapeOnePass]. rewrite !occurrences_app.
  destruct (escapeChar_clean a) as (H1 & H2 & H3 & H4).
  destruct IH as (I1 & I2 & I3 & I4).
  rewrite H1, H2, H3, H4, I1, I2, I3, I4. repeat split.
Qed.

(** X24.  What [escapeXml] returns holds none of the characters that
    open or close markup or end an attribute value: no [<], no [>], no
    double quote and no apostrophe, whatever the text; and an ampersand
    of the text is written as [&amp;]. *)
Theorem escapeXml_leaves_no_markup (unsafe : string) :
  occurrences "<" (escapeXml unsafe) = 0%nat /\
  occurrences ">" (escapeXml unsafe) = 0%nat /\
  occurrences "034" (escapeXml unsafe) = 0%nat /\
  occurrences "'" (escapeXml unsafe) = 0%nat /\
  escapeXml ("&" ++ unsafe) = "&amp;" ++ escapeXml unsafe.
Proof.
  destruct (escapeXml_clean unsafe) as (H1 & H2 & H3 & H4).
  repeat split; assumption.
Qed.

Lemma escapeChar_cases (a : ascii) :
  (a = "&"%char /\ escapeChar a = "&amp;") \/
  (a = "<"%char /\ escapeChar a = "&lt;") \/
  (a = ">"%char /\ escapeChar a = "&gt;") \/
  (a = "034"%char /\ escapeChar a = "&quot;") \/
  (a = "'"%char /\ escapeChar a = "&apos;") \/
  (a <> "&"%char /\ escapeChar a = String a EmptyString).
Proof.
  unfold escapeChar.
  destruct (Ascii.eqb_spec a "&"); [now left|].
  destruct (Ascii.eqb_spec a "<"); [now right; left|].
  destruct (Ascii.eqb_spec a ">"); [now right; right; left|].
  destruct (Ascii.eqb_spec a "034"); [now right; right; right; left|].
  destruct (Ascii.eqb_spec a "'"); [now right; right; right; right; left|].
  right; right; right; right; right. split; [assumption|reflexivity].
Qed.

Lemma escapeChar_head (a b : ascii) (x y : string) :
  escapeChar a ++ x = escapeChar b ++ y -> a = b /\ x = y.
Proof.
  destruct (escapeChar_cases a) as [[-> ->]|[[-> ->]|[[-> ->]|[[-> ->]|[[-> ->]|[Ha ->]]]]]];
    destruct (escapeChar_cases b) as [[-> ->]|[[-> ->]|[[-> ->]|[[-> ->]|[[-> ->]|[Hb ->]]]]]];
    cbn [append]; intros H; try discriminate H;
    try (injection H; intros; subst; auto; fail);
    try (injection H; intros; subst; congruence).
Qed.

Lemma escapeChar_nonempty (a : ascii) (x : string) : escapeChar a ++ x <> EmptyString.
Proof.
  destruct (escapeChar_cases a) as [[_ ->]|[[_ ->]|[[_ ->]|[[_ ->]|[[_ ->]|[_ ->]]]]]];
    discriminate.
Qed.

(** X25.  [escapeXml] loses nothing: two texts that are escaped to the
    same text are the same text. *)
Theorem escapeXml_injective (s1 s2 : string) :
  escapeXml s1 = escapeXml s2 -> s1 = s2.
Proof.
  rewrite !escapeXml_one_pass. revert s2.
  induction s1 as [|a s1 IH]; intros [|b s2]; cbn [escapeOnePass]; intros H.
  - reflexivity.
  - symmetry in H. now apply escapeChar_nonempty in H.
  - now apply escapeChar_nonempty in H.
  - apply escapeChar_head in H. destruct H as [-> H]. f_equal. now apply IH.
Qed.

Lemma escapeXml_injective_witness : "a<b & c" = "a<" ++ "b & c".
Proof. apply (escapeXml_injective "a<b & c" ("a<" ++ "b & c")). reflexivity. Defined.

Ltac count_markup :=
  repeat rewrite occurrences_app;
  repeat match goal with
  | |- context [occurrences ?c (escapeXml ?s)] =>
      let H1 := fresh in let H2 := fresh in let H3 := fresh in let H4 := fresh in
      destruct (escapeXml_clean s) as (H1 & H2 & H3 & H4);
      rewrite ?H1, ?H2, ?H3, ?H4; clear H1 H2 H3 H4
  end;
  reflexivity.

(** X26.  The arguments of the TwiML generators never add markup to the
    document: the number of [<], of [>] and of double quotes in it is the
    number the template has, whatever the address, the message and the
    voice are.  A welcome message that is empty is left out like one that
    is not given. *)
Theorem twiml_arguments_add_no_markup (wsUrl message : string)
    (welcomeMessage voice : option string) :
  let say := match welcomeMessage with Some m => Twilio.nonEmpty m | None => false end in
  let stream := generateStreamTwiml wsUrl welcomeMessage in
  occurrences "<" stream = (if say then 10 else 8)%nat /\
  occurrences ">" stream = (if say then 10 else 8)%nat /\
  occurrences "034" stream = (if say then 12 else 10)%nat /\
  occurrences "<" (generateSayTwiml message voice) = 5%nat /\
  occurrences ">" (generateSayTwiml message voice) = 5%nat /\
  occurrences "034" (generateSayTwiml message voice) = 6%nat /\
  occurrences "<" (generateSayAndHangupTwiml message voice) = 6%nat /\
  occurrences ">" (generateSayAndHangupTwiml message voice) = 6%nat /\
  occurrences "034" (generateSayAndHangupTwiml message voice) = 6%nat /\
  generateStreamTwiml wsUrl (Some EmptyString) = generateStreamTwiml wsUrl None.
Proof.
  intros say stream. unfold stream, say, generateStreamTwiml, generateSayTwiml,
    generateSayAndHangupTwiml, xmlDeclaration.
  destruct welcomeMessage as [m|]; [destruct (Twilio.nonEmpty m)|];
    repeat split; count_markup.
Qed.

End TwimlProofs.

(** ** The orchestrator: audio on its way to the engine *)

Module VoiceBotAudio.
Import TypedArray TypedArrayFacts AudioBuffer AudioBufferProofs VoiceBot.

Section WithCodec.
Variable Encoder : Type.
Variable opusEncode : Encoder -> list float -> Encoder * outcome (list Z).
Variable inputSampleRate : float.

Local Abbreviation sendFrame := (VoiceBot.sendFrame Encoder opusEncode).
Local Abbreviation sendFrames := (VoiceBot.sendFrames Encoder opusEncode).
Local Abbreviation encodeFrames := (VoiceBot.encodeFrames Encoder opusEncode).
Local Abbreviation sendAudio := (VoiceBot.sendAudio Encoder opusEncode inputSampleRate).
Local Abbreviation toPersonaPlexRate := (VoiceBot.toPersonaPlexRate inputSampleRate).

Lemma frames_step (b b1 : AudioBuffer.t float) :
  wf b -> 0 < frameSize b -> frameSize b <= writePosition b ->
  frameSize b1 = frameSize b ->
  writePosition b1 = writePosition b - frameSize b ->
  contents b1 = skipn (Z.to_nat (frameSize b)) (contents b) ->
  framesOf b = firstn (Z.to_nat (frameSize b)) (contents b) :: framesOf b1.
Proof.
  intros Hwf Hf Hge Hf1 Hwp1 Hcont1. unfold framesOf.
  rewrite Hf1, Hwp1, Hcont1.
  replace (writePosition b - frameSize b)
    with (writePosition b + (-1) * frameSize b) by lia.
  rewrite Z.div_add by lia.
  assert (1 <= writePosition b / frameSize b) by (apply Z.div_le_lower_bound; lia).
  replace (Z.to_nat (writePosition b / frameSize b))
    with (S (Z.to_nat (writePosition b / frameSize b + -1))) by lia.
  cbn [seq map]. f_equal.
  rewrite <- seq_shift, map_map. apply map_ext. intros i.
  rewrite sliceAt_succ. reflexivity.
Qed.

Lemma frames_none (b : AudioBuffer.t float) :
  wf b -> 0 < frameSize b -> writePosition b < frameSize b -> framesOf b = [].
Proof.
  intros Hwf Hf Hlt. unfold framesOf, wf in *.
  rewrite Z.div_small by lia. reflexivity.
Qed.

(** The loop of [sendAudio] ends, and leaves less than a frame. *)
Lemma sendFrames_drains (fuel : nat) :
  forall (codec : bool) (b : AudioBuffer.t float) (client : Client.Client) (k : Encoder),
  wf b -> 0 < frameSize b ->
  (Z.to_nat (writePosition b / frameSize b) <= fuel)%nat ->
  exists b' client' k',
    sendFrames fuel codec b client k = Some (b', client', k') /\
    wf b' /\ frameSize b' = frameSize b /\ capacity b' = capacity b /\
    writePosition b' = writePosition b mod frameSize b.
Proof.
  induction fuel as [|fuel IH]; intros codec b client k Hwf Hf Hfuel.
  - assert (Hlt : writePosition b < frameSize b).
    { destruct (Z.lt_ge_cases (writePosition b) (frameSize b)) as [H|H]; [exact H|].
      assert (1 <= writePosition b / frameSize b) by (apply Z.div_le_lower_bound; lia).
      lia. }
    exists b, client, k. cbn [VoiceBot.sendFrames]. unfold hasFrame.
    destruct (frameSize b <=? writePosition b) eqn:Hhas; [apply Z.leb_le in Hhas; lia|].
    unfold wf in Hwf. repeat split; try apply Hwf.
    symmetry. apply Z.mod_small. lia.
  - cbn [VoiceBot.sendFrames]. unfold hasFrame.
    destruct (frameSize b <=? writePosition b) eqn:Hhas.
    + apply Z.leb_le in Hhas.
      destruct (readFrame_some b Hwf) as (b1 & Hread & Hwf1 & Hf1 & Hcap1 & Hwp1 & _);
        [lia|].
      rewrite Hread.
      destruct (sendFrame codec
                  (Some (firstn (Z.to_nat (frameSize b)) (contents b))) client k)
        as [client1 k1].
      assert (Hdiv : writePosition b1 / frameSize b1 = writePosition b / frameSize b - 1).
      { rewrite Hf1, Hwp1.
        replace (writePosition b - frameSize b)
          with (writePosition b + (-1) * frameSize b) by lia.
        rewrite Z.div_add by lia. lia. }
      destruct (IH codec b1 client1 k1 Hwf1) as (b' & client' & k' & Hrun & Hwf' & Hf' & Hcap' & Hwp');
        [lia|lia|].
      exists b', client', k'. split; [exact Hrun|]. split; [exact Hwf'|].
      split; [congruence|]. split; [congruence|].
      rewrite Hwp', Hf1, Hwp1.
      replace (writePosition b - frameSize b)
        with (writePosition b + (-1) * frameSize b) by lia.
      apply Z.mod_add. lia.
    + apply Z.leb_gt in Hhas. exists b, client, k. unfold wf in Hwf.
      repeat split; try apply Hwf. symmetry. apply Z.mod_small. lia.
Qed.

(** X27.  [sendAudio] on an active session, with a chunk that after
    resampling is no longer than the buffer: the call returns whatever
    the encoder and the client do with the frames, since what they throw
    is caught; the loop ends, and the buffer is left with less than one
    frame, the samples that did not fill a frame. *)
Theorem sendAudio_drains_buffer (fuel : nat) (b : VoiceBot) (k : Encoder)
    (pcm audioData : list float) (client : Client.Client)
    (buffer : AudioBuffer.t float) :
  isSessionActive b = true ->
  personaplexClient b = Some client -> inputBuffer b = Some buffer ->
  wf buffer -> 0 < frameSize buffer ->
  toPersonaPlexRate pcm = Returned audioData ->
  len audioData <= capacity buffer ->
  (Z.to_nat (capacity buffer / frameSize buffer) <= fuel)%nat ->
  exists b' k' client' buffer',
    sendAudio fuel b k pcm = Some (b', k', Returned tt) /\
    personaplexClient b' = Some client' /\
    inputBuffer b' = Some buffer' /\
    wf buffer' /\
    writePosition buffer'
    = (writePosition buffer + len audioData - excess buffer (len audioData))
        mod frameSize buffer /\
    writePosition buffer' < frameSize buffer' /\
    isSessionActive b' = true /\ emitted b' = emitted b.
Proof.
  intros Hactive Hclient Hbuffer Hwf Hf Hrate Hfit Hfuel.
  destruct (push_fits buffer audioData Hwf Hfit)
    as (b1 & Hpush & Hwf1 & Hf1 & Hcap1 & Hwp1 & _).
  assert (Hn : (Z.to_nat (writePosition b1 / frameSize b1) <= fuel)%nat).
  { unfold wf in Hwf1. rewrite Hf1.
    assert (writePosition b1 / frameSize buffer <= capacity buffer / frameSize buffer)
      by (apply Z.div_le_mono; lia).
    lia. }
  destruct (sendFrames_drains fuel (opusCodec b) b1 client k Hwf1)
    as (b2 & client2 & k2 & Hrun & Hwf2 & Hf2 & _ & Hwp2); [lia|exact Hn|].
  unfold VoiceBot.sendAudio.
  rewrite Hactive, Hclient, Hbuffer, Hrate, Hpush, Hrun. cbn [negb].
  eexists. exists k2, client2, b2.
  split; [reflexivity|]. split; [reflexivity|]. split; [reflexivity|].
  split; [exact Hwf2|]. split; [rewrite Hwp2, Hf1, Hwp1; reflexivity|].
  split; [rewrite Hwp2, Hf2; apply Z.mod_pos_bound; lia|].
  split; reflexivity.
Qed.

Lemma sendAudio_not_connected (d : list Z) (c : Client.Client) :
  Client.connected c = false ->
  Client.sendAudio d c = (c, Thrown "Client is not connected").
Proof.
  unfold Client.connected, Client.wsIsOpen, Client.socketState, Client.sendAudio.
  destruct (Client.ws c) as [s|]; [|reflexivity].
  destruct (nth_error (Client.sockets c) s) as [sk|]; [|reflexivity].
  cbn [option_map]. intros H.
  destruct (Client.isReady c); [|reflexivity].
  cbn [andb negb orb] in *. rewrite H. reflexivity.
Qed.

Lemma sendFrames_not_connected (fuel : nat) :
  forall (codec : bool) (b b' : AudioBuffer.t float) (client client' : Client.Client)
         (k k' : Encoder),
  Client.connected client = false ->
  sendFrames fuel codec b client k = Some (b', client', k') -> client' = client.
Proof.
  induction fuel as [|fuel IH]; intros codec b b' client client' k k' Hnot;
    cbn [VoiceBot.sendFrames]; destruct (hasFrame b); try discriminate;
    try (now intros [= _ <- _]).
  destruct (readFrame b) as [b1 frame].
  assert (Hsame : fst (sendFrame codec frame client k) = client).
  { unfold VoiceBot.sendFrame. destruct frame as [frame|]; [|reflexivity].
    destruct codec; [|reflexivity].
    destruct (opusEncode k frame) as [k1 [packet|e]]; [|reflexivity].
    cbn [fst]. now rewrite sendAudio_not_connected. }
  destruct (sendFrame codec frame client k) as [client1 k1]. cbn [fst] in Hsame.
  subst client1. apply (IH codec b1 b' client client' k1 k' Hnot).
Qed.

(** X28.  While the client is not connected, [sendAudio] on an active
    session loses the audio without a sign: the call returns, and the
    client is as it was, nothing having been sent. *)
Theorem sendAudio_drops_audio_when_not_connected (fuel : nat) (b b' : VoiceBot)
    (k k' : Encoder) (pcm : list float) (client : Client.Client) :
  personaplexClient b = Some client ->
  Client.connected client = false ->
  sendAudio fuel b k pcm = Some (b', k', Returned tt) ->
  personaplexClient b' = Some client.
Proof.
  intros Hclient Hnot. unfold VoiceBot.sendAudio.
  destruct (isSessionActive b); cbn [negb]; [|discriminate].
  rewrite Hclient. destruct (inputBuffer b) as [buffer|]; [|discriminate].
  destruct (toPersonaPlexRate pcm) as [audioData|e]; [|discriminate].
  destruct (push buffer audioData) as [b1 [u|e]]; [|discriminate].
  destruct (sendFrames fuel (opusCodec b) b1 client k) as [[[b2 client2] k2]|] eqn:Hrun;
    [|discriminate].
  intros [= <- _]. cbn [personaplexClient]. f_equal.
  apply (sendFrames_not_connected fuel _ _ _ _ _ _ _ Hnot Hrun).
Qed.

(** The loop gives the socket the packets of the frames, oldest first. *)
Lemma sendFrames_sends (fuel : nat) :
  forall (b : AudioBuffer.t float) (client : Client.Client) (k : Encoder)
         (s : nat) (sk : Client.Socket),
  wf b -> 0 < frameSize b ->
  (Z.to_nat (writePosition b / frameSize b) <= fuel)%nat ->
  Client.ws client = Some s -> nth_error (Client.sockets client) s = Some sk ->
  Client.readyState sk = Client.OPEN -> Client.isReady client = true ->
  exists b' client',
    sendFrames fuel true b client k
    = Some (b', client', fst (encodeFrames k (framesOf b))) /\
    Client.ws client' = Some s /\ Client.isReady client' = true /\
    nth_error (Client.sockets client') s
    = Some (Client.mkSocket Client.OPEN
              (Client.sent sk
                 ++ map Protocol.encodeAudioMessage (snd (encodeFrames k (framesOf b))))
              (Client.received sk) (Client.flow sk) (Client.closeWaiters sk)).
Proof.
  induction fuel as [|fuel IH]; intros b client k s sk Hwf Hf Hfuel Hws Hs Hopen Hready.
  - assert (Hlt : writePosition b < frameSize b).
    { destruct (Z.lt_ge_cases (writePosition b) (frameSize b)) as [H|H]; [exact H|].
      assert (1 <= writePosition b / frameSize b) by (apply Z.div_le_lower_bound; lia).
      lia. }
    rewrite (frames_none b Hwf Hf Hlt). cbn [VoiceBot.encodeFrames fst snd map].
    exists b, client. cbn [VoiceBot.sendFrames]. unfold hasFrame.
    destruct (frameSize b <=? writePosition b) eqn:Hhas; [apply Z.leb_le in Hhas; lia|].
    split; [reflexivity|]. split; [exact Hws|]. split; [exact Hready|].
    rewrite Hs, app_nil_r. destruct sk; cbn in *. subst. reflexivity.
  - cbn [VoiceBot.sendFrames]. unfold hasFrame.
    destruct (frameSize b <=? writePosition b) eqn:Hhas.
    + apply Z.leb_le in Hhas.
      destruct (readFrame_some b Hwf) as (b1 & Hread & Hwf1 & Hf1 & Hcap1 & Hwp1 & Hcont1);
        [lia|].
      rewrite Hread.
      rewrite (frames_step b b1 Hwf Hf Hhas Hf1 Hwp1 Hcont1).
      set (frame := firstn (Z.to_nat (frameSize b)) (contents b)).
      assert (Hdiv : writePosition b1 / frameSize b1 = writePosition b / frameSize b - 1).
      { rewrite Hf1, Hwp1.
        replace (writePosition b - frameSize b)
          with (writePosition b + (-1) * frameSize b) by lia.
        rewrite Z.div_add by lia. lia. }
      cbn [VoiceBot.sendFrame VoiceBot.encodeFrames].
      destruct (opusEncode k frame) as [k1 [packet|e]].
      * set (sk1 := Client.mkSocket Client.OPEN
                      (Client.sent sk ++ [Protocol.encodeAudioMessage packet])
                      (Client.received sk) (Client.flow sk) (Client.closeWaiters sk)).
        assert (Hsend : Client.sendAudio packet client
                        = (Client.set_sockets
                             (replaceNth s sk1 (Client.sockets client)) client,
                           Returned tt)).
        { unfold Client.sendAudio. rewrite Hws, Hs, Hready, Hopen. reflexivity. }
        rewrite Hsend. cbn [fst].
        destruct (IH b1 (Client.set_sockets (replaceNth s sk1 (Client.sockets client)) client)
                    k1 s sk1 Hwf1) as (b' & client' & Hrun & Hws' & Hready' & Hs');
          [lia|lia| | | | |].
        { destruct client; exact Hws. }
        { replace (Client.sockets (Client.set_sockets _ client))
            with (replaceNth s sk1 (Client.sockets client)) by (destruct client; reflexivity).
          apply (ClientMore.nth_error_replaceNth _ _ _ _ Hs). }
        { reflexivity. }
        { destruct client; exact Hready. }
        exists b', client'.
        destruct (encodeFrames k1 (framesOf b1)) as [k2 packets].
        cbn [fst snd] in *. split; [exact Hrun|]. split; [exact Hws'|].
        split; [exact Hready'|]. rewrite Hs'. unfold sk1. cbn [Client.sent
          Client.received Client.flow Client.closeWaiters map].
        rewrite <- app_assoc. reflexivity.
      * destruct (IH b1 client k1 s sk Hwf1) as (b' & client' & Hrun & Hrest);
          [lia|lia|assumption|assumption|assumption|assumption|].
        exists b', client'. split; [exact Hrun|exact Hrest].
    + apply Z.leb_gt in Hhas.
      rewrite (frames_none b Hwf Hf Hhas). cbn [VoiceBot.encodeFrames fst snd map].
      exists b, client. split; [reflexivity|]. split; [exact Hws|]. split; [exact Hready|].
      rewrite Hs, app_nil_r. destruct sk; cbn in *. subst. reflexivity.
Qed.

(** X29.  What [sendAudio] sends on a connected client: the samples
    buffered after the push are cut into frames of [frameSize], oldest
    first; each frame goes through the encoder, and the packets of the
    frames it accepts are given to the socket as audio frames, in that
    order, after what was sent before.  A frame the encoder rejects is
    left out. *)
Theorem sendAudio_sends_frames_in_order (fuel : nat) (b : VoiceBot) (k : Encoder)
    (pcm audioData : list float) (client : Client.Client)
    (buffer : AudioBuffer.t float) (s : nat) (sk : Client.Socket) :
  isSessionActive b = true -> opusCodec b = true ->
  personaplexClient b = Some client -> inputBuffer b = Some buffer ->
  wf buffer -> 0 < frameSize buffer ->
  toPersonaPlexRate pcm = Returned audioData ->
  len audioData <= capacity buffer ->
  (Z.to_nat (capacity buffer / frameSize buffer) <= fuel)%nat ->
  Client.ws client = Some s -> nth_error (Client.sockets client) s = Some sk ->
  Client.readyState sk = Client.OPEN -> Client.isReady client = true ->
  let frames := framesOf (fst (push buffer audioData)) in
  exists b' client',
    sendAudio fuel b k pcm = Some (b', fst (encodeFrames k frames), Returned tt) /\
    personaplexClient b' = Some client' /\
    nth_error (Client.sockets client') s
    = Some (Client.mkSocket Client.OPEN
              (Client.sent sk
                 ++ map Protocol.encodeAudioMessage (snd (encodeFrames k frames)))
              (Client.received sk) (Client.flow sk) (Client.closeWaiters sk)).
Proof.
  intros Hactive Hcodec Hclient Hbuffer Hwf Hf Hrate Hfit Hfuel Hws Hs Hopen Hready frames.
  destruct (push_fits buffer audioData Hwf Hfit)
    as (b1 & Hpush & Hwf1 & Hf1 & Hcap1 & Hwp1 & _).
  assert (Hn : (Z.to_nat (writePosition b1 / frameSize b1) <= fuel)%nat).
  { unfold wf in Hwf1. rewrite Hf1.
    assert (writePosition b1 / frameSize buffer <= capacity buffer / frameSize buffer)
      by (apply Z.div_le_mono; lia).
    lia. }
  unfold frames. rewrite Hpush. cbn [fst].
  destruct (sendFrames_sends fuel b1 client k s sk Hwf1)
    as (b2 & client2 & Hrun & _ & _ & Hs2); try assumption; [lia|].
  unfold VoiceBot.sendAudio.
  rewrite Hactive, Hclient, Hbuffer, Hrate, Hpush, Hcodec, Hrun. cbn [negb].
  eexists. exists client2. split; [reflexivity|]. split; [reflexivity|exact Hs2].
Qed.

(** X30.  One chunk that after resampling is longer than the buffer
    puts the session out of use: [sendAudio] throws a [RangeError], the
    session stays active, and from then on every [sendAudio] throws,
    whatever the chunk. *)
Theorem oversized_chunk_wedges_session (fuel : nat) (b : VoiceBot) (k : Encoder)
    (pcm audioData : list float) (client : Client.Client)
    (buffer : AudioBuffer.t float) :
  isSessionActive b = true ->
  personaplexClient b = Some client -> inputBuffer b = Some buffer ->
  wf buffer -> 0 <= frameSize buffer ->
  toPersonaPlexRate pcm = Returned audioData ->
  capacity buffer < len audioData ->
  exists b1,
    sendAudio fuel b k pcm
    = Some (b1, k, Thrown "RangeError: offset is out of bounds") /\
    wedgedSession b1 /\
    forall b2, wedgedSession b2 ->
      forall fuel' k' pcm', exists b3 e,
        sendAudio fuel' b2 k' pcm' = Some (b3, k', Thrown e) /\ wedgedSession b3.
Proof.
  intros Hactive Hclient Hbuffer Hwf Hf Hrate Hbig.
  eexists. split; [|split].
  - unfold VoiceBot.sendAudio.
    rewrite Hactive, Hclient, Hbuffer, Hrate, (push_oversize buffer audioData Hwf Hbig).
    reflexivity.
  - split; [reflexivity|]. do 2 eexists. split; [reflexivity|]. split; [reflexivity|].
    unfold wedged. cbn [writePosition frameSize]. lia.
  - intros b2 (Hactive2 & client2 & buffer2 & Hclient2 & Hbuffer2 & Hneg & Hf2).
    intros fuel' k' pcm'. unfold VoiceBot.sendAudio.
    rewrite Hactive2, Hclient2, Hbuffer2. cbn [negb].
    destruct (toPersonaPlexRate pcm') as [audio'|e].
    + unfold push.
      pose proof (len_nonneg audio') as Hs.
      destruct (capacity buffer2 <? writePosition buffer2 + len audio') eqn:Hover.
      * apply Z.ltb_lt in Hover. cbn [AudioBuffer.buffer writePosition frameSize].
        rewrite set_negative_offset by lia.
        do 2 eexists. split; [reflexivity|].
        split; [reflexivity|]. do 2 eexists. split; [reflexivity|].
        split; [reflexivity|]. unfold wedged. cbn [writePosition frameSize]. lia.
      * rewrite set_negative_offset by lia.
        do 2 eexists. split; [reflexivity|].
        split; [reflexivity|]. exists client2, buffer2.
        split; [reflexivity|]. split; [reflexivity|]. split; assumption.
    + exists b2, e. split; [reflexivity|].
      split; [exact Hactive2|]. exists client2, buffer2. repeat split; assumption.
Qed.

End WithCodec.

Lemma sendAudio_drains_buffer_witness :
  let encode := fun (k : unit) (frame : list float) => (k, Returned [9]) in
  let client :=
    Client.mkClient (Client.mkOptions true true 5 1000) (Some 0%nat) 0 true true true
      [Client.mkSocket Client.OPEN [] [[0]] 0 0] [] [Client.Resolved] [] in
  let buffer := AudioBuffer.mk [0%float; 0%float; 0%float; 0%float] 0 2 in
  let b := mkVoiceBot (Some client) (Some buffer) true true [] [] in
  let pcm := [0.5%float; 0.25%float; 0.125%float] in
  exists b' k' client' buffer',
    VoiceBot.sendAudio unit encode (JS.ofZ 24000) 2 b tt pcm = Some (b', k', Returned tt) /\
    personaplexClient b' = Some client' /\
    inputBuffer b' = Some buffer' /\
    wf buffer' /\
    writePosition buffer'
    = (writePosition buffer + len pcm - excess buffer (len pcm)) mod frameSize buffer /\
    writePosition buffer' < frameSize buffer' /\
    isSessionActive b' = true /\ emitted b' = emitted b.
Proof.
  intros encode client buffer b pcm.
  apply (sendAudio_drains_buffer unit encode (JS.ofZ 24000) 2 b tt pcm pcm client buffer).
  - reflexivity.
  - reflexivity.
  - reflexivity.
  - unfold wf, capacity, len. cbn. lia.
  - cbn. lia.
  - reflexivity.
  - unfold capacity, len. cbn. lia.
  - unfold capacity, len. cbn. lia.
Defined.

Lemma sendAudio_drops_audio_when_not_connected_witness :
  let encode := fun (k : unit) (frame : list float) => (k, Returned [9]) in
  let client :=
    Client.mkClient (Client.mkOptions true true 5 1000) (Some 0%nat) 0 true true true
      [Client.mkSocket Client.CLOSING [] [[0]] 0 0] [] [Client.Resolved] [] in
  let buffer := AudioBuffer.mk [0%float; 0%float; 0%float; 0%float] 0 2 in
  let b := mkVoiceBot (Some client) (Some buffer) true true [] [] in
  let b' :=
    mkVoiceBot (Some client)
      (Some (AudioBuffer.mk [0.125%float; 0%float; 0.125%float; 0%float] 1 2))
      true true [] [] in
  personaplexClient b' = Some client.
Proof.
  intros encode client buffer b b'.
  apply (sendAudio_drops_audio_when_not_connected unit encode (JS.ofZ 24000) 2 b b' tt tt
           [0.5%float; 0.25%float; 0.125%float] client).
  - reflexivity.
  - reflexivity.
  - vm_compute. reflexivity.
Defined.

Lemma sendAudio_sends_frames_in_order_witness :
  let encode := fun (k : nat) (frame : list float) => (S k, Returned [Z.of_nat k]) in
  let sk := Client.mkSocket Client.OPEN [] [[0]] 0 0 in
  let client :=
    Client.mkClient (Client.mkOptions true true 5 1000) (Some 0%nat) 0 true true true
      [sk] [] [Client.Resolved] [] in
  let buffer := AudioBuffer.mk [0%float; 0%float; 0%float; 0%float] 0 1 in
  let b := mkVoiceBot (Some client) (Some buffer) true true [] [] in
  let pcm := [0.5%float; 0.25%float] in
  let frames := framesOf (fst (push buffer pcm)) in
  exists b' client',
    VoiceBot.sendAudio nat encode (JS.ofZ 24000) 4 b 7%nat pcm
    = Some (b', fst (VoiceBot.encodeFrames nat encode 7%nat frames), Returned tt) /\
    personaplexClient b' = Some client' /\
    nth_error (Client.sockets client') 0
    = Some (Client.mkSocket Client.OPEN
              (Client.sent sk
                 ++ map Protocol.encodeAudioMessage
                      (snd (VoiceBot.encodeFrames nat encode 7%nat frames)))
              (Client.received sk) (Client.flow sk) (Client.closeWaiters sk)).
Proof.
  intros encode sk client buffer b pcm.
  apply (sendAudio_sends_frames_in_order nat encode (JS.ofZ 24000) 4 b 7%nat pcm pcm
           client buffer 0%nat sk).
  - reflexivity.
  - reflexivity.
  - reflexivity.
  - reflexivity.
  - unfold wf, capacity, len. cbn. lia.
  - cbn. lia.
  - reflexivity.
  - unfold capacity, len. cbn. lia.
  - unfold capacity, len. cbn. lia.
  - reflexivity.
  - reflexivity.
  - reflexivity.
  - reflexivity.
Defined.

Lemma oversized_chunk_wedges_session_witness :
  let encode := fun (k : unit) (frame : list float) => (k, Returned [9]) in
  let client :=
    Client.mkClient (Client.mkOptions true true 5 1000) (Some 0%nat) 0 true true true
      [Client.mkSocket Client.OPEN [] [[0]] 0 0] [] [Client.Resolved] [] in
  let buffer := AudioBuffer.mk [0%float; 0%float] 0 2 in
  let b := mkVoiceBot (Some client) (Some buffer) true true [] [] in
  exists b1,
    VoiceBot.sendAudio unit encode (JS.ofZ 24000) 2 b tt
      [0.5%float; 0.25%float; 0.125%float]
    = Some (b1, tt, Thrown "RangeError: offset is out of bounds") /\
    wedgedSession b1 /\
    forall b2, wedgedSession b2 ->
      forall fuel' k' pcm', exists b3 e,
        VoiceBot.sendAudio unit encode (JS.ofZ 24000) fuel' b2 k' pcm'
        = Some (b3, k', Thrown e) /\ wedgedSession b3.
Proof.
  intros encode client buffer b.
  apply (oversized_chunk_wedges_session unit encode (JS.ofZ 24000) 2 b tt
           [0.5%float; 0.25%float; 0.125%float] [0.5%float; 0.25%float; 0.125%float]
           client buffer).
  - reflexivity.
  - reflexivity.
  - reflexivity.
  - unfold wf, capacity, len. cbn. lia.
  - cbn. lia.
  - reflexivity.
  - unfold capacity, len. cbn. lia.
Defined.

End VoiceBotAudio.

(** ** The engine client: audio is let through after the handshake *)

Module ClientGating.
Import Protocol Client ClientProofs.

Local Arguments liveCount : simpl never.
Local Arguments retryCount : simpl never.
Local Arguments handshaken : simpl never.

(** With at most one live socket, two live sockets are the same one. *)
Lemma live_unique (l : list Socket) :
  forall a b x y,
  (liveCount l <= 1)%nat ->
  nth_error l a = Some x -> isLive x = true ->
  nth_error l b = Some y -> isLive y = true -> a = b.
Proof.
  induction l as [|z l IH]; intros a b x y Hone Ha Hx Hb Hy;
    [destruct a; discriminate|].
  rewrite liveCount_cons in Hone.
  destruct a as [|a], b as [|b]; cbn in Ha, Hb.
  - reflexivity.
  - injection Ha as ->. rewrite Hx in Hone. cbn in Hone.
    pose proof (liveCount_pos l b y Hb Hy). lia.
  - injection Hb as ->. rewrite Hy in Hone. cbn in Hone.
    pose proof (liveCount_pos l a x Ha Hx). lia.
  - f_equal. apply (IH a b x y); auto. lia.
Qed.

Lemma settle_ws (fl : nat) (p : Promise) (c : Client) : ws (settle fl p c) = ws c.
Proof.
  unfold settle. destruct (nth_error (promises c) fl) as [[| |]|]; destruct c; reflexivity.
Qed.

Lemma handleMessage_ws (data : list Z) (fl : nat) (c : Client) :
  ws (handleMessage data fl c) = ws c.
Proof.
  unfold handleMessage. destruct (decodeMessage data);
    rewrite ?settle_ws; destruct c; reflexivity.
Qed.

Lemma onClose_ws (fl : nat) (code : Z) (reason : option string) (c : Client) :
  ws (onClose fl code reason c) = ws c \/ ws (onClose fl code reason c) = None.
Proof.
  unfold onClose, attemptReconnect.
  destruct c as [o w n ic ir sr sks tm pr em]. client_simpl.
  destruct ir; client_simpl.
  - destruct (autoReconnect o && sr)%bool; client_simpl; auto.
    destruct (maxReconnectAttempts o <=? n); client_simpl; auto.
  - destruct (sr && (n <? maxReconnectAttempts o))%bool; client_simpl; auto.
    rewrite settle_ws. auto.
Qed.

(** What is kept when one socket is replaced and the rest stays. *)
Lemma held_socket_replaced (c c' : Client) (s0 : nat) (sk0 sk1 : Socket) :
  readyWhenHeld c ->
  nth_error (sockets c) s0 = Some sk0 ->
  sockets c' = replaceNth s0 sk1 (sockets c) ->
  (ws c' = ws c \/ ws c' = None) ->
  (isReady c' = true \/
   (isReady c' = isReady c /\
    (readyState sk1 = OPEN -> handshaken sk1 = true ->
     readyState sk0 = OPEN /\ handshaken sk0 = true)) \/
   (readyState sk1 = OPEN -> handshaken sk1 = true -> ws c = Some s0 -> False) /\
   (forall s sk, s <> s0 -> ws c = Some s -> nth_error (sockets c) s = Some sk ->
      readyState sk = OPEN -> False)) ->
  readyWhenHeld c'.
Proof.
  intros Hg Hs0 Hsk Hws Hcase s sk Hheld Hs Hopen Hhs.
  assert (Hheld0 : ws c = Some s) by (destruct Hws as [H|H]; congruence).
  rewrite Hsk in Hs.
  destruct Hcase as [Hr|[[Hr Hkeep]|[Hnot Hother]]]; [exact Hr| |].
  - rewrite Hr. destruct (Nat.eq_dec s s0) as [->|Hne].
    + rewrite (ClientMore.nth_error_replaceNth _ _ _ _ Hs0) in Hs. injection Hs as <-.
      destruct (Hkeep Hopen Hhs) as [Ho Hh]. exact (Hg s0 sk0 Hheld0 Hs0 Ho Hh).
    + rewrite ClientMore.nth_error_replaceNth_other in Hs by exact Hne.
      exact (Hg s sk Hheld0 Hs Hopen Hhs).
  - exfalso. destruct (Nat.eq_dec s s0) as [->|Hne].
    + rewrite (ClientMore.nth_error_replaceNth _ _ _ _ Hs0) in Hs. injection Hs as <-.
      exact (Hnot Hopen Hhs Hheld0).
    + rewrite ClientMore.nth_error_replaceNth_other in Hs by exact Hne.
      exact (Hother s sk Hne Hheld0 Hs Hopen).
Qed.

Lemma held_same (c c' : Client) :
  readyWhenHeld c -> sockets c' = sockets c -> (ws c' = ws c \/ ws c' = None) ->
  (isReady c' = true \/ isReady c' = isReady c) -> readyWhenHeld c'.
Proof.
  intros Hg Hsk Hws Hr s sk Hheld Hs Hopen Hhs.
  assert (Hheld0 : ws c = Some s) by (destruct Hws as [H|H]; congruence).
  rewrite Hsk in Hs. destruct Hr as [Hr|Hr]; [exact Hr|].
  rewrite Hr. exact (Hg s sk Hheld0 Hs Hopen Hhs).
Qed.

Lemma connectInternal_held (fl : nat) (c : Client) :
  readyWhenHeld c -> readyWhenHeld (connectInternal fl c).
Proof.
  intros Hg. unfold connectInternal. destruct (validUrl (options c)).
  - intros s sk Hheld Hs Hopen _. exfalso.
    destruct c as [o w n ic ir sr sks tm pr em]. cbn in Hheld, Hs.
    injection Hheld as <-. rewrite nth_error_snoc in Hs. injection Hs as <-.
    discriminate Hopen.
  - match goal with
    | |- readyWhenHeld (settle ?a ?b ?d) =>
        destruct (settle_core a b d) as (_ & Hir & Hsk & _);
        pose proof (settle_ws a b d) as Hws
    end.
    apply (held_same c).
    + exact Hg.
    + rewrite Hsk. destruct c; reflexivity.
    + left. rewrite Hws. destruct c; reflexivity.
    + right. rewrite Hir. destruct c; reflexivity.
Qed.

Lemma connect_held (c : Client) : readyWhenHeld c -> readyWhenHeld (fst (connect c)).
Proof.
  intros Hg. unfold connect. destruct (wsIsOpen c); [exact Hg|].
  destruct (isConnecting c); [exact Hg|]. cbn [fst].
  apply connectInternal_held. destruct c; exact Hg.
Qed.

(** Every event keeps it: the client is ready whenever the socket it
    holds is open and has delivered a handshake frame. *)
Lemma step_readyWhenHeld (c c' : Client) (e : Event) :
  Inv c -> openedBeforeReceiving c -> readyWhenHeld c ->
  step c e = Some c' -> readyWhenHeld c'.
Proof.
  intros Hinv Hm Hg. destruct e as [|d| |s0|s0 d|s0 m|s0 code r|i]; unfold step.
  - intros [= <-]. now apply connect_held.
  - intros [= <-]. unfold sendAudio.
    destruct (ws c) as [s|] eqn:Hws; [|exact Hg].
    destruct (nth_error (sockets c) s) as [[r st rc fl cw]|] eqn:Hs; [|exact Hg].
    destruct (isReady c) eqn:Hr; [|exact Hg].
    destruct r; cbn [readyState isOpen negb orb fst]; try exact Hg.
    eapply (held_socket_replaced c _ s); [exact Hg|exact Hs|destruct c; reflexivity| |].
    + left. destruct c; reflexivity.
    + left. destruct c; exact Hr.
  - intros [= <-]. unfold close.
    replace (ws (set_shouldReconnect false c)) with (ws c) by (destruct c; reflexivity).
    replace (sockets (set_shouldReconnect false c)) with (sockets c)
      by (destruct c; reflexivity).
    destruct (ws c) as [s|] eqn:Hws.
    + destruct (nth_error (sockets c) s) as [[r st rc fl cw]|] eqn:Hs.
      * destruct (isOpen (readyState (mkSocket r st rc fl cw))) eqn:Hopen.
        -- eapply (held_socket_replaced c _ s);
             [exact Hg|exact Hs|destruct c; reflexivity| |].
           ++ left. destruct c; cbn in *; congruence.
           ++ right. right. split; [intros H; discriminate H|].
              intros s1 sk1 Hne Hheld. congruence.
        -- intros s1 sk1 Hheld. destruct c; discriminate Hheld.
      * apply (held_same c); [exact Hg|destruct c; reflexivity| |].
        -- left. destruct c; cbn in *; congruence.
        -- right. destruct c; reflexivity.
    + apply (held_same c); [exact Hg|destruct c; reflexivity| |].
      * left. destruct c; cbn in *; congruence.
      * right. destruct c; reflexivity.
  - destruct (nth_error (sockets c) s0) as [[r st rc fl cw]|] eqn:Hs; [|discriminate].
    destruct r; try discriminate. intros [= <-].
    eapply (held_socket_replaced c _ s0);
      [exact Hg|exact Hs|destruct c; reflexivity| |].
    + left. destruct c; reflexivity.
    + right. left. split; [destruct c; reflexivity|].
      intros _ Hhs. exfalso.
      pose proof (Forall_nth_error _ _ _ _ Hm Hs) as Hrc. cbn in Hrc.
      unfold handshaken in Hhs. cbn [received] in Hhs.
      destruct rc as [|x rc]; [discriminate Hhs|].
      apply Hrc; [discriminate|reflexivity].
  - destruct (nth_error (sockets c) s0) as [[r st rc fl cw]|] eqn:Hs; [|discriminate].
    intros Hstep.
    set (sk1 := mkSocket r st (rc ++ [d]) fl cw) in *.
    assert (Hc' : c' = handleMessage d fl (set_sockets (replaceNth s0 sk1 (sockets c)) c))
      by (destruct r; try discriminate; now injection Hstep as <-).
    clear Hstep. subst c'.
    match goal with
    | |- readyWhenHeld (handleMessage ?a ?b ?x) =>
        destruct (handleMessage_core a b x) as (_ & Hir & Hsk & _);
        pose proof (handleMessage_ws a b x) as Hws
    end.
    eapply (held_socket_replaced c _ s0); [exact Hg|exact Hs| | |].
    + rewrite Hsk. destruct c; reflexivity.
    + left. rewrite Hws. destruct c; reflexivity.
    + rewrite Hir. destruct (isHandshake d) eqn:Hhs; [now left|].
      right. left. split; [destruct c; reflexivity|].
      unfold sk1. cbn [readyState]. intros Ho Hh. split; [exact Ho|].
      unfold handshaken in *. cbn [received] in *.
      rewrite existsb_app in Hh. cbn [existsb] in Hh. rewrite Hhs in Hh.
      cbn in Hh. now rewrite orb_false_r in Hh.
  - destruct (nth_error (sockets c) s0) as [[r st rc fl cw]|]; [|discriminate].
    destruct r; try discriminate; intros [= <-];
      (apply (held_same c); [exact Hg|destruct c; reflexivity|left; destruct c; reflexivity
                            |right; destruct c; reflexivity]).
  - destruct (nth_error (sockets c) s0) as [[r0 st rc fl cw]|] eqn:Hs; [|discriminate].
    intros Hstep.
    set (c1 := set_sockets (replaceNth s0 (mkSocket CLOSED st rc fl 0) (sockets c)) c) in *.
    assert (Hr : isLive (mkSocket r0 st rc fl cw) = true /\
                 c' = match cw with
                      | O => onClose fl code r c1
                      | S _ => onCloseOnce (onClose fl code r c1)
                      end)
      by (destruct r0; try discriminate; injection Hstep as <-; split; reflexivity).
    destruct Hr as [Hlive ->]. clear Hstep.
    destruct (onClose_shape fl code r c1) as (_ & Hsk & _).
    pose proof (onClose_ws fl code r c1) as Hws.
    eapply (held_socket_replaced c _ s0 _ (mkSocket CLOSED st rc fl 0)); [exact Hg|exact Hs| | |].
    + replace (replaceNth s0 (mkSocket CLOSED st rc fl 0) (sockets c)) with (sockets c1)
        by (destruct c; reflexivity).
      rewrite <- Hsk. destruct cw; [reflexivity|].
      destruct (onClose fl code r c1); reflexivity.
    + replace (ws c) with (ws c1) by (destruct c; reflexivity).
      destruct cw; [exact Hws|]. right. destruct (onClose fl code r c1); reflexivity.
    + right. right. split; [intros H; discriminate H|].
      intros s sk Hne Hheld Hsome Hopen.
      apply Hne. destruct Hinv as [_ H2 _ _ _].
      apply (live_unique (sockets c) s s0 sk (mkSocket r0 st rc fl cw)); auto; [lia|].
      unfold isLive. rewrite Hopen. reflexivity.
  - destruct (nth_error (timers c) i) as [t|]; [|discriminate].
    set (c1 := set_timers (removeNth i (timers c)) c).
    assert (Hg1 : readyWhenHeld c1) by (destruct c; exact Hg).
    destruct t as [d fl|d]; intros [= <-].
    + now apply connectInternal_held.
    + now apply connect_held.
Qed.

Lemma step_openedBeforeReceiving (c c' : Client) (e : Event) :
  openedBeforeReceiving c -> step c e = Some c' -> openedBeforeReceiving c'.
Proof.
  intros Hm Hstep. unfold openedBeforeReceiving in *.
  apply (ClientMore.sockets_always
           (fun sk => received sk <> [] -> readyState sk <> CONNECTING))
    with (es := [e]) (c := c); [| | |exact Hm].
  - intros fl H. now elim H.
  - intros sk sk' Hch. destruct Hch; cbn [received readyState]; auto; try discriminate.
    destruct H; subst; discriminate.
  - cbn [run]. rewrite Hstep. reflexivity.
Qed.

Lemma run_readyWhenHeld (es : list Event) :
  forall c c',
  Inv c -> openedBeforeReceiving c -> readyWhenHeld c ->
  run c es = Some c' -> readyWhenHeld c'.
Proof.
  induction es as [|e es IH]; intros c c' Hinv Hm Hg; cbn [run].
  - intros [= <-]. exact Hg.
  - destruct (step c e) as [c1|] eqn:Hstep; [|discriminate].
    apply IH.
    + exact (step_inv c c1 e Hinv Hstep).
    + exact (step_openedBeforeReceiving c c1 e Hm Hstep).
    + exact (step_readyWhenHeld c c1 e Hinv Hm Hg Hstep).
Qed.

(** C4.  For a client and whatever happens to it after its
    construction:
    - as long as no handshake frame has been delivered, [sendAudio]
      throws, and leaves the client as it is;
    - in every state in which the socket the client holds is open and
      has delivered a handshake frame, however long ago and whatever
      happened since, [sendAudio] returns and has given that socket the
      audio frame (the type byte 0x01, then the data);
    - in particular right after a handshake frame on the socket the
      client holds, that socket being open;
    - so a socket that was given any frame is one on which a handshake
      frame had been delivered. *)
Theorem handshake_gating (o : Options) :
  (forall es c data,
     run (constructor o) es = Some c ->
     (forall s d, In (SocketMessage s d) es -> isHandshake d = false) ->
     sendAudio data c = (c, Thrown "Client is not connected")) /\
  (forall es c s sk d data,
     run (constructor o) es = Some c ->
     ws c = Some s -> nth_error (sockets c) s = Some sk -> readyState sk = OPEN ->
     In d (received sk) -> isHandshake d = true ->
     sendAudio data c
     = (set_sockets
          (replaceNth s
             (mkSocket OPEN (sent sk ++ [AUDIO :: data]) (received sk) (flow sk)
                (closeWaiters sk)) (sockets c)) c,
        Returned tt)) /\
  (forall c s d c' sk data,
     step c (SocketMessage s d) = Some c' -> isHandshake d = true ->
     ws c' = Some s -> nth_error (sockets c') s = Some sk -> readyState sk = OPEN ->
     sendAudio data c'
     = (set_sockets
          (replaceNth s
             (mkSocket OPEN (sent sk ++ [AUDIO :: data]) (received sk) (flow sk)
                (closeWaiters sk)) (sockets c')) c',
        Returned tt)) /\
  (forall es c s sk,
     run (constructor o) es = Some c ->
     nth_error (sockets c) s = Some sk -> sent sk <> [] ->
     exists d, In d (received sk) /\ isHandshake d = true).
Proof.
  split; [|split; [|split]].
  - intros es c data Hrun Hno. apply sendAudio_not_ready.
    apply (run_not_ready es (constructor o) c Hrun); [reflexivity|exact Hno].
  - intros es c s sk d data Hrun Hws Hs Hopen Hin Hhs.
    assert (Hready : isReady c = true).
    { apply (run_readyWhenHeld es (constructor o) c (constructor_inv o)) with (s := s) (sk := sk);
        try assumption.
      - constructor.
      - intros s1 sk1 H. discriminate H.
      - unfold handshaken. apply existsb_exists. exists d. split; assumption. }
    unfold sendAudio. rewrite Hws, Hs, Hready, Hopen. reflexivity.
  - intros c s d c' sk data Hstep Hhs Hws Hs Hopen.
    assert (Hready : isReady c' = true).
    { unfold step in Hstep.
      destruct (nth_error (sockets c) s) as [[r st rc fl cw]|]; [|discriminate].
      assert (Hc' : c' = handleMessage d fl
                           (set_sockets
                              (replaceNth s (mkSocket r st (rc ++ [d]) fl cw) (sockets c)) c))
        by (destruct r; try discriminate; now injection Hstep as <-).
      subst c'.
      match goal with
      | |- isReady (handleMessage ?a ?b ?x) = _ =>
          destruct (handleMessage_core a b x) as (_ & -> & _)
      end.
      rewrite Hhs. reflexivity. }
    unfold sendAudio. rewrite Hws, Hs, Hready, Hopen. reflexivity.
  - intros es c s sk Hrun Hs Hsent.
    pose proof (run_inv es _ _ (constructor_inv o) Hrun) as [_ _ _ _ H5].
    pose proof (Forall_nth_error _ _ _ _ H5 Hs Hsent) as Hh.
    unfold handshaken in Hh. apply existsb_exists in Hh. exact Hh.
Qed.

Lemma handshake_gating_witness :
  let o := mkOptions true true 5 1000 in
  let opened :=
    mkClient o (Some 0%nat) 0 true false true [mkSocket OPEN [] [] 0 0] [] [Pending]
      [EvConnected] in
  let ready :=
    mkClient o (Some 0%nat) 0 true true true [mkSocket OPEN [] [[0]] 0 0] [] [Resolved]
      [EvConnected; EvMessage Handshake; EvReady] in
  let later :=
    mkClient o (Some 0%nat) 0 true true true
      [mkSocket OPEN [[1; 7; 8]] [[0]; [2; 104; 105]] 0 0] [] [Resolved]
      [EvConnected; EvMessage Handshake; EvReady;
       EvMessage (Text "hi"); EvText "hi"] in
  sendAudio [7; 8] opened = (opened, Thrown "Client is not connected") /\
  sendAudio [9] later
  = (set_sockets [mkSocket OPEN [[1; 7; 8]; [1; 9]] [[0]; [2; 104; 105]] 0 0] later,
     Returned tt) /\
  sendAudio [7; 8] ready
  = (set_sockets [mkSocket OPEN [[1; 7; 8]] [[0]] 0 0] ready, Returned tt) /\
  exists d, In d [[0]] /\ isHandshake d = true.
Proof.
  intros o opened ready later.
  destruct (handshake_gating o) as (Hbefore & Halways & Hafter & Hsent).
  split; [|split; [|split]].
  - apply (Hbefore [CallConnect; SocketOpen 0]); [reflexivity|].
    intros s d [H|[H|[]]]; discriminate H.
  - apply (Halways [CallConnect; SocketOpen 0; SocketMessage 0 [0]; CallSendAudio [7; 8];
                    SocketMessage 0 [2; 104; 105]]
             later 0%nat (mkSocket OPEN [[1; 7; 8]] [[0]; [2; 104; 105]] 0 0) [0] [9]);
      [reflexivity|reflexivity|reflexivity|reflexivity|now left|reflexivity].
  - apply (Hafter opened 0%nat [0] ready (mkSocket OPEN [] [[0]] 0 0) [7; 8]);
      reflexivity.
  - apply (Hsent [CallConnect; SocketOpen 0; SocketMessage 0 [0]; CallSendAudio [7; 8]]
             (set_sockets [mkSocket OPEN [[1; 7; 8]] [[0]] 0 0] ready) 0%nat
             (mkSocket OPEN [[1; 7; 8]] [[0]] 0 0));
      [reflexivity|reflexivity|discriminate].
Defined.

End ClientGating.

(** ** The engine client: reconnection after a drop *)

Module ClientBackoff.
Import Protocol Client ClientProofs.

Lemma droppedSockets_length (j : nat) : length (droppedSockets j) = j.
Proof. unfold droppedSockets. rewrite length_map, length_seq. reflexivity. Qed.

Lemma droppedSockets_succ (j : nat) :
  droppedSockets j ++ [mkSocket CLOSED [] [[HANDSHAKE]] j 0] = droppedSockets (S j).
Proof. unfold droppedSockets. rewrite seq_S, map_app. reflexivity. Qed.

Lemma nth_error_last {A : Type} (l : list A) (x : A) (n : nat) :
  length l = n -> nth_error (l ++ [x]) n = Some x.
Proof. intros <-. apply nth_error_snoc. Qed.

Lemma replaceNth_last {A : Type} (l : list A) (x y : A) (n : nat) :
  length l = n -> replaceNth n y (l ++ [x]) = l ++ [y].
Proof. intros <-. apply replaceNth_snoc. Qed.

Lemma droppedEvents_succ (j : nat) :
  concat (repeat droppedEvents j) ++ droppedEvents = concat (repeat droppedEvents (S j)).
Proof.
  rewrite <- repeat_snoc, concat_app. cbn [concat]. rewrite app_nil_r. reflexivity.
Qed.

Lemma no_error_dropped (j : nat) (m : string) :
  ~ In (EvError m) (concat (repeat droppedEvents j)).
Proof.
  intros Hin. apply in_concat in Hin. destruct Hin as (l & Hl & Hin).
  apply repeat_spec in Hl. subst l.
  cbn in Hin. intuition discriminate.
Qed.

Section DroppingServer.
Variable o : Options.
Hypothesis valid : validUrl o = true.
Hypothesis auto : autoReconnect o = true.
Hypothesis retries : 0 < maxReconnectAttempts o.

Lemma drop_round (j : nat) :
  run (reconnecting o j)
    [SocketOpen j; SocketMessage j [HANDSHAKE]; SocketClose j 1006 None]
  = Some (dropped o j).
Proof.
  pose proof (droppedSockets_length j) as Hlen.
  unfold run, step, reconnecting. cbn [sockets].
  rewrite (nth_error_last _ _ _ Hlen), (replaceNth_last _ _ _ _ Hlen).
  unfold onOpen. client_simpl.
  rewrite (nth_error_last _ _ _ Hlen), (replaceNth_last _ _ _ _ Hlen).
  unfold handleMessage. change (decodeMessage [HANDSHAKE]) with Handshake. cbv iota.
  unfold settle. cbn [promises emit set_isReady].
  rewrite (nth_error_last _ _ _ (repeat_length Resolved j)).
  rewrite (replaceNth_last _ _ _ _ (repeat_length Resolved j)).
  client_simpl.
  rewrite (nth_error_last _ _ _ Hlen), (replaceNth_last _ _ _ _ Hlen).
  unfold onClose, attemptReconnect. client_simpl.
  rewrite auto. client_simpl.
  destruct (Z.leb_spec (maxReconnectAttempts o) 0) as [Hle|_]; [lia|].
  client_simpl.
  unfold dropped. rewrite droppedSockets_succ, repeat_snoc.
  rewrite <- droppedEvents_succ. rewrite <- !app_assoc. reflexivity.
Qed.

Lemma reconnect_fires (j : nat) :
  step (dropped o j) (TimerFire 0) = Some (reconnecting o (S j)).
Proof.
  unfold step, dropped. client_simpl.
  unfold connect, wsIsOpen, socketState. client_simpl.
  rewrite <- droppedSockets_succ.
  rewrite (nth_error_last _ _ _ (droppedSockets_length j)). client_simpl.
  unfold connectInternal. client_simpl. rewrite valid. client_simpl.
  rewrite droppedSockets_succ, droppedSockets_length, repeat_length.
  unfold reconnecting. rewrite <- repeat_snoc. reflexivity.
Qed.

Lemma dropping_rounds (n : nat) :
  forall j, run (reconnecting o j) (droppingServer n j) = Some (reconnecting o (j + n)).
Proof.
  induction n as [|n IH]; intros j.
  - rewrite Nat.add_0_r. reflexivity.
  - change (droppingServer (S n) j)
      with ([SocketOpen j; SocketMessage j [HANDSHAKE]; SocketClose j 1006 None]
              ++ TimerFire 0 :: droppingServer n (S j)).
    rewrite run_app, drop_round. cbn [run]. rewrite reconnect_fires, IH.
    do 2 f_equal. lia.
Qed.

End DroppingServer.

(** The options are those of the constructor, for good. *)
Lemma settle_options (fl : nat) (p : Promise) (c : Client) :
  options (settle fl p c) = options c.
Proof.
  unfold settle. destruct (nth_error (promises c) fl) as [[| |]|]; destruct c; reflexivity.
Qed.

Lemma connectInternal_options (fl : nat) (c : Client) :
  options (connectInternal fl c) = options c.
Proof.
  unfold connectInternal. destruct (validUrl (options c)).
  - destruct c; reflexivity.
  - rewrite settle_options. destruct c; reflexivity.
Qed.

Lemma connect_options (c : Client) : options (fst (connect c)) = options c.
Proof.
  unfold connect. destruct (wsIsOpen c); [reflexivity|].
  destruct (isConnecting c); [reflexivity|]. cbn [fst].
  rewrite connectInternal_options. destruct c; reflexivity.
Qed.

Lemma handleMessage_options (data : list Z) (fl : nat) (c : Client) :
  options (handleMessage data fl c) = options c.
Proof.
  unfold handleMessage. destruct (decodeMessage data);
    rewrite ?settle_options; destruct c; reflexivity.
Qed.

Lemma onClose_options (fl : nat) (code : Z) (reason : option string) (c : Client) :
  options (onClose fl code reason c) = options c.
Proof.
  unfold onClose, attemptReconnect.
  destruct c as [o w n ic ir sr sks tm pr em]. client_simpl.
  destruct ir; client_simpl.
  - destruct (autoReconnect o && sr)%bool; client_simpl; [|reflexivity].
    destruct (maxReconnectAttempts o <=? n); client_simpl; reflexivity.
  - destruct (sr && (n <? maxReconnectAttempts o))%bool; client_simpl; [reflexivity|].
    rewrite settle_options. reflexivity.
Qed.

Lemma step_options (c c' : Client) (e : Event) :
  step c e = Some c' -> options c' = options c.
Proof.
  destruct e as [|d| |s0|s0 d|s0 m|s0 code r|i]; unfold step.
  - intros [= <-]. apply connect_options.
  - intros [= <-]. unfold sendAudio.
    destruct (ws c) as [s|]; [|reflexivity].
    destruct (nth_error (sockets c) s) as [sk|]; [|reflexivity].
    destruct (negb (isReady c) || negb (isOpen (readyState sk)))%bool; [reflexivity|].
    destruct c; reflexivity.
  - intros [= <-]. apply ClientMore.close_keeps.
  - destruct (nth_error (sockets c) s0) as [[r st rc fl cw]|]; [|discriminate].
    destruct r; try discriminate. intros [= <-]. destruct c; reflexivity.
  - destruct (nth_error (sockets c) s0) as [[r st rc fl cw]|]; [|discriminate].
    destruct r; try discriminate; intros [= <-];
      rewrite handleMessage_options; destruct c; reflexivity.
  - destruct (nth_error (sockets c) s0) as [[r st rc fl cw]|]; [|discriminate].
    destruct r; try discriminate; intros [= <-]; destruct c; reflexivity.
  - destruct (nth_error (sockets c) s0) as [[r0 st rc fl cw]|]; [|discriminate].
    assert (H : forall c1 : Client, options c1 = options c ->
                options (match cw with
                         | O => onClose fl code r c1
                         | S _ => onCloseOnce (onClose fl code r c1)
                         end) = options c).
    { intros c1 H1. rewrite <- H1, <- (onClose_options fl code r c1).
      destruct cw; [reflexivity|]. destruct (onClose fl code r c1); reflexivity. }
    destruct r0; try discriminate; intros [= <-]; apply H; destruct c; reflexivity.
  - destruct (nth_error (timers c) i) as [t|]; [|discriminate].
    destruct t as [d fl|d]; intros [= <-].
    + rewrite connectInternal_options. destruct c; reflexivity.
    + rewrite connect_options. destruct c; reflexivity.
Qed.

Lemma run_options (es : list Event) :
  forall c c', run c es = Some c' -> options c' = options c.
Proof.
  induction es as [|e es IH]; intros c c'; cbn [run].
  - intros [= <-]. reflexivity.
  - destruct (step c e) as [c1|] eqn:Hstep; [|discriminate].
    intros Hrun. rewrite (IH c1 c' Hrun). exact (step_options c c1 e Hstep).
Qed.

(** A ready client has its attempt counter at zero: the socket it is
    ready on has opened, and the 'open' listener set the counter back. *)
Lemma ready_counter_zero (o : Options) (es : list Event) (c : Client) :
  run (constructor o) es = Some c -> isReady c = true -> reconnectAttempts c = 0.
Proof.
  intros Hrun Hready.
  pose proof (run_inv es _ _ (constructor_inv o) Hrun) as Hinv.
  assert (Hk : freshWhileOpen c).
  { apply (ClientMore.run_freshWhileOpen es (constructor o) c (constructor_inv o));
      [|exact Hrun].
    unfold freshWhileOpen, openedCount. cbn. lia. }
  apply Hk. destruct Hinv as [_ _ H3 H4 _].
  specialize (H3 Hready). specialize (H4 Hready).
  destruct (ClientMore.live_socket (sockets c)) as (s & sk & Hs & Hlive); [lia|].
  apply (ClientMore.openedCount_pos _ s sk Hs).
  pose proof (Forall_nth_error _ _ _ _ H4 Hs Hlive) as Hhs.
  pose proof (Forall_nth_error _ _ _ _ (ClientMore.received_after_open o es c Hrun) Hs) as Hrc.
  cbn beta in Hrc.
  assert (Hne : received sk <> []).
  { unfold handshaken in Hhs. destruct (received sk); [discriminate|discriminate]. }
  specialize (Hrc Hne). unfold isLive in Hlive. unfold isOpened.
  destruct (readyState sk); congruence.
Qed.



End ClientBackoff.
